(** * agent-chat: the transport client (services/agentClient.ts)

    A shallow embedding of [AgentClient]: the streaming attempt over an
    [EventSource], the non-streaming POST, and [sendMessage], which tries the
    first and falls back to the second.

    The client is event driven.  Each attempt is modelled as a state machine
    whose steps are the callbacks and continuations of the source
    ([onmessage], [onerror], the timer callbacks, the code after each
    [await]); the platform (event source, timers, fetch) supplies the inputs.
    Every step returns the new state together with the list of actions it
    performed on the platform and on the caller, in program order.

    What is taken from the platform rather than from the source: a closed
    event source dispatches no event; a timer fires once, and only while it
    is armed; [fetch] settles when the response (status and headers) has
    arrived, the body being read by [response.text()] or [response.json()]
    afterwards; aborting makes the call in flight reject with an
    [AbortError]; [response.ok] is a status in 200..299.  The fragment
    callback is taken to return normally, and the messages of the stream to
    have the field types [SSEEvent] declares. *)

From Stdlib Require Import Ascii String List Bool Arith Lia ZArith DecimalString.
Import ListNotations.

Local Open Scope string_scope.
Local Open Scope list_scope.

(** ** JavaScript values used by the client *)

(** What [JSON.parse] and [response.json()] can produce.  Numbers are kept
    as integers: the client never computes with them. *)
#[warnings="-register-all"]
Inductive JsValue : Type :=
| JNull
| JBool (b : bool)
| JNum (n : Z)
| JStr (s : string)
| JArr (items : list JsValue)
| JObj (fields : list (string * JsValue)).

(** An [Error] instance (or a subclass such as [TypeError], [DOMException]). *)
Record JsError : Type := mkJsError { name : string; message : string }.

(** [new Error(msg)] *)
Definition Error (msg : string) : JsError :=
  {| name := "Error"; message := msg |}.

(** Anything that can be thrown or be the reason of a rejection:
    [error instanceof Error] holds for [ThrowError] only. *)
Inductive Thrown : Type :=
| ThrowError (e : JsError)
| ThrowOther (v : JsValue).

Inductive Promise (A : Type) : Type :=
| Pending
| Fulfilled (value : A)
| Rejected (reason : Thrown).
Arguments Pending {A}.
Arguments Fulfilled {A} value.
Arguments Rejected {A} reason.

Definition settled {A} (p : Promise A) : bool :=
  match p with Pending => false | _ => true end.

(** Truthiness of a string, and of an optional (possibly [undefined]) one. *)
Definition truthy (s : string) : bool := negb (s =? "").

Definition truthy_opt (o : option string) : bool :=
  match o with Some s => truthy s | None => false end.

(** What [if (x) { ... x ... }] sees of an optional string: its value when it
    is defined and non-empty. *)
Definition truthy_value (o : option string) : option string :=
  match o with
  | Some s => if truthy s then Some s else None
  | None => None
  end.

(** [a || b] on strings. *)
Definition or_else (a b : string) : string := if truthy a then a else b.

(** [o || b] where [o] may be [undefined]. *)
Definition opt_or_else (o : option string) (b : string) : string :=
  match o with Some a => or_else a b | None => b end.

(** The decimal text a template literal gives for a status code. *)
Definition decimal (n : N) : string := NilZero.string_of_uint (N.to_uint n).

(** ** types.ts *)

Inductive Role : Type := user | assistant.

Module Message.
Record t : Type := mk { role : Role; content : string; timestamp : option Z }.
End Message.

Module ChatRequest.
Record t : Type := mk {
  conversationId : option string;
  message : string;
  history : list Message.t
}.
End ChatRequest.

(** The object literal [{ conversationId, answer }]. *)
Definition ChatResponse (conversationId answer : string) : JsValue :=
  JObj [("conversationId", JStr conversationId); ("answer", JStr answer)].

Module SSEEvent.
Record t : Type := mk {
  conversationId : option string;
  answer : option string;
  error : option string;
  done : option bool
}.
End SSEEvent.

(** [if (data.done)] *)
Definition truthy_flag (o : option bool) : bool :=
  match o with Some b => b | None => false end.

(** ** The platform *)

(** [setTimeout] returns an integer greater than zero, so a handle that is
    defined is truthy; [undefined] is [None]. *)
Definition TimerHandle : Type := positive.
Bind Scope positive_scope with TimerHandle.

(** The state of the one timer an attempt arms. *)
Inductive Timer : Type :=
| Armed (ms : N)
| Fired
| Cleared.

Definition armed (t : Timer) : bool :=
  match t with Armed _ => true | _ => false end.

(** [clearTimeout] on the attempt's timer: a timer that has fired or was
    cleared stays as it is. *)
Definition cancel (t : Timer) : Timer :=
  match t with Armed _ => Cleared | _ => t end.

(** Actions of the client, in the order it performs them. *)
Inductive Effect : Type :=
| NewEventSource (url message conversationId : string) (history : list Message.t)
| EventSourceClose
| SetTimeout (ms : N) (h : TimerHandle)
| ClearTimeout (h : TimerHandle)
| OnChunk (chunk : string)
| Resolve (value : JsValue)
| Reject (reason : JsError)
| ConsoleError (what : string)
| ConsoleWarn (what : string) (reason : Thrown)
| Fetch (url : string) (headers : list (string * string)) (body : ChatRequest.t)
| Abort
| ResponseText
| ResponseJson
| Span (call : string).

(** A computation over a state [S] that also logs its actions. *)
Definition Eff (S A : Type) : Type := S -> A * S * list Effect.

Definition ret {S A} (a : A) : Eff S A := fun st => (a, st, []).

Definition bind {S A B} (m : Eff S A) (k : A -> Eff S B) : Eff S B :=
  fun st =>
    let '(a, st1, t1) := m st in
    let '(b, st2, t2) := k a st1 in
    (b, st2, t1 ++ t2).

Definition emit {S} (e : Effect) : Eff S unit := fun st => (tt, st, [e]).

Definition modify {S} (f : S -> S) : Eff S unit := fun st => (tt, f st, []).

Definition gets {S A} (f : S -> A) : Eff S A := fun st => (f st, st, []).

Definition when {S} (c : bool) (m : Eff S unit) : Eff S unit :=
  if c then m else ret tt.

Declare Scope eff_scope.
Delimit Scope eff_scope with eff.
Notation "x <- m ;; k" := (bind m (fun x => k))
  (at level 61, m at next level, right associativity) : eff_scope.
Notation "m ;; k" := (bind m (fun _ => k))
  (at level 61, right associativity) : eff_scope.
Local Open Scope eff_scope.

(** The state and the trace a computation leaves. *)
Definition exec {S A} (m : Eff S A) (st : S) : S * list Effect :=
  let '(_, st', t) := m st in (st', t).

(** ** The client and its two revisions *)

Definition DEFAULT_CHAT_ENDPOINT : string := "/chat".
Definition DEFAULT_TIMEOUT : N := 30000%N.

Record AgentClient : Type := mkAgentClient {
  baseUrl : string;
  chatEndpoint : string;
  timeout : N
}.

(** The repository holds the client twice: as first written, and with the
    telemetry span added around [sendMessage].  In the streaming attempt the
    two differ in one place: the timer callback calls [cleanup()], which
    reads the handle from the enclosing variable, in the first, and
    [cleanup(undefined)] in the second. *)
Inductive Revision : Type := Plain | Traced.

(** ** sendMessageWithStreaming *)

Record StreamState : Type := mkStreamState {
  closed : bool;                (* eventSource.close() was called *)
  timer : Timer;
  timeoutId : TimerHandle;
  accumulatedAnswer : string;
  conversationId : string;
  promise : Promise JsValue     (* the promise the attempt returns *)
}.

Definition set_closed (st : StreamState) : StreamState :=
  mkStreamState true (timer st) (timeoutId st) (accumulatedAnswer st)
    (conversationId st) (promise st).

Definition set_timer (t : Timer) (st : StreamState) : StreamState :=
  mkStreamState (closed st) t (timeoutId st) (accumulatedAnswer st)
    (conversationId st) (promise st).

Definition set_accumulatedAnswer (a : string) (st : StreamState) : StreamState :=
  mkStreamState (closed st) (timer st) (timeoutId st) a
    (conversationId st) (promise st).

Definition set_conversationId (c : string) (st : StreamState) : StreamState :=
  mkStreamState (closed st) (timer st) (timeoutId st) (accumulatedAnswer st)
    c (promise st).

(** A promise keeps its first settlement. *)
Definition settle (p : Promise JsValue) (st : StreamState) : StreamState :=
  match promise st with
  | Pending =>
      mkStreamState (closed st) (timer st) (timeoutId st) (accumulatedAnswer st)
        (conversationId st) p
  | _ => st
  end.

Definition eventSource_close : Eff StreamState unit :=
  emit EventSourceClose ;; modify set_closed.

Definition clearTimeout (h : TimerHandle) : Eff StreamState unit :=
  emit (ClearTimeout h) ;; modify (fun st => set_timer (cancel (timer st)) st).

Definition resolve (v : JsValue) : Eff StreamState unit :=
  emit (Resolve v) ;; modify (settle (Fulfilled v)).

Definition reject (e : JsError) : Eff StreamState unit :=
  emit (Reject e) ;; modify (settle (Rejected (ThrowError e))).

(** [onChunk(chunk)]: the callback returns nothing; the call is logged. *)
Definition invoke (onChunk : string -> unit) (chunk : string) : Eff StreamState unit :=
  fun st => (onChunk chunk, st, [OnChunk chunk]).

(** [cleanup]: [eventSource.close(); if (timerId) clearTimeout(timerId);] *)
Definition cleanup (timerId : option TimerHandle) : Eff StreamState unit :=
  eventSource_close ;;
  match timerId with
  | Some h => clearTimeout h
  | None => ret tt
  end.

(** The argument the timer callback gives [cleanup]. *)
Definition timer_cleanup_arg (rev : Revision) (h : TimerHandle) : option TimerHandle :=
  match rev with Plain => Some h | Traced => None end.

(** The callback given to [setTimeout]. *)
Definition ontimeout (rev : Revision) : Eff StreamState unit :=
  h <- gets timeoutId ;;
  cleanup (timer_cleanup_arg rev h) ;;
  reject (Error "Request timeout").

(** What [JSON.parse(event.data)] makes of a message.  A payload that
    parses is read through the four fields [SSEEvent] declares, with the
    types it declares; a number, a string or an array has none of them and
    reads as the event without fields. *)
Inductive MessageData : Type :=
| Unparseable                   (* JSON.parse throws *)
| JsonNull                      (* null: reading data.error throws *)
| Json (data : SSEEvent.t).

(** [eventSource.onmessage].  Both exceptions arise before the handler has
    changed anything and are caught by its own catch clause.  The callback
    is taken to return normally. *)
Definition onmessage (request : ChatRequest.t) (onChunk : string -> unit)
    (event : MessageData) : Eff StreamState unit :=
  match event with
  | Unparseable | JsonNull => emit (ConsoleError "Error parsing SSE data:")
  | Json data =>
      match truthy_value (SSEEvent.error data) with
      | Some text =>
          h <- gets timeoutId ;;
          cleanup (Some h) ;;
          reject (Error text)
      | None =>
          match truthy_value (SSEEvent.conversationId data) with
          | Some c => modify (set_conversationId c)
          | None => ret tt
          end ;;
          match truthy_value (SSEEvent.answer data) with
          | Some a =>
              acc <- gets accumulatedAnswer ;;
              modify (set_accumulatedAnswer (acc ++ a)) ;;
              invoke onChunk a
          | None => ret tt
          end ;;
          when (truthy_flag (SSEEvent.done data))
            (h <- gets timeoutId ;;
             cleanup (Some h) ;;
             c <- gets conversationId ;;
             a <- gets accumulatedAnswer ;;
             resolve (ChatResponse
                        (or_else c (opt_or_else (ChatRequest.conversationId request) ""))
                        a))
      end
  end.

(** [eventSource.onerror] *)
Definition onerror : Eff StreamState unit :=
  h <- gets timeoutId ;;
  cleanup (Some h) ;;
  reject (Error "SSE connection error").

(** What the platform can deliver to a streaming attempt: a message, the
    connection's error event, or the expiry of the attempt's timer. *)
Inductive StreamInput : Type :=
| OnMessage (event : MessageData)
| OnError
| TimerFires.

(** The platform's part: a closed event source dispatches nothing more, and
    only an armed timer fires. *)
Definition deliver (rev : Revision) (request : ChatRequest.t)
    (onChunk : string -> unit) (i : StreamInput) : Eff StreamState unit :=
  fun st =>
    match i with
    | OnMessage event =>
        if closed st then ret tt st else onmessage request onChunk event st
    | OnError =>
        if closed st then ret tt st else onerror st
    | TimerFires =>
        if armed (timer st) then ontimeout rev (set_timer Fired st) else ret tt st
    end.

Fixpoint deliver_all (rev : Revision) (request : ChatRequest.t)
    (onChunk : string -> unit) (script : list StreamInput) : Eff StreamState unit :=
  match script with
  | [] => ret tt
  | i :: rest =>
      deliver rev request onChunk i ;; deliver_all rev request onChunk rest
  end.

(** The promise executor up to the point where the handlers are installed:
    the event source is created (the constructor is taken to succeed) and
    the timer armed; [h] is the handle [setTimeout] returns. *)
Definition open_stream (this : AgentClient) (url : string)
    (request : ChatRequest.t) (h : TimerHandle) : StreamState * list Effect :=
  (mkStreamState false (Armed (timeout this)) h "" "" Pending,
   [NewEventSource url (ChatRequest.message request)
      (opt_or_else (ChatRequest.conversationId request) "")
      (ChatRequest.history request);
    SetTimeout (timeout this) h]).

(** The attempt run against what the platform delivers, in order. *)
Definition sendMessageWithStreaming (rev : Revision) (this : AgentClient)
    (url : string) (request : ChatRequest.t) (_headers : list (string * string))
    (onChunk : string -> unit) (h : TimerHandle) (script : list StreamInput)
    : StreamState * list Effect :=
  let '(st0, t0) := open_stream this url request h in
  let '(st, t) := exec (deliver_all rev request onChunk script) st0 in
  (st, t0 ++ t).

(** ** sendMessageNonStreaming *)

(** Where the async function is suspended. *)
Inductive Await : Type :=
| AwaitFetch                    (* await fetch(url, ...) *)
| AwaitText (status : N)        (* await response.text().catch(...) *)
| AwaitJson                     (* await response.json() *)
| Finished.

Record FetchState : Type := mkFetchState {
  suspended : Await;
  abort_timer : Timer;
  abort_timeoutId : TimerHandle;
  aborted : bool;               (* controller.signal.aborted *)
  outcome : Promise JsValue     (* the promise the async function returns *)
}.

Definition set_suspended (a : Await) (st : FetchState) : FetchState :=
  mkFetchState a (abort_timer st) (abort_timeoutId st) (aborted st) (outcome st).

Definition set_abort_timer (t : Timer) (st : FetchState) : FetchState :=
  mkFetchState (suspended st) t (abort_timeoutId st) (aborted st) (outcome st).

Definition set_aborted (st : FetchState) : FetchState :=
  mkFetchState (suspended st) (abort_timer st) (abort_timeoutId st) true (outcome st).

(** The async function finishes: its promise takes the result. *)
Definition finish (p : Promise JsValue) (st : FetchState) : FetchState :=
  mkFetchState Finished (abort_timer st) (abort_timeoutId st) (aborted st) p.

(** [response.ok] *)
Definition ok (status : N) : bool := ((200 <=? status) && (status <=? 299))%N.

Definition clearTimeout_fetch : Eff FetchState unit :=
  h <- gets abort_timeoutId ;;
  emit (ClearTimeout h) ;;
  modify (fun st => set_abort_timer (cancel (abort_timer st)) st).

Definition throw (e : JsError) : Eff FetchState unit :=
  modify (finish (Rejected (ThrowError e))).

(** The catch clause of the function. *)
Definition catch_clause (error : Thrown) : Eff FetchState unit :=
  clearTimeout_fetch ;;
  match error with
  | ThrowError e =>
      if name e =? "AbortError" then throw (Error "Request timeout")
      else throw e
  | ThrowOther _ => throw (Error "Unknown error occurred")
  end.

(** The code that runs once [fetch] has resolved with a response. *)
Definition after_fetch (status : N) : Eff FetchState unit :=
  clearTimeout_fetch ;;
  if negb (ok status) then
    emit ResponseText ;; modify (set_suspended (AwaitText status))
  else
    emit ResponseJson ;; modify (set_suspended AwaitJson).

(** [throw new Error(`HTTP ${response.status}: ${errorText}`)], which the
    function's own catch clause receives. *)
Definition after_text (status : N) (errorText : string) : Eff FetchState unit :=
  catch_clause (ThrowError (Error ("HTTP " ++ decimal status ++ ": " ++ errorText))).

(** [return data] *)
Definition after_json (data : JsValue) : Eff FetchState unit :=
  modify (finish (Fulfilled data)).

(** What an aborted signal makes a pending fetch or body read reject with. *)
Definition AbortError : JsError :=
  {| name := "AbortError"; message := "The operation was aborted." |}.

Inductive HttpInput : Type :=
| FetchResolves (status : N)
| FetchRejects (reason : Thrown)
| TextResolves (text : string)
| TextRejects (reason : Thrown)
| JsonResolves (data : JsValue)
| JsonRejects (reason : Thrown)
| AbortTimerFires.

(** The timer callback [() => controller.abort()], followed by what the
    abort does to the call in flight: it rejects with [AbortError]. *)
Definition onabort : Eff FetchState unit :=
  emit Abort ;;
  modify set_aborted ;;
  a <- gets suspended ;;
  match a with
  | AwaitFetch | AwaitJson => catch_clause (ThrowError AbortError)
  | AwaitText status => after_text status "Unknown error"
  | Finished => ret tt
  end.

(** The platform's part: a settlement reaches the function only where it
    awaits it, and only an armed timer fires. *)
Definition deliver_http (i : HttpInput) : Eff FetchState unit :=
  fun st =>
    match i, suspended st with
    | FetchResolves status, AwaitFetch => after_fetch status st
    | FetchRejects reason, AwaitFetch => catch_clause reason st
    | TextResolves text, AwaitText status => after_text status text st
    | TextRejects _, AwaitText status => after_text status "Unknown error" st
    | JsonResolves data, AwaitJson => after_json data st
    | JsonRejects reason, AwaitJson => catch_clause reason st
    | AbortTimerFires, _ =>
        if armed (abort_timer st) then onabort (set_abort_timer Fired st)
        else ret tt st
    | _, _ => ret tt st
    end.

Fixpoint deliver_http_all (script : list HttpInput) : Eff FetchState unit :=
  match script with
  | [] => ret tt
  | i :: rest => deliver_http i ;; deliver_http_all rest
  end.

(** The function up to its first [await]: the timer is armed and the POST
    issued with the request as its body. *)
Definition start_fetch (this : AgentClient) (url : string)
    (request : ChatRequest.t) (headers : list (string * string))
    (h : TimerHandle) : FetchState * list Effect :=
  (mkFetchState AwaitFetch (Armed (timeout this)) h false Pending,
   [SetTimeout (timeout this) h; Fetch url headers request]).

Definition sendMessageNonStreaming (this : AgentClient) (url : string)
    (request : ChatRequest.t) (headers : list (string * string))
    (h : TimerHandle) (script : list HttpInput) : FetchState * list Effect :=
  let '(st0, t0) := start_fetch this url request headers h in
  let '(st, t) := exec (deliver_http_all script) st0 in
  (st, t0 ++ t).

(** ** sendMessage *)

(** What the platform does during one call of [sendMessage]: the handles its
    two [setTimeout] calls return, what reaches the streaming attempt and
    what reaches the POST. *)
Record Platform : Type := mkPlatform {
  stream_handle : TimerHandle;
  stream_inputs : list StreamInput;
  fetch_handle : TimerHandle;
  fetch_inputs : list HttpInput
}.

(** [`${this.baseUrl}${this.chatEndpoint}`] *)
Definition endpoint (this : AgentClient) : string :=
  (baseUrl this ++ chatEndpoint this)%string.

Definition content_type : list (string * string) :=
  [("Content-Type", "application/json")].

(** [sendMessage] of the first revision.  A callback that is supplied is a
    function, hence truthy.  The result is [Pending] as long as the platform
    has not delivered what settles the attempt under way. *)
Definition sendMessage (this : AgentClient) (request : ChatRequest.t)
    (onChunk : option (string -> unit)) (env : Platform)
    : Promise JsValue * list Effect :=
  let url := endpoint this in
  let headers := content_type in
  match onChunk with
  | Some f =>
      let '(st, t1) :=
        sendMessageWithStreaming Plain this url request headers f
          (stream_handle env) (stream_inputs env) in
      match promise st with
      | Fulfilled response => (Fulfilled response, t1)
      | Rejected error =>
          let '(fs, t2) :=
            sendMessageNonStreaming this url request headers
              (fetch_handle env) (fetch_inputs env) in
          (outcome fs,
           t1 ++ ConsoleWarn "Streaming failed, falling back to non-streaming:" error
              :: t2)
      | Pending => (Pending, t1)
      end
  | None =>
      let '(fs, t) :=
        sendMessageNonStreaming this url request headers
          (fetch_handle env) (fetch_inputs env) in
      (outcome fs, t)
  end.

(** *** The second revision: [sendMessage] inside a telemetry span *)

(** The own property [key] of a parsed object; of duplicate keys the last
    one counts. *)
Fixpoint own_property (key : string) (fields : list (string * JsValue))
    : option JsValue :=
  match fields with
  | [] => None
  | (k, v) :: rest =>
      match own_property key rest with
      | Some later => Some later
      | None => if k =? key then Some v else None
      end
  end.

(** Whether [response.answer.length] can be evaluated: [answer] read off
    anything but an object is [undefined] (off [null] the read itself
    throws), and reading [length] off [undefined] or [null] throws. *)
Definition answer_length_readable (response : JsValue) : bool :=
  match response with
  | JObj fields =>
      match own_property "answer" fields with
      | Some JNull | None => false
      | Some _ => true
      end
  | _ => false
  end.

(** What such a read throws; the text of the message is the engine's. *)
Definition TypeError : JsError :=
  {| name := "TypeError"; message := "Cannot read properties of undefined" |}.

Definition span_start : list Effect :=
  [Span "startActiveSpan chat.sendMessage";
   Span "setAttribute chat.conversationId";
   Span "setAttribute chat.messageLength";
   Span "setAttribute chat.historyLength";
   Span "setAttribute chat.streaming"].

(** [span.setStatus(OK); span.setAttribute('chat.responseLength', ...);
    return response;] and the [finally] clause. *)
Definition span_return : list Effect :=
  [Span "setStatus OK"; Span "setAttribute chat.responseLength"; Span "end"].

(** The outer [catch] clause and the [finally] clause. *)
Definition span_throw : list Effect :=
  [Span "setStatus ERROR"; Span "recordException"; Span "end"].

(** The non-streaming request of the second revision and what follows it,
    after the actions [before]. *)
Definition non_streaming_traced (this : AgentClient) (request : ChatRequest.t)
    (env : Platform) (before : list Effect) : Promise JsValue * list Effect :=
  let '(fs, t) :=
    sendMessageNonStreaming this (endpoint this) request content_type
      (fetch_handle env) (fetch_inputs env) in
  match outcome fs with
  | Fulfilled response =>
      if answer_length_readable response then
        (Fulfilled response, before ++ t ++ span_return)
      else
        (Rejected (ThrowError TypeError),
         before ++ t ++ Span "setStatus OK" :: span_throw)
  | Rejected error => (Rejected error, before ++ t ++ span_throw)
  | Pending => (Pending, before ++ t)
  end.

(** [sendMessage] of the second revision. *)
Definition sendMessage_traced (this : AgentClient) (request : ChatRequest.t)
    (onChunk : option (string -> unit)) (env : Platform)
    : Promise JsValue * list Effect :=
  let url := endpoint this in
  let headers := content_type in
  let warn := ConsoleWarn "Streaming failed, falling back to non-streaming:" in
  match onChunk with
  | Some f =>
      let '(st, t1) :=
        sendMessageWithStreaming Traced this url request headers f
          (stream_handle env) (stream_inputs env) in
      match promise st with
      | Fulfilled response =>
          if answer_length_readable response then
            (Fulfilled response, span_start ++ t1 ++ span_return)
          else
            non_streaming_traced this request env
              (span_start ++ t1 ++
               [Span "setStatus OK"; warn (ThrowError TypeError);
                Span "addEvent streaming_fallback"])
      | Rejected error =>
          non_streaming_traced this request env
            (span_start ++ t1 ++ [warn error; Span "addEvent streaming_fallback"])
      | Pending => (Pending, span_start ++ t1)
      end
  | None => non_streaming_traced this request env span_start
  end.

(** ** Time *)

(** The attempts above say what happens and in which order.  To say when,
    each input is given the time, in milliseconds since the attempt started,
    at which the platform delivers it.  The timer an attempt arms at its
    start with [ms] expires at time [ms], unless it was cleared before; an
    input that would arrive at that time or later finds the expiry already
    delivered. *)

Section Clock.

Variables S I : Type.
Variable step : I -> Eff S unit.
Variable timer_of : S -> Timer.
Variable expiry : I.
Variable has_settled : S -> bool.

(** The state of an attempt and the time at which its promise was settled,
    if it was. *)
Record Timed : Type := mkTimed { state_now : S; settled_at : option N }.

(** The input [i] is delivered at time [now]. *)
Definition at_time (now : N) (i : I) (x : Timed) : Timed :=
  let st := fst (exec (step i) (state_now x)) in
  mkTimed st
    match settled_at x with
    | Some t => Some t
    | None => if has_settled st then Some now else None
    end.

(** Time has come to [now]: a timer that is armed and due has expired. *)
Definition expire_by (now : N) (x : Timed) : Timed :=
  match timer_of (state_now x) with
  | Armed ms => if (ms <=? now)%N then at_time ms expiry x else x
  | _ => x
  end.

(** The arrivals are delivered in order; when nothing more arrives, a timer
    that is still armed expires. *)
Fixpoint timed_run (arrivals : list (N * I)) (x : Timed) : Timed :=
  match arrivals with
  | [] =>
      match timer_of (state_now x) with
      | Armed ms => at_time ms expiry x
      | _ => x
      end
  | (now, i) :: rest => timed_run rest (at_time now i (expire_by now x))
  end.

End Clock.

Arguments mkTimed {S} state_now settled_at.
Arguments state_now {S} t.
Arguments settled_at {S} t.

(** The streaming attempt against the clock. *)
Definition timed_stream (version : Revision) (this : AgentClient)
    (url : string) (request : ChatRequest.t) (onChunk : string -> unit)
    (h : TimerHandle) (arrivals : list (N * StreamInput)) : Timed StreamState :=
  timed_run StreamState StreamInput (deliver version request onChunk) timer
    TimerFires (fun st => settled (promise st)) arrivals
    (mkTimed (fst (open_stream this url request h)) None).

(** The POST against the clock. *)
Definition timed_post (this : AgentClient) (url : string)
    (request : ChatRequest.t) (headers : list (string * string))
    (h : TimerHandle) (arrivals : list (N * HttpInput)) : Timed FetchState :=
  timed_run FetchState HttpInput deliver_http abort_timer AbortTimerFires
    (fun st => settled (outcome st)) arrivals
    (mkTimed (fst (start_fetch this url request headers h)) None).

(** An attempt that has settled within [ms] of its start. *)
Definition within {S : Type} (ms : N) (x : Timed S) : Prop :=
  exists t, settled_at x = Some t /\ (t <= ms)%N.

(** *** Scenario A of the specification *)

Definition hi : ChatRequest.t := ChatRequest.mk None "hi" [].

Definition fragment (a : string) : SSEEvent.t :=
  SSEEvent.mk None (Some a) None None.

Definition scenario_A : list StreamInput :=
  [OnMessage (Json (fragment "He"));
   OnMessage (Json (fragment "llo"));
   OnMessage (Json (SSEEvent.mk (Some "c1") None None (Some true)))].

Definition local : AgentClient := mkAgentClient "" DEFAULT_CHAT_ENDPOINT DEFAULT_TIMEOUT.

Definition noop (_ : string) : unit := tt.

(** *** Scenario B: the connection fails at once, the POST answers *)

Definition scenario_B : Platform :=
  mkPlatform 1 [OnError] 2
    [FetchResolves 200; JsonResolves (ChatResponse "c2" "ok")].

(** ** Reading a run *)

(** The non-empty answer fragments of a sequence of events, in order. *)
Definition fragments (events : list SSEEvent.t) : list string :=
  flat_map (fun e =>
              match SSEEvent.answer e with
              | Some a => if truthy a then [a] else []
              | None => []
              end) events.

(** The non-empty conversation identifiers of a sequence of events. *)
Definition identifiers (events : list SSEEvent.t) : list string :=
  flat_map (fun e =>
              match SSEEvent.conversationId e with
              | Some c => if truthy c then [c] else []
              | None => []
              end) events.

(** The last of them, or [default] when there is none. *)
Definition latest (default : string) (events : list SSEEvent.t) : string :=
  match rev (identifiers events) with
  | c :: _ => c
  | [] => default
  end.

(** The last identifier seen, the request's own when none was seen, the
    empty string when the request has none either. *)
Definition final_identifier (request : ChatRequest.t) (events : list SSEEvent.t)
    : string :=
  latest (match ChatRequest.conversationId request with
          | Some c => c
          | None => ""
          end) events.

(** Ordered concatenation. *)
Definition concatenation (parts : list string) : string :=
  fold_right String.append "" parts.

(** An event that neither fails nor completes the stream. *)
Definition continues (e : SSEEvent.t) : bool :=
  negb (truthy_opt (SSEEvent.error e)) && negb (truthy_flag (SSEEvent.done e)).

(** An event that completes it. *)
Definition completes (e : SSEEvent.t) : bool :=
  negb (truthy_opt (SSEEvent.error e)) && truthy_flag (SSEEvent.done e).

Definition messages (events : list SSEEvent.t) : list StreamInput :=
  map (fun e => OnMessage (Json e)) events.

(** The arguments the fragment callback was called with, in order. *)
Definition chunks (t : list Effect) : list string :=
  flat_map (fun e => match e with OnChunk c => [c] | _ => [] end) t.

(** Calls of [resolve] and [reject]. *)
Definition settles (e : Effect) : bool :=
  match e with Resolve _ | Reject _ => true | _ => false end.

Definition opens_stream (e : Effect) : bool :=
  match e with NewEventSource _ _ _ _ => true | _ => false end.

Definition logs (e : Effect) : bool :=
  match e with ConsoleError _ | ConsoleWarn _ _ => true | _ => false end.

(** The two releases of [cleanup]. *)
Definition releases (h : TimerHandle) : list Effect :=
  [EventSourceClose; ClearTimeout h].

(** What [cleanup] does on an exit: on expiry the timer has fired, and the
    second revision then has no handle to clear. *)
Definition released (version : Revision) (t : Timer) (h : TimerHandle)
    : list Effect :=
  match version, t with
  | Traced, Fired => [EventSourceClose]
  | _, _ => releases h
  end.

(** Actions that neither release a resource nor settle the promise. *)
Definition quiet (e : Effect) : bool :=
  match e with
  | EventSourceClose | ClearTimeout _ | Resolve _ | Reject _ => false
  | _ => true
  end.

(** A streaming attempt that is still running: connection open, timer armed
    with the client's timeout, promise pending. *)
Definition running (this : AgentClient) (st : StreamState) : Prop :=
  closed st = false /\ timer st = Armed (timeout this) /\ promise st = Pending.

(** One that is over: connection closed, no timer armed, promise settled. *)
Definition over (st : StreamState) : Prop :=
  closed st = true /\ armed (timer st) = false /\ settled (promise st) = true.

(** A trace that ends with an exit: releases, then the settling call, and
    nothing of either kind before. *)
Definition exits (version : Revision) (fired : Timer) (h : TimerHandle)
    (t : list Effect) : Prop :=
  exists before last,
    t = before ++ released version fired h ++ [last] /\
    forallb quiet before = true /\ settles last = true.

(** What holds of the state and the trace of a streaming attempt whose
    timer handle is [h], at every moment. *)
Definition stream_invariant (version : Revision) (this : AgentClient)
    (h : TimerHandle) (st : StreamState) (t : list Effect) : Prop :=
  timeoutId st = h /\
  ((running this st /\ forallb quiet t = true) \/
   (over st /\ exits version (timer st) h t)).

(** A POST that has returned or thrown. *)
Definition finished (st : FetchState) : Prop :=
  suspended st = Finished /\ armed (abort_timer st) = false.

(** An attempt is under its timer when, as long as its promise is pending,
    the timer is armed with the client's timeout: expiry then ends the
    attempt. *)
Definition stream_bounded (this : AgentClient) (st : StreamState) : Prop :=
  promise st = Pending -> timer st = Armed (timeout this).

Definition fetch_bounded (this : AgentClient) (st : FetchState) : Prop :=
  outcome st = Pending -> abort_timer st = Armed (timeout this).

(** What holds of a POST at every moment: the timer is armed exactly while
    [fetch] is awaited. *)
Definition fetch_invariant (this : AgentClient) (h : TimerHandle)
    (st : FetchState) : Prop :=
  abort_timeoutId st = h /\
  match suspended st with
  | AwaitFetch => abort_timer st = Armed (timeout this) /\ outcome st = Pending
  | AwaitText _ | AwaitJson => abort_timer st = Cleared /\ outcome st = Pending
  | Finished => armed (abort_timer st) = false /\ settled (outcome st) = true
  end.

(** The actions of a POST once it is under way. *)
Definition http_action (e : Effect) : bool :=
  match e with
  | ClearTimeout _ | ResponseText | ResponseJson | Abort => true
  | _ => false
  end.

(** A trace without its console output. *)
Definition without_logs (t : list Effect) : list Effect :=
  filter (fun e => negb (logs e)) t.

(** The outcomes a streaming attempt can have: its promise is fulfilled
    with a [ChatResponse] only. *)
Definition stream_outcome (p : Promise JsValue) : Prop :=
  match p with
  | Fulfilled response => exists c a, response = ChatResponse c a
  | _ => True
  end.

(** What the second revision makes of an outcome of the first. *)
Definition through_span (p : Promise JsValue) : Promise JsValue :=
  match p with
  | Fulfilled response =>
      if answer_length_readable response then Fulfilled response
      else Rejected (ThrowError TypeError)
  | other => other
  end.

(** The calls of [sendMessage] that get as far as the POST: those without
    a callback, and those whose streaming attempt rejects. *)
Definition reaches_post (this : AgentClient) (request : ChatRequest.t)
    (onChunk : option (string -> unit)) (env : Platform) : Prop :=
  match onChunk with
  | None => True
  | Some f =>
      exists reason,
        promise (fst (sendMessageWithStreaming Plain this (endpoint this) request
                        content_type f (stream_handle env) (stream_inputs env)))
        = Rejected reason
  end.

(** A trace without the calls of [clearTimeout] and the calls on the span. *)
Definition essential (t : list Effect) : list Effect :=
  filter (fun e => match e with ClearTimeout _ | Span _ => false | _ => true end) t.

(** What holds of a streaming attempt against the clock: while it is
    running it has not settled, and once it is over it has settled within the
    client's timeout. *)
Definition on_time (this : AgentClient) (x : Timed StreamState) : Prop :=
  (running this (state_now x) /\ settled_at x = None) \/
  (over (state_now x) /\ within (timeout this) x).

(** ** Reading a run, continued *)

(** The actions of a streaming attempt once it is under way. *)
Definition stream_action (e : Effect) : bool :=
  match e with
  | OnChunk _ | ConsoleError _ | EventSourceClose | ClearTimeout _
  | Resolve _ | Reject _ => true
  | _ => false
  end.

(** The two ways of reaching the server. *)
Definition transport (e : Effect) : bool :=
  match e with
  | NewEventSource _ _ _ _ | Fetch _ _ _ => true
  | _ => false
  end.

(** [span.end()] *)
Definition span_end (e : Effect) : bool :=
  match e with Span call => call =? "end" | _ => false end.

(** The accumulated answer is what the callback has been given so far, and
    a response, once there is one, carries it. *)
Definition reported (st : StreamState) (t : list Effect) : Prop :=
  accumulatedAnswer st = concatenation (chunks t) /\
  match promise st with
  | Fulfilled response =>
      exists c, response = ChatResponse c (accumulatedAnswer st)
  | _ => True
  end.

(** A promise that is not rejected with something that is no [Error]. *)
Definition rejects_with_Error (p : Promise JsValue) : Prop :=
  match p with
  | Rejected (ThrowOther _) => False
  | _ => True
  end.

(** * telemetry.ts

    The two functions that read the connection string, and
    [initializeTelemetry] as the sequence of its calls into the OpenTelemetry
    packages and of its console output.  Strings are sequences of characters
    of which only [;] and [=] are told apart; what the packages do is not
    modelled beyond whether a call returns or throws. *)

Module Telemetry.

(** ** The two extraction functions *)

(** Both match the connection string against a regular expression of the
    form [/literal([^;]+)/] and return group 1 of the match, or [null]. *)

(** What is left of [s] after [literal], when [s] starts with it. *)
Fixpoint strip_prefix (literal s : string) : option string :=
  match literal, s with
  | EmptyString, _ => Some s
  | String a literal', String b s' =>
      if Ascii.eqb a b then strip_prefix literal' s' else None
  | String _ _, EmptyString => None
  end.

(** The longest prefix without a semicolon: what the greedy [[^;]+], with
    nothing after it in the pattern, consumes. *)
Fixpoint value_run (s : string) : string :=
  match s with
  | EmptyString => EmptyString
  | String c rest =>
      if Ascii.eqb c ";"%char then EmptyString else String c (value_run rest)
  end.

(** A match that starts at the first character of [s]: the literal, then at
    least one character other than a semicolon. *)
Definition match_here (literal s : string) : option string :=
  match strip_prefix literal s with
  | Some rest => if truthy (value_run rest) then Some (value_run rest) else None
  | None => None
  end.

(** [s.match(/literal([^;]+)/)], group 1: the matcher tries every start
    position from left to right and stops at the first match. *)
Fixpoint regex_group (literal s : string) : option string :=
  match match_here literal s with
  | Some v => Some v
  | None =>
      match s with
      | EmptyString => None
      | String _ rest => regex_group literal rest
      end
  end.

Definition extractIngestionEndpoint (connectionString : string) : option string :=
  regex_group "IngestionEndpoint=" connectionString.

Definition extractInstrumentationKey (connectionString : string) : option string :=
  regex_group "InstrumentationKey=" connectionString.

(** ** initializeTelemetry *)

(** The calls into the OpenTelemetry packages, in the order in which the
    function evaluates them. *)
Inductive SdkCall : Type :=
| NewOTLPTraceExporter (url instrumentationKey : string)
| ResourceFromAttributes
| NewBatchSpanProcessor
| NewWebTracerProvider
| ProviderRegister
| NewFetchInstrumentation
| RegisterInstrumentations.

Inductive Action : Type :=
| Warn (text : string)
| LogError (text : string) (detail : option Thrown)
| Log (text : string)
| Sdk (call : SdkCall).

(** The calls of the [try] block one after the other, up to the first one
    that throws; [throws] says which calls do, and what. *)
Fixpoint try_block (throws : SdkCall -> option Thrown) (calls : list SdkCall)
    : list Action * option Thrown :=
  match calls with
  | [] => ([], None)
  | call :: rest =>
      match throws call with
      | Some error => ([Sdk call], Some error)
      | None =>
          let '(t, thrown) := try_block throws rest in (Sdk call :: t, thrown)
      end
  end.

(** [connectionString] is the value of
    [import.meta.env.VITE_APPLICATIONINSIGHTS_CONNECTION_STRING]. *)
Definition initializeTelemetry (connectionString : option string)
    (throws : SdkCall -> option Thrown) : list Action :=
  match truthy_value connectionString with
  | None =>
      [Warn "Application Insights connection string not configured. Telemetry will not be collected."]
  | Some connectionString =>
      match truthy_value (extractIngestionEndpoint connectionString) with
      | None => [LogError "Failed to parse Application Insights connection string" None]
      | Some ingestionEndpoint =>
          let '(t, thrown) :=
            try_block throws
              [NewOTLPTraceExporter (ingestionEndpoint ++ "/v1/traces")
                 (opt_or_else (extractInstrumentationKey connectionString) "");
               ResourceFromAttributes;
               NewBatchSpanProcessor;
               NewWebTracerProvider;
               ProviderRegister;
               NewFetchInstrumentation;
               RegisterInstrumentations] in
          match thrown with
          | None =>
              t ++ [Log "OpenTelemetry initialized successfully with Azure Application Insights"]
          | Some error =>
              t ++ [LogError "Failed to initialize OpenTelemetry:" (Some error)]
          end
      end
  end.

(** ** Reading a connection string *)

(** A connection string is a list of [name=value] fields separated by
    semicolons. *)
Fixpoint connection_string (fields : list (string * string)) : string :=
  match fields with
  | [] => ""
  | [(k, v)] => k ++ "=" ++ v
  | (k, v) :: rest => k ++ "=" ++ v ++ ";" ++ connection_string rest
  end.

(** Text without a semicolon and without an equals sign. *)
Fixpoint plain (s : string) : bool :=
  match s with
  | EmptyString => true
  | String c rest => negb (Ascii.eqb c ";"%char) && negb (Ascii.eqb c "="%char) && plain rest
  end.

Definition well_formed (fields : list (string * string)) : bool :=
  forallb (fun '(k, v) => plain k && plain v) fields.

(** [k] ends with [key]. *)
Fixpoint ends_with (key k : string) : bool :=
  (key =? k) ||
  match k with
  | EmptyString => false
  | String _ rest => ends_with key rest
  end.

(** The value of the first field whose name ends with [key] and whose value
    is not empty. *)
Fixpoint field_value (key : string) (fields : list (string * string))
    : option string :=
  match fields with
  | [] => None
  | (k, v) :: rest =>
      if ends_with key k && truthy v then Some v else field_value key rest
  end.

Definition console (a : Action) : bool :=
  match a with Sdk _ => false | _ => true end.

(** No semicolon in [s]. *)
Definition unbroken (s : string) : Prop := value_run s = s.

(** [s] is empty or starts with a semicolon. *)
Definition at_break (s : string) : Prop := value_run s = "".

End Telemetry.

(** * components/ChatInput.tsx

    The handlers of the component as functions of the [message] and the
    [disabled] of the render they belong to.  [String.prototype.trim] is a
    parameter: nothing below depends on which characters it removes. *)

Module ChatInput.

(** What the handlers do besides setting the state. *)
Inductive Action : Type :=
| OnSend (message : string)     (* onSend(message.trim()) *)
| PreventDefault.               (* e.preventDefault() *)

Inductive Event : Type :=
| Change (value : string)                   (* onChange of the textarea *)
| KeyPress (key : string) (shiftKey : bool) (* onKeyPress of the textarea *)
| Click.                                    (* onClick of the button *)

Section Handlers.

(** [String.prototype.trim] *)
Variable trim : string -> string.

(** The prop [disabled] of the render the handler belongs to. *)
Variable disabled : bool.

(** Each handler takes the [message] of its render and returns the next
    [message] with what it did. *)
Definition handleSend (message : string) : string * list Action :=
  if truthy (trim message) && negb disabled then ("", [OnSend (trim message)])
  else (message, []).

Definition handleKeyPress (key : string) (shiftKey : bool) (message : string)
    : string * list Action :=
  if (key =? "Enter") && negb shiftKey then
    let '(message', actions) := handleSend message in
    (message', PreventDefault :: actions)
  else (message, []).

(** The events are delivered whether or not the controls are disabled:
    the handlers have their own guard. *)
Definition deliver (e : Event) (message : string) : string * list Action :=
  match e with
  | Change value => (value, [])
  | KeyPress key shiftKey => handleKeyPress key shiftKey message
  | Click => handleSend message
  end.

(** [disabled] of the button. *)
Definition button_disabled (message : string) : bool :=
  negb (truthy (trim message)) || disabled.

End Handlers.

(** A sequence of events, each with the [disabled] the parent has passed
    by then. *)
Fixpoint run (trim : string -> string) (script : list (bool * Event))
    (message : string) : string * list Action :=
  match script with
  | [] => (message, [])
  | (disabled, e) :: rest =>
      let '(message1, t1) := deliver trim disabled e message in
      let '(message2, t2) := run trim rest message1 in
      (message2, t1 ++ t2)
  end.

(** The arguments of [onSend], in order. *)
Definition sent (t : list Action) : list string :=
  flat_map (fun a => match a with OnSend m => [m] | PreventDefault => [] end) t.

Definition changes (script : list (bool * Event)) : nat :=
  length (filter (fun '(_, e) => match e with Change _ => true | _ => false end)
            script).

End ChatInput.

(** [String.prototype.trim] on ASCII text, to run examples with. *)
Definition whitespace (c : ascii) : bool :=
  let n := nat_of_ascii c in Nat.eqb n 32 || (Nat.leb 9 n && Nat.leb n 13).

Fixpoint trim_start (s : string) : string :=
  match s with
  | EmptyString => EmptyString
  | String c rest => if whitespace c then trim_start rest else s
  end.

Fixpoint trim_end (s : string) : string :=
  match s with
  | EmptyString => EmptyString
  | String c rest =>
      match trim_end rest with
      | EmptyString => if whitespace c then EmptyString else String c EmptyString
      | kept => String c kept
      end
  end.

Definition trim_ascii (s : string) : string := trim_end (trim_start s).

(** * components/Chat.tsx

    The component as a state machine over its state cells.  A handler runs
    against the state of the latest render; its state updates are applied in
    the order in which it makes them; the continuation of an awaited call
    runs when the call settles.  Responses are taken to have the declared
    type [ChatResponse].  The effects that save and load the conversation and
    scroll the view are not part of the model. *)

Module ConversationState.
Record t : Type := mk { conversationId : option string; messages : list Message.t }.
End ConversationState.

Module Chat.

(** The state cells of the component, the [message] of the [ChatInput] it
    renders, and the calls of [agentClient.sendMessage] that are awaited,
    oldest first, each with its request. *)
Record State : Type := mkState {
  conversation : ConversationState.t;
  isTyping : bool;
  error : option string;          (* string | null *)
  streamingMessage : string;
  box : string;
  calls : list ChatRequest.t
}.

Inductive Action : Type :=
| SendMessage (request : ChatRequest.t)   (* agentClient.sendMessage(request, callback) *)
| ConsoleError (reason : Thrown)          (* console.error('Error sending message:', error) *)
| Confirm                                 (* window.confirm(...) *)
| RemoveItem                              (* localStorage.removeItem(STORAGE_KEY) *)
| InputPreventDefault.

(** [({ role, content }) => ({ role, content })] *)
Definition strip (m : Message.t) : Message.t :=
  Message.mk (Message.role m) (Message.content m) None.

Definition append (m : Message.t) (c : ConversationState.t) : ConversationState.t :=
  ConversationState.mk (ConversationState.conversationId c)
    (ConversationState.messages c ++ [m]).

(** [handleSendMessage] up to its [await].  [closure] is the [conversation]
    of the render the handler belongs to: the request is built from it, while
    the state is changed by updater functions, which see the latest state.
    [now] is what [new Date()] gives. *)
Definition handleSendMessage (closure : ConversationState.t)
    (messageText : string) (now : Z) (st : State) : State * list Action :=
  let request :=
    ChatRequest.mk (ConversationState.conversationId closure) messageText
      (map strip (ConversationState.messages closure)) in
  (mkState (append (Message.mk user messageText (Some now)) (conversation st))
     true None "" (box st) (calls st ++ [request]),
   [SendMessage request]).

(** The callback passed to [sendMessage]. *)
Definition onChunk (chunk : string) (st : State) : State :=
  mkState (conversation st) (isTyping st) (error st)
    (streamingMessage st ++ chunk) (box st) (calls st).

(** After the [await], with a response of the declared type
    [ChatResponse]: the rest of the [try] block and the [finally] clause. *)
Definition resolved (conversationId answer : string) (now : Z) (st : State)
    : State :=
  mkState
    (ConversationState.mk (Some conversationId)
       (ConversationState.messages (conversation st) ++
        [Message.mk assistant answer (Some now)]))
    false (error st) "" (box st) (calls st).

(** The [catch] clause and the [finally] clause. *)
Definition rejected (reason : Thrown) (st : State) : State * list Action :=
  (mkState (conversation st) false
     (Some match reason with
           | ThrowError e => message e
           | ThrowOther _ => "Failed to send message. Please try again."
           end)
     (streamingMessage st) (box st) (calls st),
   [ConsoleError reason]).

Definition handleClearChat (confirmed : bool) (st : State) : State * list Action :=
  if confirmed then
    (mkState (ConversationState.mk None []) (isTyping st) (error st)
       (streamingMessage st) (box st) (calls st),
     [Confirm; RemoveItem])
  else (st, [Confirm]).

(** [[...conversation.messages].reverse().find((msg) => msg.role === 'user')] *)
Definition lastUserMessage (c : ConversationState.t) : option Message.t :=
  find (fun msg => match Message.role msg with user => true | assistant => false end)
    (rev (ConversationState.messages c)).

Definition handleRetry (now : Z) (st : State) : State * list Action :=
  let cleared :=
    mkState (conversation st) (isTyping st) None (streamingMessage st) (box st)
      (calls st) in
  match lastUserMessage (conversation st) with
  | Some msg =>
      handleSendMessage (conversation st) (Message.content msg) now
        (mkState
           (ConversationState.mk
              (ConversationState.conversationId (conversation st))
              (removelast (ConversationState.messages (conversation st))))
           (isTyping cleared) (error cleared) (streamingMessage cleared)
           (box cleared) (calls cleared))
  | None => (cleared, [])
  end.

(** What can happen to the component: an event in its [ChatInput], a click
    on one of its two buttons, and, for the awaited call at a position of
    [calls], a fragment or the result. *)
Inductive Event : Type :=
| Input (e : ChatInput.Event) (now : Z)
| ClickClear (confirmed : bool)
| ClickRetry (now : Z)
| Chunk (call : nat) (chunk : string)
| Resolves (call : nat) (conversationId answer : string) (now : Z)
| Rejects (call : nat) (reason : Thrown).

Fixpoint remove_nth {A} (n : nat) (l : list A) : list A :=
  match n, l with
  | _, [] => []
  | O, _ :: rest => rest
  | S n', x :: rest => x :: remove_nth n' rest
  end.

Definition settle_call (n : nat) (st : State) : State :=
  mkState (conversation st) (isTyping st) (error st) (streamingMessage st)
    (box st) (remove_nth n (calls st)).

Definition set_box (value : string) (st : State) : State :=
  mkState (conversation st) (isTyping st) (error st) (streamingMessage st)
    value (calls st).

(** What [ChatInput] did, seen from the component: [onSend] is
    [handleSendMessage]. *)
Fixpoint input_actions (closure : ConversationState.t) (now : Z)
    (actions : list ChatInput.Action) (st : State) : State * list Action :=
  match actions with
  | [] => (st, [])
  | ChatInput.OnSend text :: rest =>
      let '(st1, t1) := handleSendMessage closure text now st in
      let '(st2, t2) := input_actions closure now rest st1 in
      (st2, t1 ++ t2)
  | ChatInput.PreventDefault :: rest =>
      let '(st2, t2) := input_actions closure now rest st in
      (st2, InputPreventDefault :: t2)
  end.

Section Component.

Variable trim : string -> string.

(** One event.  The two buttons exist only where the component renders
    them: [Clear Chat] with a conversation that has messages, [Try Again]
    with an [error] that is truthy; [ChatInput] is passed [isTyping] as its
    [disabled]; a fragment or a result belongs to a call that is awaited. *)
Definition step (e : Event) (st : State) : State * list Action :=
  match e with
  | Input e' now =>
      let '(box', actions) := ChatInput.deliver trim (isTyping st) e' (box st) in
      input_actions (conversation st) now actions (set_box box' st)
  | ClickClear confirmed =>
      match ConversationState.messages (conversation st) with
      | [] => (st, [])
      | _ :: _ => handleClearChat confirmed st
      end
  | ClickRetry now =>
      if truthy_opt (error st) then handleRetry now st else (st, [])
  | Chunk n chunk =>
      match nth_error (calls st) n with
      | Some _ => (onChunk chunk st, [])
      | None => (st, [])
      end
  | Resolves n conversationId answer now =>
      match nth_error (calls st) n with
      | Some _ => (settle_call n (resolved conversationId answer now st), [])
      | None => (st, [])
      end
  | Rejects n reason =>
      match nth_error (calls st) n with
      | Some _ =>
          let '(st', t) := rejected reason st in (settle_call n st', t)
      | None => (st, [])
      end
  end.

Fixpoint run (events : list Event) (st : State) : State * list Action :=
  match events with
  | [] => (st, [])
  | e :: rest =>
      let '(st1, t1) := step e st in
      let '(st2, t2) := run rest st1 in
      (st2, t1 ++ t2)
  end.

End Component.

(** The component after its mount, with the conversation read from the
    storage, or the empty one. *)
Definition mounted (loaded : ConversationState.t) : State :=
  mkState loaded false None "" "" [].

(** The requests, in order. *)
Definition requests (t : list Action) : list ChatRequest.t :=
  flat_map (fun a => match a with SendMessage r => [r] | _ => [] end) t.

(** The last message, if any, is the user's and has this text. *)
Definition ends_with_question (text : string) (c : ConversationState.t) : Prop :=
  match rev (ConversationState.messages c) with
  | [] => True
  | m :: _ => Message.role m = user /\ Message.content m = text
  end.

(** What holds of the component at every moment: it awaits at most one
    call, and exactly while [isTyping]; while it does, no error is held and
    the conversation is empty or ends with the message of the call; while an
    error is shown, the conversation is empty or ends with a message of the
    user. *)
Definition invariant (st : State) : Prop :=
  match calls st with
  | [] =>
      isTyping st = false /\
      (error st <> None -> exists text, ends_with_question text (conversation st))
  | [request] =>
      isTyping st = true /\ error st = None /\
      ends_with_question (ChatRequest.message request) (conversation st)
  | _ :: _ :: _ => False
  end.

(** A response as its declared type, when it has it. *)
Definition as_ChatResponse (v : JsValue) : option (string * string) :=
  match v with
  | JObj fields =>
      match own_property "conversationId" fields, own_property "answer" fields with
      | Some (JStr c), Some (JStr a) => Some (c, a)
      | _, _ => None
      end
  | _ => None
  end.

(** What one call of [sendMessage] brings to the component: the fragments
    its callback is called with, in order, then its result, when it has
    settled with a value of the declared type or with a rejection. *)
Definition call_events (outcome : Promise JsValue * list Effect) (now : Z)
    : list Event :=
  map (Chunk 0) (chunks (snd outcome)) ++
  match fst outcome with
  | Fulfilled response =>
      match as_ChatResponse response with
      | Some (c, a) => [Resolves 0 c a now]
      | None => []
      end
  | Rejected reason => [Rejects 0 reason]
  | Pending => []
  end.

End Chat.

(** * Properties *)

(** ** Strings *)

Lemma append_empty_r (s : string) : (s ++ "")%string = s.
Proof. induction s as [|c s IH]; simpl; [reflexivity | now rewrite IH]. Qed.

Lemma append_assoc_string (a b c : string) :
  ((a ++ b) ++ c)%string = (a ++ (b ++ c))%string.
Proof. induction a as [|x a IH]; simpl; [reflexivity | now rewrite IH]. Qed.

Lemma concatenation_app (l1 l2 : list string) :
  concatenation (l1 ++ l2) = (concatenation l1 ++ concatenation l2)%string.
Proof.
  induction l1 as [|x l1 IH]; simpl; [reflexivity|].
  now rewrite IH, append_assoc_string.
Qed.

Lemma truthy_false (s : string) : truthy s = false -> s = "".
Proof.
  unfold truthy. intros H. apply negb_false_iff in H. now apply String.eqb_eq.
Qed.

(** [o || ''] is the string itself, or the empty string for [undefined]. *)
Lemma opt_or_else_empty (o : option string) :
  opt_or_else o "" = match o with Some c => c | None => "" end.
Proof.
  destruct o as [c|]; [|reflexivity]. unfold opt_or_else, or_else.
  destruct (truthy c) eqn:E; [reflexivity|]. symmetry. now apply truthy_false.
Qed.

Lemma truthy_value_none (o : option string) :
  truthy_opt o = false -> truthy_value o = None.
Proof. destruct o as [s|]; simpl; [|reflexivity]. now intros ->. Qed.

Lemma fragments_app (l1 l2 : list SSEEvent.t) :
  fragments (l1 ++ l2) = fragments l1 ++ fragments l2.
Proof. apply flat_map_app. Qed.

Lemma identifiers_app (l1 l2 : list SSEEvent.t) :
  identifiers (l1 ++ l2) = identifiers l1 ++ identifiers l2.
Proof. apply flat_map_app. Qed.

Lemma chunks_app (t1 t2 : list Effect) : chunks (t1 ++ t2) = chunks t1 ++ chunks t2.
Proof. apply flat_map_app. Qed.

Lemma chunks_OnChunk (l : list string) : chunks (map OnChunk l) = l.
Proof. induction l as [|x l IH]; simpl; [reflexivity | now rewrite IH]. Qed.

(** Seeing [l1] and then [l2] is seeing [l1 ++ l2]. *)
Lemma latest_app (d : string) (l1 l2 : list SSEEvent.t) :
  latest (latest d l1) l2 = latest d (l1 ++ l2).
Proof.
  unfold latest. rewrite identifiers_app, rev_app_distr.
  destruct (rev (identifiers l2)) as [|c l]; reflexivity.
Qed.

Lemma identifiers_truthy (events : list SSEEvent.t) (c : string) :
  In c (identifiers events) -> truthy c = true.
Proof.
  unfold identifiers. rewrite in_flat_map. intros (e & _ & H).
  destruct (SSEEvent.conversationId e) as [c'|]; [|contradiction].
  destruct (truthy c') eqn:E; simpl in H; [|contradiction].
  destruct H as [<- | []]. exact E.
Qed.

(** [conversationId || request.conversationId || ''] at the end of a run
    that started with the empty identifier. *)
Lemma or_else_latest (request : ChatRequest.t) (events : list SSEEvent.t) :
  or_else (latest "" events) (opt_or_else (ChatRequest.conversationId request) "")
  = final_identifier request events.
Proof.
  unfold final_identifier, latest.
  destruct (rev (identifiers events)) as [|c l] eqn:E.
  - unfold or_else. simpl. apply opt_or_else_empty.
  - unfold or_else. rewrite (identifiers_truthy events c); [reflexivity|].
    apply in_rev. rewrite E. now left.
Qed.

(** ** The effect monad *)

Lemma exec_bind {S A B} (m : Eff S A) (k : A -> Eff S B) (st : S) :
  exec (bind m k) st =
  (let '(a, st1, t1) := m st in
   let '(st2, t2) := exec (k a) st1 in (st2, t1 ++ t2)).
Proof.
  unfold exec, bind. destruct (m st) as [[a st1] t1].
  destruct (k a st1) as [[b st2] t2]. reflexivity.
Qed.

Lemma exec_seq {S} (m k : Eff S unit) (st : S) :
  exec (m ;; k) st =
  (let '(st1, t1) := exec m st in
   let '(st2, t2) := exec k st1 in (st2, t1 ++ t2)).
Proof.
  rewrite exec_bind. unfold exec. destruct (m st) as [[a st1] t1].
  destruct (k st1) as [[b st2] t2]. reflexivity.
Qed.

(** ** Runs of the streaming attempt *)

Section Streaming.

Variable version : Revision.
Variable this : AgentClient.
Variable request : ChatRequest.t.
Variable onChunk : string -> unit.

Let step := deliver version request onChunk.
Let run := deliver_all version request onChunk.

Lemma run_nil st : exec (run []) st = (st, []).
Proof. reflexivity. Qed.

Lemma run_cons i script st :
  exec (run (i :: script)) st =
  (let '(st1, t1) := exec (step i) st in
   let '(st2, t2) := exec (run script) st1 in (st2, t1 ++ t2)).
Proof. apply exec_seq. Qed.

Lemma run_app s1 s2 st :
  exec (run (s1 ++ s2)) st =
  (let '(st1, t1) := exec (run s1) st in
   let '(st2, t2) := exec (run s2) st1 in (st2, t1 ++ t2)).
Proof.
  revert st. induction s1 as [|i s1 IH]; intros st.
  - simpl app. rewrite run_nil. destruct (exec (run s2) st). reflexivity.
  - simpl app. rewrite !run_cons. destruct (exec (step i) st) as [st1 t1].
    rewrite IH. destruct (exec (run s1) st1) as [st2 t2].
    destruct (exec (run s2) st2) as [st3 t3]. now rewrite app_assoc.
Qed.

(** Once the attempt is over nothing reaches it any more. *)
Lemma step_over i st : over st -> exec (step i) st = (st, []).
Proof.
  intros (Hc & Ht & _). unfold step, deliver, exec.
  destruct i; rewrite ?Hc, ?Ht; reflexivity.
Qed.

Lemma run_over script st : over st -> exec (run script) st = (st, []).
Proof.
  intros H. induction script as [|i script IH].
  - reflexivity.
  - rewrite run_cons, (step_over i st H), IH. reflexivity.
Qed.

(** A message that neither fails nor completes the stream: its fragment is
    appended and reported, its identifier recorded, nothing else changes. *)
Lemma step_continues e st :
  closed st = false -> continues e = true ->
  exec (step (OnMessage (Json e))) st =
  (mkStreamState false (timer st) (timeoutId st)
     (accumulatedAnswer st ++ concatenation (fragments [e]))
     (latest (conversationId st) [e]) (promise st),
   map OnChunk (fragments [e])).
Proof.
  intros Hc He. destruct st as [cl tm h acc cid p]. simpl in Hc. subst cl.
  destruct e as [c a err d]. unfold continues in He. simpl in He.
  apply andb_true_iff in He. destruct He as [He Hd].
  apply negb_true_iff in He, Hd.
  apply truthy_value_none in He.
  unfold step, deliver, exec, onmessage, latest, identifiers, fragments.
  simpl. rewrite He.
  destruct c as [c|], a as [a|]; simpl;
    try destruct (truthy c) eqn:Ec; try destruct (truthy a) eqn:Ea;
    simpl; rewrite ?Hd; simpl; rewrite ?append_empty_r; reflexivity.
Qed.

(** A message that completes the stream: after its own fragment and
    identifier are taken in, the connection and the timer are released and
    the promise is resolved. *)
Lemma step_completes e st :
  closed st = false -> completes e = true ->
  let answer := (accumulatedAnswer st ++ concatenation (fragments [e]))%string in
  let response :=
    ChatResponse
      (or_else (latest (conversationId st) [e])
         (opt_or_else (ChatRequest.conversationId request) ""))
      answer in
  exec (step (OnMessage (Json e))) st =
  (settle (Fulfilled response)
     (mkStreamState true (cancel (timer st)) (timeoutId st) answer
        (latest (conversationId st) [e]) (promise st)),
   map OnChunk (fragments [e]) ++ releases (timeoutId st) ++ [Resolve response]).
Proof.
  intros Hc He. destruct st as [cl tm h acc cid p]. simpl in Hc. subst cl.
  destruct e as [c a err d]. unfold completes in He. simpl in He.
  apply andb_true_iff in He. destruct He as [He Hd].
  apply negb_true_iff in He.
  apply truthy_value_none in He.
  unfold step, deliver, exec, onmessage, latest, identifiers, fragments.
  simpl. rewrite He.
  destruct c as [c|], a as [a|]; simpl;
    try destruct (truthy c) eqn:Ec; try destruct (truthy a) eqn:Ea;
    simpl; rewrite ?Hd; simpl; rewrite ?append_empty_r; reflexivity.
Qed.

(** A message with a truthy [error]: release, then reject with its text. *)
Lemma step_fails e text st :
  closed st = false -> SSEEvent.error e = Some text -> truthy text = true ->
  exec (step (OnMessage (Json e))) st =
  (settle (Rejected (ThrowError (Error text)))
     (mkStreamState true (cancel (timer st)) (timeoutId st)
        (accumulatedAnswer st) (conversationId st) (promise st)),
   releases (timeoutId st) ++ [Reject (Error text)]).
Proof.
  intros Hc He Ht. destruct st as [cl tm h acc cid p]. simpl in Hc. subst cl.
  destruct e as [c a err d]. simpl in He. subst err.
  unfold step, deliver, exec, onmessage. simpl.
  rewrite Ht. reflexivity.
Qed.

(** A message that does not parse, or parses to null, is logged and
    otherwise ignored. *)
Lemma step_unparsed event st :
  event = Unparseable \/ event = JsonNull ->
  exec (step (OnMessage event)) st =
  (st, if closed st then [] else [ConsoleError "Error parsing SSE data:"]).
Proof.
  intros [-> | ->]; unfold step, deliver, exec; destruct (closed st);
    reflexivity.
Qed.

(** The connection's error event. *)
Lemma step_onerror st :
  closed st = false ->
  exec (step OnError) st =
  (settle (Rejected (ThrowError (Error "SSE connection error")))
     (mkStreamState true (cancel (timer st)) (timeoutId st)
        (accumulatedAnswer st) (conversationId st) (promise st)),
   releases (timeoutId st) ++ [Reject (Error "SSE connection error")]).
Proof.
  intros Hc. destruct st as [cl tm h acc cid p]. simpl in Hc. subst cl.
  reflexivity.
Qed.

(** The timer expires. *)
Lemma step_timeout st :
  armed (timer st) = true ->
  exec (step TimerFires) st =
  (settle (Rejected (ThrowError (Error "Request timeout")))
     (mkStreamState true Fired (timeoutId st)
        (accumulatedAnswer st) (conversationId st) (promise st)),
   EventSourceClose ::
   match timer_cleanup_arg version (timeoutId st) with
   | Some h => [ClearTimeout h]
   | None => []
   end ++ [Reject (Error "Request timeout")]).
Proof.
  intros Ha. destruct st as [cl tm h acc cid p]. simpl in Ha.
  unfold step, deliver, exec, ontimeout. simpl. rewrite Ha.
  destruct version; reflexivity.
Qed.

(** Messages that neither fail nor complete, one after the other. *)
Lemma run_continues events st :
  closed st = false -> forallb continues events = true ->
  exec (run (messages events)) st =
  (mkStreamState false (timer st) (timeoutId st)
     (accumulatedAnswer st ++ concatenation (fragments events))
     (latest (conversationId st) events) (promise st),
   map OnChunk (fragments events)).
Proof.
  revert st. induction events as [|e events IH]; intros st Hc Hall.
  - destruct st as [cl tm h acc cid p]. simpl in Hc. subst cl.
    unfold messages, latest. simpl. rewrite append_empty_r. reflexivity.
  - simpl in Hall. apply andb_true_iff in Hall. destruct Hall as [He Hall].
    change (messages (e :: events)) with (OnMessage (Json e) :: messages events).
    rewrite run_cons, (step_continues e st Hc He), IH by (reflexivity || assumption).
    cbn [closed timer timeoutId accumulatedAnswer conversationId promise].
    change (e :: events) with ([e] ++ events).
    rewrite fragments_app, concatenation_app, append_assoc_string, latest_app,
      map_app.
    reflexivity.
Qed.

Lemma messages_app l1 l2 : messages (l1 ++ l2) = messages l1 ++ messages l2.
Proof. apply map_app. Qed.

(** The state and the trace of an attempt that receives any number of
    messages that neither fail nor complete and then a completing one;
    whatever the platform has after that never arrives. *)
Lemma stream_completes url headers h pre d post :
  forallb continues pre = true -> completes d = true ->
  let answer := concatenation (fragments (pre ++ [d])) in
  let response := ChatResponse (final_identifier request (pre ++ [d])) answer in
  sendMessageWithStreaming version this url request headers onChunk h
    (messages (pre ++ [d]) ++ post) =
  (mkStreamState true Cleared h answer (latest "" (pre ++ [d])) (Fulfilled response),
   snd (open_stream this url request h) ++
   map OnChunk (fragments (pre ++ [d])) ++ releases h ++ [Resolve response]).
Proof.
  intros Hpre Hd answer response. unfold sendMessageWithStreaming, open_stream.
  fold run. rewrite messages_app, !run_app.
  rewrite (run_continues pre) by (reflexivity || assumption).
  cbn [closed timer timeoutId accumulatedAnswer conversationId promise].
  change (messages [d]) with [OnMessage (Json d)].
  rewrite run_cons, step_completes by (reflexivity || assumption).
  cbn [closed timer timeoutId accumulatedAnswer conversationId promise settle cancel].
  rewrite run_nil, run_over by (repeat split).
  rewrite latest_app, append_assoc_string, <- concatenation_app, <- fragments_app.
  rewrite or_else_latest. cbn [snd String.append].
  subst response answer.
  rewrite !app_nil_r, !fragments_app, map_app, <- !app_assoc. reflexivity.
Qed.

(** Every message either carries a non-empty error, or completes the
    stream, or does neither. *)
Lemma classify (e : SSEEvent.t) :
  (exists text, SSEEvent.error e = Some text /\ truthy text = true) \/
  completes e = true \/ continues e = true.
Proof.
  unfold completes, continues. destruct (SSEEvent.error e) as [text|]; simpl.
  - destruct (truthy text) eqn:E; [left; now exists text|]. simpl.
    destruct (truthy_flag (SSEEvent.done e)); auto.
  - destruct (truthy_flag (SSEEvent.done e)); auto.
Qed.

Lemma quiet_chunks (l : list string) : forallb quiet (map OnChunk l) = true.
Proof. induction l; simpl; auto. Qed.

(** What one delivery does to a running attempt: either it keeps running,
    having released and settled nothing, or the step ends with the releases
    followed by the one call that settles the promise, and the attempt is
    over. *)
Lemma step_running i st :
  running this st ->
  forall st' t, exec (step i) st = (st', t) ->
  timeoutId st' = timeoutId st /\
  ((running this st' /\ forallb quiet t = true) \/
   (over st' /\ exits version (timer st') (timeoutId st) t)).
Proof.
  unfold exits. intros (Hc & Ht & Hp) st' t E.
  destruct i as [[| |e]| |].
  - rewrite (step_unparsed Unparseable) in E by auto. rewrite Hc in E.
    injection E as <- <-. split; [reflexivity|]. left. now repeat split.
  - rewrite (step_unparsed JsonNull) in E by auto. rewrite Hc in E.
    injection E as <- <-. split; [reflexivity|]. left. now repeat split.
  - destruct (classify e) as [(text & He & Htext) | [He | He]].
    + rewrite (step_fails e text st Hc He Htext) in E.
      unfold settle in E. cbn [promise] in E. rewrite Hp, Ht in E.
      injection E as <- <-. split; [reflexivity|]. right. split; [now repeat split|].
      exists [], (Reject (Error text)). destruct version; now repeat split.
    + rewrite (step_completes e st Hc He) in E.
      unfold settle in E. cbn [promise] in E. rewrite Hp, Ht in E.
      injection E as <- <-. split; [reflexivity|]. right. split; [now repeat split|].
      eexists (map OnChunk (fragments [e])), _. split.
      * destruct version; reflexivity.
      * split; [apply quiet_chunks | reflexivity].
    + rewrite (step_continues e st Hc He) in E.
      injection E as <- <-. split; [reflexivity|]. left.
      split; [now repeat split | apply quiet_chunks].
  - rewrite (step_onerror st Hc) in E.
    unfold settle in E. cbn [promise] in E. rewrite Hp, Ht in E.
    injection E as <- <-. split; [reflexivity|]. right. split; [now repeat split|].
    exists [], (Reject (Error "SSE connection error")).
    destruct version; now repeat split.
  - rewrite step_timeout in E by now rewrite Ht.
    unfold settle in E. cbn [promise] in E. rewrite Hp in E.
    injection E as <- <-. split; [reflexivity|]. right. split; [now repeat split|].
    exists [], (Reject (Error "Request timeout")).
    destruct version; now repeat split.
Qed.

Lemma exits_after version' fired h quietly t :
  forallb quiet quietly = true -> exits version' fired h t ->
  exits version' fired h (quietly ++ t).
Proof.
  intros Hq (before & last & -> & Hb & Hl). exists (quietly ++ before), last.
  rewrite forallb_app, Hq, Hb, <- app_assoc. auto.
Qed.

(** The invariant holds along every run that starts in a running state. *)
Lemma run_invariant script st :
  running this st ->
  forall st' t, exec (run script) st = (st', t) ->
  stream_invariant version this (timeoutId st) st' t.
Proof.
  revert st. induction script as [|i script IH]; intros st Hrun st' t E.
  - rewrite run_nil in E. injection E as <- <-. split; [reflexivity|]. now left.
  - rewrite run_cons in E. destruct (exec (step i) st) as [st1 t1] eqn:E1.
    destruct (exec (run script) st1) as [st2 t2] eqn:E2. injection E as <- <-.
    destruct (step_running i st Hrun st1 t1 E1) as [Hh [[Hr Hq] | [Ho Hx]]].
    + destruct (IH st1 Hr st2 t2 E2) as [Hh2 [[Hr2 Hq2] | [Ho2 Hx2]]].
      * split; [congruence|]. left. split; [assumption|].
        now rewrite forallb_app, Hq, Hq2.
      * split; [congruence|]. right. split; [assumption|].
        rewrite <- Hh. now apply exits_after.
    + rewrite (run_over script st1 Ho) in E2. injection E2 as <- <-.
      rewrite app_nil_r. split; [assumption|]. right. now split.
Qed.

Lemma open_stream_running url h :
  running this (fst (open_stream this url request h)).
Proof. now repeat split. Qed.

(** It holds of every streaming attempt. *)
Lemma stream_invariant_holds url headers h script :
  forall st t,
  sendMessageWithStreaming version this url request headers onChunk h script
    = (st, t) ->
  stream_invariant version this h st t.
Proof.
  intros st t. unfold sendMessageWithStreaming.
  destruct (open_stream this url request h) as [st0 t0] eqn:E0.
  fold run. destruct (exec (run script) st0) as [st1 t1] eqn:E1.
  intros E. injection E as <- <-.
  assert (Hrun : running this st0).
  { pose proof (open_stream_running url h) as H. now rewrite E0 in H. }
  assert (Hh : timeoutId st0 = h).
  { unfold open_stream in E0. injection E0 as <- _. reflexivity. }
  assert (Hq : forallb quiet t0 = true).
  { unfold open_stream in E0. injection E0 as _ <-. reflexivity. }
  destruct (run_invariant script st0 Hrun st1 t1 E1) as [Hh1 [[Hr Hq1] | [Ho Hx]]].
  - split; [congruence|]. left. split; [assumption|].
    now rewrite forallb_app, Hq, Hq1.
  - split; [congruence|]. right. split; [assumption|].
    rewrite <- Hh. now apply exits_after.
Qed.

End Streaming.

(** An attempt on [s1 ++ s2] is the attempt on [s1] continued with [s2]. *)
Lemma stream_app version this url request headers onChunk h s1 s2 :
  sendMessageWithStreaming version this url request headers onChunk h (s1 ++ s2) =
  (let '(st1, t1) :=
     sendMessageWithStreaming version this url request headers onChunk h s1 in
   let '(st2, t2) := exec (deliver_all version request onChunk s2) st1 in
   (st2, t1 ++ t2)).
Proof.
  unfold sendMessageWithStreaming. destruct (open_stream this url request h) as [st0 t0].
  rewrite run_app.
  destruct (exec (deliver_all version request onChunk s1) st0) as [st1 t1].
  destruct (exec (deliver_all version request onChunk s2) st1) as [st2 t2].
  now rewrite app_assoc.
Qed.

(** An attempt whose promise is pending is running and has released and
    settled nothing so far. *)
Lemma stream_pending version this url request headers onChunk h script st t :
  sendMessageWithStreaming version this url request headers onChunk h script
    = (st, t) ->
  promise st = Pending ->
  timeoutId st = h /\ running this st /\ forallb quiet t = true.
Proof.
  intros E Hp.
  destruct (stream_invariant_holds version this request onChunk url headers h
              script st t E) as [Hh [[Hr Hq] | [(_ & _ & Hs) _]]].
  - auto.
  - rewrite Hp in Hs. discriminate.
Qed.

Lemma quiet_settles (t : list Effect) :
  forallb quiet t = true -> filter settles t = [].
Proof.
  induction t as [|e t IH]; [reflexivity|]. simpl. intros H.
  apply andb_true_iff in H. destruct H as [He H]. rewrite (IH H).
  now destruct e.
Qed.

Lemma released_settles version fired h :
  filter settles (released version fired h) = [].
Proof. destruct version, fired; reflexivity. Qed.

(** The promise of an attempt is settled once at most: by no call while it
    is pending, by exactly one once it is settled. *)
Lemma stream_settles_once version this url request headers onChunk h script :
  let attempt :=
    sendMessageWithStreaming version this url request headers onChunk h script in
  length (filter settles (snd attempt)) =
  if settled (promise (fst attempt)) then 1 else 0.
Proof.
  intros attempt. subst attempt.
  destruct (sendMessageWithStreaming version this url request headers onChunk h
              script) as [st t] eqn:E.
  cbn [fst snd].
  destruct (stream_invariant_holds version this request onChunk url headers h
              script st t E)
    as [_ [[(_ & _ & Hp) Hq] | [(_ & _ & Hs) (before & last & -> & Hb & Hl)]]].
  - rewrite Hp, (quiet_settles t Hq). reflexivity.
  - rewrite Hs, !filter_app, (quiet_settles before Hb), released_settles.
    simpl. now rewrite Hl.
Qed.

(** Every attempt comes to an end: whatever has arrived, the expiry of the
    timer finds the attempt over or ends it. *)
Lemma stream_ends version this url request headers onChunk h script :
  over (fst (sendMessageWithStreaming version this url request headers onChunk h
               (script ++ [TimerFires]))).
Proof.
  rewrite stream_app.
  destruct (sendMessageWithStreaming version this url request headers onChunk h
              script) as [st t] eqn:E.
  destruct (stream_invariant_holds version this request onChunk url headers h
              script st t E) as [_ [[(Hc & Ht & Hp) _] | [Ho _]]].
  - rewrite run_cons, step_timeout by now rewrite Ht.
    unfold settle. cbn [promise]. rewrite Hp.
    rewrite run_over by now repeat split. now repeat split.
  - rewrite run_over by assumption. exact Ho.
Qed.

Lemma without_logs_app (t1 t2 : list Effect) :
  without_logs (t1 ++ t2) = without_logs t1 ++ without_logs t2.
Proof. apply filter_app. Qed.

(** ** Runs of the POST *)

Lemma http_nil st : exec (deliver_http_all []) st = (st, []).
Proof. reflexivity. Qed.

Lemma http_cons i script st :
  exec (deliver_http_all (i :: script)) st =
  (let '(st1, t1) := exec (deliver_http i) st in
   let '(st2, t2) := exec (deliver_http_all script) st1 in (st2, t1 ++ t2)).
Proof. apply exec_seq. Qed.

(** Once the function has returned or thrown, nothing reaches it. *)
Lemma http_step_finished i st :
  finished st -> exec (deliver_http i) st = (st, []).
Proof.
  intros (Hs & Ht). unfold deliver_http, exec. rewrite Hs, Ht.
  destruct i; reflexivity.
Qed.

Lemma http_finished script st :
  finished st -> exec (deliver_http_all script) st = (st, []).
Proof.
  intros H. induction script as [|i script IH]; [reflexivity|].
  rewrite http_cons, (http_step_finished i st H), IH. reflexivity.
Qed.

(** The response arrives while the timer is armed. *)
Lemma http_response status ms h :
  exec (deliver_http (FetchResolves status))
    (mkFetchState AwaitFetch (Armed ms) h false Pending) =
  (mkFetchState (if ok status then AwaitJson else AwaitText status)
     Cleared h false Pending,
   [ClearTimeout h; if ok status then ResponseJson else ResponseText]).
Proof. unfold deliver_http, exec, after_fetch. simpl. destruct (ok status); reflexivity. Qed.

(** The error text is known, or could not be read. *)
Lemma http_error_text status errorText i h :
  i = TextResolves errorText \/
  (exists reason, i = TextRejects reason) /\ errorText = "Unknown error" ->
  exec (deliver_http i) (mkFetchState (AwaitText status) Cleared h false Pending) =
  (mkFetchState Finished Cleared h false
     (Rejected (ThrowError (Error ("HTTP " ++ decimal status ++ ": " ++ errorText)))),
   [ClearTimeout h]).
Proof. intros [-> | [[reason ->] ->]]; reflexivity. Qed.

Lemma http_json data h :
  exec (deliver_http (JsonResolves data))
    (mkFetchState AwaitJson Cleared h false Pending) =
  (mkFetchState Finished Cleared h false (Fulfilled data), []).
Proof. reflexivity. Qed.

(** The timer expires while [fetch] is in flight. *)
Lemma http_expiry ms h ab :
  exec (deliver_http AbortTimerFires)
    (mkFetchState AwaitFetch (Armed ms) h ab Pending) =
  (mkFetchState Finished Fired h true
     (Rejected (ThrowError (Error "Request timeout"))),
   [Abort; ClearTimeout h]).
Proof. reflexivity. Qed.

(** Whatever the catch clause receives, it clears the timer and throws an
    [Error]. *)
Lemma catch_clause_throws reason st :
  exists e,
    catch_clause reason st =
    (tt, finish (Rejected (ThrowError e))
           (set_abort_timer (cancel (abort_timer st)) st),
     [ClearTimeout (abort_timeoutId st)]).
Proof.
  destruct reason as [e|v];
    cbv [catch_clause bind clearTimeout_fetch gets emit modify throw].
  - destruct (name e =? "AbortError")%string eqn:E.
    + exists (Error "Request timeout"). reflexivity.
    + now exists e.
  - now exists (Error "Unknown error occurred").
Qed.

Lemma http_step_invariant this h i st :
  fetch_invariant this h st ->
  forall st' t, exec (deliver_http i) st = (st', t) ->
  fetch_invariant this h st' /\ forallb http_action t = true.
Proof.
  unfold fetch_invariant. destruct st as [a tm h' ab p]. simpl.
  intros [-> H] st' t E. unfold deliver_http, exec in E. simpl in E.
  destruct a as [|status| |]; destruct H as [Ht Hp]; subst;
    destruct i as [status'|reason|text|reason|data|reason|]; simpl in E;
    try (injection E as <- <-; simpl; now auto);
    try (unfold after_fetch in E; simpl in E; destruct (ok status');
         simpl in E; injection E as <- <-; simpl; now auto);
    try (match type of E with
         | context [catch_clause ?r ?s] =>
             let Hc := fresh "Hc" in
             destruct (catch_clause_throws r s) as [e Hc]; rewrite Hc in E
         end; injection E as <- <-; simpl; now auto).
  destruct (armed tm) eqn:Ea; [discriminate|].
  simpl in E. injection E as <- <-. simpl. rewrite Ea. now auto.
Qed.

Lemma http_run_invariant this h script st :
  fetch_invariant this h st ->
  forall st' t, exec (deliver_http_all script) st = (st', t) ->
  fetch_invariant this h st' /\ forallb http_action t = true.
Proof.
  revert st. induction script as [|i script IH]; intros st H st' t E.
  - rewrite http_nil in E. injection E as <- <-. auto.
  - rewrite http_cons in E.
    destruct (exec (deliver_http i) st) as [st1 t1] eqn:E1.
    destruct (exec (deliver_http_all script) st1) as [st2 t2] eqn:E2.
    injection E as <- <-.
    destruct (http_step_invariant this h i st H st1 t1 E1) as [H1 Hq1].
    destruct (IH st1 H1 st2 t2 E2) as [H2 Hq2].
    split; [assumption|]. now rewrite forallb_app, Hq1, Hq2.
Qed.

(** Every POST starts with its timer and its request, and goes on with
    actions of its own. *)
Lemma http_invariant_holds this url request headers h script :
  forall st t,
  sendMessageNonStreaming this url request headers h script = (st, t) ->
  fetch_invariant this h st /\
  exists t', t = SetTimeout (timeout this) h :: Fetch url headers request :: t' /\
             forallb http_action t' = true.
Proof.
  intros st t. unfold sendMessageNonStreaming, start_fetch.
  destruct (exec (deliver_http_all script) _) as [st1 t1] eqn:E1.
  intros E. injection E as <- <-.
  assert (H0 : fetch_invariant this h
                 (mkFetchState AwaitFetch (Armed (timeout this)) h false Pending))
    by now repeat split.
  destruct (http_run_invariant this h script _ H0 st1 t1 E1) as [H Hq].
  split; [assumption|]. now exists t1.
Qed.

(** The POST creates no event source. *)
Lemma post_opens_no_stream this url request headers h script :
  existsb opens_stream
    (snd (sendMessageNonStreaming this url request headers h script)) = false.
Proof.
  destruct (sendMessageNonStreaming this url request headers h script)
    as [fs t] eqn:E.
  destruct (http_invariant_holds _ _ _ _ _ _ fs t E) as [_ (t' & -> & Hq)].
  cbn [snd existsb opens_stream orb].
  clear E. induction t' as [|e t' IH]; [reflexivity|].
  simpl in Hq. apply andb_true_iff in Hq. destruct Hq as [He Hq].
  simpl. rewrite (IH Hq). now destruct e.
Qed.

(** A response with a status outside 200..299: the function throws with
    the status and the text of the body, or a placeholder for a body that
    could not be read. *)
Lemma http_error_status this url request headers h status rest :
  (status < 200 \/ 299 < status)%N ->
  let post := sendMessageNonStreaming this url request headers h in
  (forall text,
     outcome (fst (post (FetchResolves status :: TextResolves text :: rest))) =
     Rejected (ThrowError (Error ("HTTP " ++ decimal status ++ ": " ++ text)))) /\
  (forall reason,
     outcome (fst (post (FetchResolves status :: TextRejects reason :: rest))) =
     Rejected (ThrowError (Error ("HTTP " ++ decimal status ++ ": Unknown error")))).
Proof.
  intros Hs post.
  assert (Hok : ok status = false).
  { unfold ok. apply andb_false_iff.
    destruct Hs as [Hs | Hs]; [left; apply N.leb_gt | right; apply N.leb_gt];
      exact Hs. }
  subst post. unfold sendMessageNonStreaming, start_fetch.
  split; intros x; rewrite http_cons, http_response, Hok; cbv iota;
    rewrite http_cons.
  - rewrite (http_error_text status x) by now left.
    rewrite http_finished by now split. reflexivity.
  - rewrite (http_error_text status "Unknown error") by (right; eauto).
    rewrite http_finished by now split. reflexivity.
Qed.

(** The three ways through the catch clause. *)
Example post_network_failure :
  let failed := mkJsError "TypeError" "Failed to fetch" in
  sendMessageNonStreaming local "/chat" hi content_type 2
    [FetchRejects (ThrowError failed)] =
  (mkFetchState Finished Cleared 2 false (Rejected (ThrowError failed)),
   [SetTimeout 30000 2; Fetch "/chat" content_type hi; ClearTimeout 2]).
Proof. reflexivity. Qed.

Example post_expiry :
  sendMessageNonStreaming local "/chat" hi content_type 2 [AbortTimerFires] =
  (mkFetchState Finished Fired 2 true
     (Rejected (ThrowError (Error "Request timeout"))),
   [SetTimeout 30000 2; Fetch "/chat" content_type hi; Abort; ClearTimeout 2]).
Proof. reflexivity. Qed.

Example post_throws_no_error :
  outcome (fst (sendMessageNonStreaming local "/chat" hi content_type 2
                  [FetchRejects (ThrowOther (JStr "offline"))])) =
  Rejected (ThrowError (Error "Unknown error occurred")).
Proof. reflexivity. Qed.

(** A success status with a body that is not JSON: the [SyntaxError] of
    [response.json()] is thrown on. *)
Example post_body_not_json :
  let syntax := mkJsError "SyntaxError" "Unexpected token < in JSON" in
  outcome (fst (sendMessageNonStreaming local "/chat" hi content_type 2
                  [FetchResolves 200; JsonRejects (ThrowError syntax)])) =
  Rejected (ThrowError syntax).
Proof. reflexivity. Qed.

Lemma http_all_app s1 s2 st :
  exec (deliver_http_all (s1 ++ s2)) st =
  (let '(st1, t1) := exec (deliver_http_all s1) st in
   let '(st2, t2) := exec (deliver_http_all s2) st1 in (st2, t1 ++ t2)).
Proof.
  revert st. induction s1 as [|i s1 IH]; intros st.
  - simpl app. rewrite http_nil. destruct (exec (deliver_http_all s2) st).
    reflexivity.
  - simpl app. rewrite !http_cons. destruct (exec (deliver_http i) st) as [st1 t1].
    rewrite IH. destruct (exec (deliver_http_all s1) st1) as [st2 t2].
    destruct (exec (deliver_http_all s2) st2) as [st3 t3]. now rewrite app_assoc.
Qed.

Lemma http_app this url request headers h s1 s2 :
  sendMessageNonStreaming this url request headers h (s1 ++ s2) =
  (let '(st1, t1) := sendMessageNonStreaming this url request headers h s1 in
   let '(st2, t2) := exec (deliver_http_all s2) st1 in
   (st2, t1 ++ t2)).
Proof.
  unfold sendMessageNonStreaming, start_fetch. rewrite http_all_app.
  destruct (exec (deliver_http_all s1) _) as [st1 t1].
  destruct (exec (deliver_http_all s2) st1) as [st2 t2].
  reflexivity.
Qed.

(** The timer of a pending streaming attempt expires. *)
Lemma stream_expiry version this url request headers onChunk h script :
  promise (fst (sendMessageWithStreaming version this url request headers
                  onChunk h script)) = Pending ->
  promise (fst (sendMessageWithStreaming version this url request headers
                  onChunk h (script ++ [TimerFires]))) =
  Rejected (ThrowError (Error "Request timeout")).
Proof.
  intros Hp. rewrite stream_app.
  destruct (sendMessageWithStreaming version this url request headers onChunk h
              script) as [st t] eqn:E.
  cbn [fst] in Hp.
  destruct (stream_pending _ _ _ _ _ _ _ _ _ _ E Hp) as (_ & (_ & Htm & _) & _).
  rewrite run_cons, step_timeout by now rewrite Htm.
  unfold settle. cbn [promise]. rewrite Hp. reflexivity.
Qed.

(** ** sendMessage *)

(** With a callback, a streaming attempt that resolves is the result. *)
Lemma sendMessage_streamed this request onChunk env st t response :
  sendMessageWithStreaming Plain this (endpoint this) request content_type
    onChunk (stream_handle env) (stream_inputs env) = (st, t) ->
  promise st = Fulfilled response ->
  sendMessage this request (Some onChunk) env = (Fulfilled response, t).
Proof.
  intros E Hp. unfold sendMessage. rewrite E, Hp. reflexivity.
Qed.

(** With a callback, a streaming attempt that rejects is followed by the
    POST, whose outcome is the result. *)
Lemma sendMessage_fallback this request onChunk env st t reason fs t' :
  sendMessageWithStreaming Plain this (endpoint this) request content_type
    onChunk (stream_handle env) (stream_inputs env) = (st, t) ->
  promise st = Rejected reason ->
  sendMessageNonStreaming this (endpoint this) request content_type
    (fetch_handle env) (fetch_inputs env) = (fs, t') ->
  sendMessage this request (Some onChunk) env =
  (outcome fs,
   t ++ ConsoleWarn "Streaming failed, falling back to non-streaming:" reason :: t').
Proof.
  intros E Hp E'. unfold sendMessage. rewrite E, Hp, E'. reflexivity.
Qed.

(** The result of a call that gets as far as the POST is the outcome of the
    POST. *)
Lemma sendMessage_post this request onChunk env :
  reaches_post this request onChunk env ->
  fst (sendMessage this request onChunk env) =
  outcome (fst (sendMessageNonStreaming this (endpoint this) request content_type
                  (fetch_handle env) (fetch_inputs env))).
Proof.
  unfold reaches_post, sendMessage. destruct onChunk as [f|].
  - intros [reason Hp].
    destruct (sendMessageWithStreaming Plain this (endpoint this) request
                content_type f (stream_handle env) (stream_inputs env)) as [st t].
    cbn [fst] in Hp. rewrite Hp.
    now destruct (sendMessageNonStreaming _ _ _ _ _ _) as [fs t'].
  - intros _. now destruct (sendMessageNonStreaming _ _ _ _ _ _) as [fs t'].
Qed.

(** Scenario A, action by action. *)
Example scenario_A_run :
  sendMessage local hi (Some noop) (mkPlatform 1 scenario_A 2 []) =
  (Fulfilled (ChatResponse "c1" "Hello"),
   [NewEventSource "/chat" "hi" "" []; SetTimeout 30000 1;
    OnChunk "He"; OnChunk "llo";
    EventSourceClose; ClearTimeout 1; Resolve (ChatResponse "c1" "Hello")]).
Proof. reflexivity. Qed.

(** The stream the README documents: the last fragment arrives on the
    message that carries [done]. *)
Example readme_stream_run :
  sendMessage local hi (Some noop)
    (mkPlatform 1
       (messages [SSEEvent.mk (Some "abc123") (Some "chunk1") None None;
                  SSEEvent.mk None (Some "chunk2") None None;
                  SSEEvent.mk None (Some "chunk3") None (Some true)]) 2 []) =
  (Fulfilled (ChatResponse "abc123" "chunk1chunk2chunk3"),
   [NewEventSource "/chat" "hi" "" []; SetTimeout 30000 1;
    OnChunk "chunk1"; OnChunk "chunk2"; OnChunk "chunk3";
    EventSourceClose; ClearTimeout 1;
    Resolve (ChatResponse "abc123" "chunk1chunk2chunk3")]).
Proof. reflexivity. Qed.

(** Scenario C through [sendMessage], without a callback. *)
Example scenario_C_run :
  sendMessage local hi None
    (mkPlatform 1 [] 2 [FetchResolves 500; TextResolves "server error"]) =
  (Rejected (ThrowError (Error "HTTP 500: server error")),
   [SetTimeout 30000 2; Fetch "/chat" content_type hi;
    ClearTimeout 2; ResponseText; ClearTimeout 2]).
Proof. reflexivity. Qed.

(** ** The clock *)

Section StreamClock.

Variable version : Revision.
Variable this : AgentClient.
Variable request : ChatRequest.t.
Variable onChunk : string -> unit.

Let has_settled := fun st : StreamState => settled (promise st).
Let tick := at_time StreamState StreamInput (deliver version request onChunk)
              has_settled.
Let due := expire_by StreamState StreamInput (deliver version request onChunk)
             timer TimerFires has_settled.

(** An attempt that is over is left alone. *)
Lemma tick_over now i x :
  over (state_now x) -> within (timeout this) x -> tick now i x = x.
Proof.
  intros Ho (t & Hs & _). unfold tick, at_time.
  rewrite (step_over version request onChunk i _ Ho), Hs.
  destruct x as [st s]. simpl in *. now subst.
Qed.

(** An input delivered to a running attempt no later than the timeout. *)
Lemma tick_running now i x :
  running this (state_now x) -> settled_at x = None ->
  (now <= timeout this)%N -> on_time this (tick now i x).
Proof.
  intros Hr Hs Hnow. unfold tick, at_time. rewrite Hs.
  destruct (exec (deliver version request onChunk i) (state_now x)) as [st t] eqn:E.
  destruct (step_running version this request onChunk i _ Hr st t E)
    as [_ [[Hr' _] | [Ho' _]]]; cbn [fst].
  - left. cbn [state_now settled_at]. split; [assumption|].
    destruct Hr' as (_ & _ & Hp). unfold has_settled. now rewrite Hp.
  - right. cbn [state_now]. split; [assumption|].
    destruct Ho' as (_ & _ & Hp). unfold has_settled. rewrite Hp.
    now exists now.
Qed.

(** When time has come to [now], an attempt that still runs has its
    deadline ahead. *)
Lemma due_on_time now x :
  on_time this x ->
  on_time this (due now x) /\
  (running this (state_now (due now x)) -> (now < timeout this)%N).
Proof.
  intros [[Hr Hs] | [Ho Hw]]; unfold due, expire_by.
  - destruct Hr as (Hc & Ht & Hp). rewrite Ht.
    destruct (timeout this <=? now)%N eqn:E.
    + pose proof (tick_running (timeout this) TimerFires x
                    (conj Hc (conj Ht Hp)) Hs (N.le_refl _)) as H.
      split; [exact H|]. intros (_ & _ & Hp').
      exfalso. unfold tick, at_time in Hp'. cbn [state_now] in Hp'.
      rewrite step_timeout in Hp' by now rewrite Ht.
      unfold settle in Hp'. cbn [fst promise] in Hp'. rewrite Hp in Hp'.
      discriminate.
    + split; [left; now repeat split|]. intros _. now apply N.leb_gt.
  - pose proof Ho as (_ & Ha & _).
    destruct (timer (state_now x)) eqn:Et; try discriminate;
      (split; [right; now split|]);
      intros (_ & Ht' & _); rewrite Et in Ht'; discriminate.
Qed.

(** Every streaming attempt has settled within the timeout once the
    platform has delivered what it had and the timer has had its time. *)
Lemma timed_run_on_time arrivals x :
  on_time this x ->
  within (timeout this)
    (timed_run StreamState StreamInput (deliver version request onChunk) timer
       TimerFires has_settled arrivals x).
Proof.
  revert x. induction arrivals as [|[now i] arrivals IH]; intros x Hx.
  - cbn [timed_run]. destruct Hx as [[Hr Hs] | [Ho Hw]].
    + destruct Hr as (Hc & Ht & Hp). rewrite Ht.
      destruct (tick_running (timeout this) TimerFires x
                  (conj Hc (conj Ht Hp)) Hs (N.le_refl _)) as [[Hr' _] | [_ Hw]].
      * exfalso. destruct Hr' as (_ & _ & Hp').
        unfold tick, at_time in Hp'. cbn [state_now] in Hp'.
        rewrite step_timeout in Hp' by now rewrite Ht.
        unfold settle in Hp'. cbn [fst promise] in Hp'. rewrite Hp in Hp'.
        discriminate.
      * exact Hw.
    + destruct Ho as (_ & Ha & _).
      destruct (timer (state_now x)); try discriminate; exact Hw.
  - cbn [timed_run]. apply IH. fold (due now x).
    destruct (due_on_time now x Hx) as [[[Hr Hs] | [Ho Hw]] Hlt].
    + apply tick_running; try assumption. apply N.lt_le_incl. now apply Hlt.
    + fold (tick now i (due now x)). rewrite tick_over by assumption.
      right. now split.
Qed.

End StreamClock.

(** Against the clock, every streaming attempt settles within the client's
    timeout of its start. *)
Lemma timed_stream_within version this url request onChunk h arrivals :
  within (timeout this) (timed_stream version this url request onChunk h arrivals).
Proof.
  unfold timed_stream. apply timed_run_on_time. left.
  split; [apply open_stream_running | reflexivity].
Qed.

Example stream_completes_in_time :
  timed_stream Plain local "/chat" hi noop 1
    [(100, OnMessage (Json (fragment "He")));
     (200, OnMessage (Json (SSEEvent.mk None (Some "llo") None (Some true))))]%N =
  mkTimed
    (mkStreamState true Cleared 1 "Hello" "" (Fulfilled (ChatResponse "" "Hello")))
    (Some 200%N).
Proof. reflexivity. Qed.

(** A completing message that would arrive after the deadline comes too
    late: the attempt was rejected at the deadline. *)
Example stream_completes_too_late :
  timed_stream Plain local "/chat" hi noop 1
    [(100, OnMessage (Json (fragment "He")));
     (40000, OnMessage (Json (SSEEvent.mk None (Some "llo") None (Some true))))]%N =
  mkTimed
    (mkStreamState true Fired 1 "He" ""
       (Rejected (ThrowError (Error "Request timeout"))))
    (Some 30000%N).
Proof. reflexivity. Qed.

(** A POST against the clock whose response does not arrive before the
    deadline: the timer expires at the deadline, the call is aborted and the
    function throws. *)
Lemma timed_post_expires this url request headers h arrivals :
  Forall (fun arrival => (timeout this <= fst arrival)%N) arrivals ->
  timed_post this url request headers h arrivals =
  mkTimed
    (mkFetchState Finished Fired h true
       (Rejected (ThrowError (Error "Request timeout"))))
    (Some (timeout this)).
Proof.
  intros Hall. unfold timed_post, start_fetch. cbn [fst].
  assert (Hdone : forall later,
    timed_run FetchState HttpInput deliver_http abort_timer AbortTimerFires
      (fun st => settled (outcome st)) later
      (mkTimed
         (mkFetchState Finished Fired h true
            (Rejected (ThrowError (Error "Request timeout"))))
         (Some (timeout this))) =
    mkTimed
      (mkFetchState Finished Fired h true
         (Rejected (ThrowError (Error "Request timeout"))))
      (Some (timeout this))).
  { induction later as [|[now i] later IH]; [reflexivity|].
    cbn [timed_run]. unfold expire_by, at_time. cbn [state_now abort_timer settled_at].
    rewrite http_step_finished by now split. exact IH. }
  destruct arrivals as [|[now i] arrivals].
  - reflexivity.
  - cbn [timed_run]. unfold expire_by. cbn [state_now abort_timer].
    inversion Hall as [|? ? Hnow _]; subst. cbn [fst] in Hnow.
    apply N.leb_le in Hnow. rewrite Hnow.
    unfold at_time at 2. cbn [state_now settled_at].
    rewrite http_expiry. cbn [fst outcome settled].
    unfold at_time. cbn [state_now settled_at].
    rewrite http_step_finished by now split. apply Hdone.
Qed.

(** ** The second revision *)

(** The two revisions of the streaming attempt differ in their traces only. *)
Lemma step_version request onChunk i st :
  fst (exec (deliver Plain request onChunk i) st) =
  fst (exec (deliver Traced request onChunk i) st).
Proof.
  destruct i as [event| |]; try reflexivity.
  destruct st as [cl tm h acc cid p]. unfold deliver, exec. simpl.
  destruct (armed tm); reflexivity.
Qed.

Lemma run_version request onChunk script st :
  fst (exec (deliver_all Plain request onChunk script) st) =
  fst (exec (deliver_all Traced request onChunk script) st).
Proof.
  revert st. induction script as [|i script IH]; intros st; [reflexivity|].
  rewrite !run_cons. pose proof (step_version request onChunk i st) as H.
  destruct (exec (deliver Plain request onChunk i) st) as [st1 t1].
  destruct (exec (deliver Traced request onChunk i) st) as [st1' t1'].
  cbn [fst] in H. subst st1'. specialize (IH st1).
  destruct (exec (deliver_all Plain request onChunk script) st1) as [st2 t2].
  destruct (exec (deliver_all Traced request onChunk script) st1) as [st2' t2'].
  exact IH.
Qed.

Lemma stream_version this url request headers onChunk h script :
  fst (sendMessageWithStreaming Plain this url request headers onChunk h script) =
  fst (sendMessageWithStreaming Traced this url request headers onChunk h script).
Proof.
  unfold sendMessageWithStreaming. destruct (open_stream this url request h) as [st0 t0].
  pose proof (run_version request onChunk script st0) as H.
  destruct (exec (deliver_all Plain request onChunk script) st0) as [st1 t1].
  destruct (exec (deliver_all Traced request onChunk script) st0) as [st1' t1'].
  exact H.
Qed.

Lemma essential_app (t1 t2 : list Effect) :
  essential (t1 ++ t2) = essential t1 ++ essential t2.
Proof. apply filter_app. Qed.

Lemma step_version_trace request onChunk i st :
  essential (snd (exec (deliver Plain request onChunk i) st)) =
  essential (snd (exec (deliver Traced request onChunk i) st)).
Proof.
  destruct i as [event| |]; try reflexivity.
  destruct st as [cl tm h acc cid p]. unfold deliver, exec. simpl.
  destruct (armed tm); reflexivity.
Qed.

Lemma run_version_trace request onChunk script st :
  essential (snd (exec (deliver_all Plain request onChunk script) st)) =
  essential (snd (exec (deliver_all Traced request onChunk script) st)).
Proof.
  revert st. induction script as [|i script IH]; intros st; [reflexivity|].
  rewrite !run_cons.
  pose proof (step_version request onChunk i st) as Hs.
  pose proof (step_version_trace request onChunk i st) as Ht.
  destruct (exec (deliver Plain request onChunk i) st) as [st1 t1].
  destruct (exec (deliver Traced request onChunk i) st) as [st1' t1'].
  cbn [fst snd] in Hs, Ht. subst st1'. specialize (IH st1).
  destruct (exec (deliver_all Plain request onChunk script) st1) as [st2 t2].
  destruct (exec (deliver_all Traced request onChunk script) st1) as [st2' t2'].
  cbn [snd] in *. now rewrite !essential_app, Ht, IH.
Qed.

Lemma stream_version_trace this url request headers onChunk h script :
  essential
    (snd (sendMessageWithStreaming Plain this url request headers onChunk h script)) =
  essential
    (snd (sendMessageWithStreaming Traced this url request headers onChunk h script)).
Proof.
  unfold sendMessageWithStreaming. destruct (open_stream this url request h) as [st0 t0].
  pose proof (run_version_trace request onChunk script st0) as H.
  destruct (exec (deliver_all Plain request onChunk script) st0) as [st1 t1].
  destruct (exec (deliver_all Traced request onChunk script) st0) as [st1' t1'].
  cbn [snd] in *. now rewrite !essential_app, H.
Qed.

Lemma settle_outcome p st :
  stream_outcome p -> stream_outcome (promise st) ->
  stream_outcome (promise (settle p st)).
Proof. unfold settle. destruct (promise st) eqn:E; simpl; rewrite ?E; auto. Qed.

(** A streaming attempt is fulfilled with a [ChatResponse] only. *)
Lemma step_outcome version request onChunk i st :
  stream_outcome (promise st) ->
  stream_outcome (promise (fst (exec (deliver version request onChunk i) st))).
Proof.
  intros H. destruct i as [[| |e]| |].
  - now rewrite (step_unparsed version request onChunk Unparseable) by auto.
  - now rewrite (step_unparsed version request onChunk JsonNull) by auto.
  - destruct (closed st) eqn:Hc.
    { unfold deliver, exec. now rewrite Hc. }
    destruct (classify e) as [(text & He & Htext) | [He | He]].
    + rewrite (step_fails version request onChunk e text st Hc He Htext).
      apply settle_outcome; simpl; auto.
    + rewrite (step_completes version request onChunk e st Hc He).
      apply settle_outcome; simpl; eauto.
    + now rewrite (step_continues version request onChunk e st Hc He).
  - destruct (closed st) eqn:Hc.
    { unfold deliver, exec. now rewrite Hc. }
    rewrite (step_onerror version request onChunk st Hc).
    apply settle_outcome; simpl; auto.
  - destruct (armed (timer st)) eqn:Ha.
    + rewrite (step_timeout version request onChunk st Ha).
      apply settle_outcome; simpl; auto.
    + unfold deliver, exec. now rewrite Ha.
Qed.

Lemma run_outcome version request onChunk script st :
  stream_outcome (promise st) ->
  stream_outcome
    (promise (fst (exec (deliver_all version request onChunk script) st))).
Proof.
  revert st. induction script as [|i script IH]; intros st H; [exact H|].
  rewrite run_cons. pose proof (step_outcome version request onChunk i st H) as H1.
  destruct (exec (deliver version request onChunk i) st) as [st1 t1].
  specialize (IH st1 H1).
  destruct (exec (deliver_all version request onChunk script) st1) as [st2 t2].
  exact IH.
Qed.

Lemma stream_fulfils_ChatResponse version this url request headers onChunk h script :
  stream_outcome
    (promise (fst (sendMessageWithStreaming version this url request headers
                     onChunk h script))).
Proof.
  unfold sendMessageWithStreaming, open_stream.
  pose proof (run_outcome version request onChunk script
                (mkStreamState false (Armed (timeout this)) h "" "" Pending) I) as H.
  destruct (exec _ _) as [st t]. exact H.
Qed.

(** The result of the second revision is the result of the first, except
    that a fulfilled POST whose value has no readable [answer] is turned into
    a rejection with a [TypeError] by the read of [response.answer.length]. *)
Lemma sendMessage_traced_result this request onChunk env :
  fst (sendMessage_traced this request onChunk env) =
  through_span (fst (sendMessage this request onChunk env)).
Proof.
  assert (Hpost : forall before,
    fst (non_streaming_traced this request env before) =
    through_span
      (outcome (fst (sendMessageNonStreaming this (endpoint this) request
                       content_type (fetch_handle env) (fetch_inputs env))))).
  { intros before. unfold non_streaming_traced.
    destruct (sendMessageNonStreaming _ _ _ _ _ _) as [fs t]. cbn [fst].
    destruct (outcome fs) as [|response|error]; [reflexivity| |reflexivity].
    simpl. now destruct (answer_length_readable response). }
  unfold sendMessage_traced, sendMessage. destruct onChunk as [f|].
  - pose proof (stream_version this (endpoint this) request content_type f
                  (stream_handle env) (stream_inputs env)) as Hv.
    pose proof (stream_fulfils_ChatResponse Traced this (endpoint this) request
                  content_type f (stream_handle env) (stream_inputs env)) as Ho.
    destruct (sendMessageWithStreaming Plain _ _ _ _ _ _ _) as [st t].
    destruct (sendMessageWithStreaming Traced _ _ _ _ _ _ _) as [st' t'].
    cbn [fst] in Hv, Ho. subst st'.
    destruct (promise st) as [|response|error].
    + reflexivity.
    + destruct Ho as (c & a & ->). reflexivity.
    + rewrite Hpost.
      now destruct (sendMessageNonStreaming _ _ _ _ _ _) as [fs t2].
  - rewrite Hpost. now destruct (sendMessageNonStreaming _ _ _ _ _ _) as [fs t2].
Qed.

(** The second revision performs the actions of the first, in the same
    order, apart from the calls on its span and calls of [clearTimeout]: it
    opens the same connections, issues the same requests and calls the
    callback with the same fragments. *)
Lemma sendMessage_traced_trace this request onChunk env :
  essential (snd (sendMessage_traced this request onChunk env)) =
  essential (snd (sendMessage this request onChunk env)).
Proof.
  assert (Hpost : forall before,
    essential (snd (non_streaming_traced this request env before)) =
    essential before ++
    essential (snd (sendMessageNonStreaming this (endpoint this) request
                      content_type (fetch_handle env) (fetch_inputs env)))).
  { intros before. unfold non_streaming_traced.
    destruct (sendMessageNonStreaming _ _ _ _ _ _) as [fs t]. cbn [snd].
    destruct (outcome fs) as [|response|error];
      try destruct (answer_length_readable response); cbn [snd];
      rewrite !essential_app; simpl; now rewrite ?app_nil_r. }
  unfold sendMessage_traced, sendMessage. destruct onChunk as [f|].
  - pose proof (stream_version this (endpoint this) request content_type f
                  (stream_handle env) (stream_inputs env)) as Hv.
    pose proof (stream_version_trace this (endpoint this) request content_type f
                  (stream_handle env) (stream_inputs env)) as Ht.
    pose proof (stream_fulfils_ChatResponse Traced this (endpoint this) request
                  content_type f (stream_handle env) (stream_inputs env)) as Ho.
    destruct (sendMessageWithStreaming Plain _ _ _ _ _ _ _) as [st t].
    destruct (sendMessageWithStreaming Traced _ _ _ _ _ _ _) as [st' t'].
    cbn [fst snd] in Hv, Ht, Ho. subst st'.
    destruct (promise st) as [|response|error].
    + cbn [snd]. rewrite essential_app. simpl. now rewrite Ht.
    + destruct Ho as (c & a & ->).
      change (answer_length_readable (ChatResponse c a)) with true.
      cbn [snd]. rewrite !essential_app. simpl. now rewrite Ht, app_nil_r.
    + rewrite Hpost.
      destruct (sendMessageNonStreaming _ _ _ _ _ _) as [fs t2]. cbn [snd].
      rewrite !essential_app. simpl. now rewrite Ht, <- app_assoc.
  - rewrite Hpost. now destruct (sendMessageNonStreaming _ _ _ _ _ _) as [fs t2].
Qed.

Lemma chunks_essential (t : list Effect) : chunks (essential t) = chunks t.
Proof.
  induction t as [|e t IH]; [reflexivity|].
  destruct e; simpl; now rewrite ?IH.
Qed.

Lemma opens_stream_essential (t : list Effect) :
  existsb opens_stream (essential t) = existsb opens_stream t.
Proof.
  induction t as [|e t IH]; [reflexivity|].
  destruct e; simpl; now rewrite ?IH.
Qed.

(** What was shown of a streamed answer holds of the second revision too. *)
Lemma sendMessage_traced_streamed this request onChunk env pre d post :
  forallb continues pre = true ->
  completes d = true ->
  stream_inputs env = messages (pre ++ [d]) ++ post ->
  fst (sendMessage_traced this request (Some onChunk) env) =
    Fulfilled (ChatResponse (final_identifier request (pre ++ [d]))
                 (concatenation (fragments (pre ++ [d])))) /\
  chunks (snd (sendMessage_traced this request (Some onChunk) env)) =
    fragments (pre ++ [d]).
Proof.
  intros Hpre Hd Hin.
  pose proof (stream_completes Plain this request onChunk (endpoint this)
                content_type (stream_handle env) pre d post Hpre Hd) as E.
  cbv zeta in E. rewrite <- Hin in E.
  pose proof (sendMessage_streamed this request onChunk env _ _ _ E eq_refl) as Hs.
  rewrite sendMessage_traced_result, <- chunks_essential,
    sendMessage_traced_trace, chunks_essential, Hs.
  split; [reflexivity|]. cbn [snd open_stream].
  rewrite !chunks_app, chunks_OnChunk. simpl. apply app_nil_r.
Qed.

(** Nor does it open a stream when there is no callback. *)
Lemma sendMessage_traced_no_callback this request env :
  existsb opens_stream (snd (sendMessage_traced this request None env)) = false.
Proof.
  rewrite <- opens_stream_essential, sendMessage_traced_trace,
    opens_stream_essential.
  pose proof (post_opens_no_stream this (endpoint this) request content_type
                (fetch_handle env) (fetch_inputs env)) as H.
  unfold sendMessage.
  now destruct (sendMessageNonStreaming _ _ _ _ _ _) as [fs t].
Qed.

(** A fulfilled POST that the second revision turns into a rejection. *)
Example traced_rejects_answerless_body :
  let env := mkPlatform 1 [] 2 [FetchResolves 200; JsonResolves (JObj [])] in
  fst (sendMessage local hi None env) = Fulfilled (JObj []) /\
  fst (sendMessage_traced local hi None env) = Rejected (ThrowError TypeError).
Proof. split; reflexivity. Qed.

(** * The claims *)

(** C1. With a callback supplied, whenever the streaming attempt rejects,
    for whatever reason, [sendMessage] logs the reason and runs the POST with
    the very same request; the outcome of the POST, fulfilled or rejected, is
    the result of [sendMessage], and the reason of the streaming failure
    appears in it nowhere. *)
Theorem C1_streaming_failure_falls_back this request onChunk env reason :
  promise (fst (sendMessageWithStreaming Plain this (endpoint this) request
                  content_type onChunk (stream_handle env) (stream_inputs env)))
    = Rejected reason ->
  let streaming :=
    sendMessageWithStreaming Plain this (endpoint this) request content_type
      onChunk (stream_handle env) (stream_inputs env) in
  let post :=
    sendMessageNonStreaming this (endpoint this) request content_type
      (fetch_handle env) (fetch_inputs env) in
  sendMessage this request (Some onChunk) env =
    (outcome (fst post),
     snd streaming ++
     ConsoleWarn "Streaming failed, falling back to non-streaming:" reason ::
     snd post) /\
  exists rest,
    snd post =
    SetTimeout (timeout this) (fetch_handle env) ::
    Fetch (endpoint this) content_type request :: rest.
Proof.
  intros Hp streaming post. subst streaming post.
  destruct (sendMessageWithStreaming Plain this (endpoint this) request
              content_type onChunk (stream_handle env) (stream_inputs env))
    as [st t] eqn:E.
  destruct (sendMessageNonStreaming this (endpoint this) request content_type
              (fetch_handle env) (fetch_inputs env)) as [fs t'] eqn:E'.
  cbn [fst snd] in *. split.
  - exact (sendMessage_fallback this request onChunk env st t reason fs t' E Hp E').
  - destruct (http_invariant_holds _ _ _ _ _ _ fs t' E') as [_ (rest & -> & _)].
    now exists rest.
Qed.

(** Scenario B of the specification: the connection fails at once and the
    POST answers. *)
Lemma C1_scenario_B :
  sendMessage local hi (Some noop) scenario_B =
  (Fulfilled (ChatResponse "c2" "ok"),
   [NewEventSource "/chat" "hi" "" []; SetTimeout 30000 1;
    EventSourceClose; ClearTimeout 1; Reject (Error "SSE connection error");
    ConsoleWarn "Streaming failed, falling back to non-streaming:"
      (ThrowError (Error "SSE connection error"));
    SetTimeout 30000 2; Fetch "/chat" content_type hi;
    ClearTimeout 2; ResponseJson]).
Proof.
  exact (proj1 (C1_streaming_failure_falls_back local hi noop scenario_B
                  (ThrowError (Error "SSE connection error")) eq_refl)).
Defined.

(** C2, as the code has it.  When the stream delivers messages that neither
    fail nor complete it and then one with [done] set, [sendMessage] resolves
    with an answer that is the ordered concatenation of the non-empty
    [answer] fragments received up to and including the completing message,
    and the callback has been called once per such fragment, with these
    fragments in this order.  Whatever the platform holds after the
    completing message plays no part.  Scenario A of the specification is the
    instance [scenario_A]. *)
Theorem C2_answer_is_concatenation_of_fragments
    this request onChunk env pre d post :
  forallb continues pre = true ->
  completes d = true ->
  stream_inputs env = messages (pre ++ [d]) ++ post ->
  let received := fragments (pre ++ [d]) in
  fst (sendMessage this request (Some onChunk) env) =
    Fulfilled (ChatResponse (final_identifier request (pre ++ [d]))
                 (concatenation received)) /\
  chunks (snd (sendMessage this request (Some onChunk) env)) = received.
Proof.
  intros Hpre Hd Hin received.
  pose proof (stream_completes Plain this request onChunk (endpoint this)
                content_type (stream_handle env) pre d post Hpre Hd) as E.
  cbv zeta in E. rewrite <- Hin in E.
  rewrite (sendMessage_streamed this request onChunk env _ _ _ E eq_refl).
  split; [reflexivity|]. cbn [snd open_stream].
  rewrite !chunks_app, chunks_OnChunk. simpl. apply app_nil_r.
Qed.

Lemma C2_scenario_A :
  fst (sendMessage local hi (Some noop) (mkPlatform 1 scenario_A 2 [])) =
    Fulfilled (ChatResponse "c1" "Hello") /\
  chunks (snd (sendMessage local hi (Some noop) (mkPlatform 1 scenario_A 2 []))) =
    ["He"; "llo"].
Proof.
  exact (C2_answer_is_concatenation_of_fragments local hi noop
           (mkPlatform 1 scenario_A 2 [])
           [fragment "He"; fragment "llo"]
           (SSEEvent.mk (Some "c1") None None (Some true)) []
           eq_refl eq_refl eq_refl).
Defined.

(** C2 as the specification words it, with the fragments received before
    the completing message only, fails when that message carries a fragment
    of its own, as the last message of the stream the README documents does:
    the handler appends and reports [data.answer] before it tests
    [data.done]. *)
Lemma C2_fragment_on_the_completing_message :
  let before :=
    [SSEEvent.mk (Some "abc123") (Some "chunk1") None None;
     SSEEvent.mk None (Some "chunk2") None None] in
  let terminal := SSEEvent.mk None (Some "chunk3") None (Some true) in
  let call :=
    sendMessage local hi (Some noop)
      (mkPlatform 1 (messages (before ++ [terminal])) 2 []) in
  forallb (fun e => negb (truthy_flag (SSEEvent.done e))) before = true /\
  truthy_flag (SSEEvent.done terminal) = true /\
  fragments before = ["chunk1"; "chunk2"] /\
  fst call = Fulfilled (ChatResponse "abc123" "chunk1chunk2chunk3") /\
  chunks (snd call) = ["chunk1"; "chunk2"; "chunk3"] /\
  fst call <> Fulfilled (ChatResponse "abc123" (concatenation (fragments before))) /\
  chunks (snd call) <> fragments before.
Proof. repeat split; discriminate. Qed.

(** C3, as the code has it.  A message with a non-empty [error], received at
    any point of an attempt that is still pending, ends the attempt there:
    the connection and the timer are released and the promise is rejected
    with the text of the error.  No message with [done] is needed, nothing
    that the platform holds after it is processed, and this rejection is the
    only settlement of the whole attempt. *)
Theorem C3_error_message_rejects
    version this url request headers onChunk h before e text after :
  SSEEvent.error e = Some text ->
  truthy text = true ->
  let attempt :=
    sendMessageWithStreaming version this url request headers onChunk h in
  promise (fst (attempt before)) = Pending ->
  promise (fst (attempt (before ++ OnMessage (Json e) :: after))) =
    Rejected (ThrowError (Error text)) /\
  over (fst (attempt (before ++ OnMessage (Json e) :: after))) /\
  snd (attempt (before ++ OnMessage (Json e) :: after)) =
    snd (attempt before) ++ releases h ++ [Reject (Error text)] /\
  filter settles (snd (attempt (before ++ OnMessage (Json e) :: after))) =
    [Reject (Error text)].
Proof.
  intros He Ht attempt Hp. subst attempt. rewrite stream_app.
  destruct (sendMessageWithStreaming version this url request headers onChunk h
              before) as [st1 t1] eqn:E1.
  cbn [fst snd] in Hp.
  destruct (stream_pending _ _ _ _ _ _ _ _ _ _ E1 Hp) as (Hh & (Hc & Htm & _) & Hq).
  rewrite run_cons, (step_fails version request onChunk e text st1 Hc He Ht).
  unfold settle. cbn [promise]. rewrite Hp, Htm, Hh. cbn [cancel].
  rewrite run_over by now repeat split.
  cbn [fst snd promise]. rewrite app_nil_r.
  repeat split.
  rewrite filter_app, (quiet_settles t1 Hq). reflexivity.
Qed.

Lemma C3_error_message_witness :
  let attempt :=
    sendMessageWithStreaming Plain local "/chat" hi content_type noop 1 in
  let script :=
    [OnMessage (Json (fragment "He"));
     OnMessage (Json (SSEEvent.mk None (Some "llo") (Some "overloaded") (Some true)));
     OnMessage (Json (fragment "again"))] in
  promise (fst (attempt script)) = Rejected (ThrowError (Error "overloaded")) /\
  snd (attempt script) =
    [NewEventSource "/chat" "hi" "" []; SetTimeout 30000 1; OnChunk "He";
     EventSourceClose; ClearTimeout 1; Reject (Error "overloaded")].
Proof.
  pose proof (C3_error_message_rejects Plain local "/chat" hi content_type noop 1
                [OnMessage (Json (fragment "He"))]
                (SSEEvent.mk None (Some "llo") (Some "overloaded") (Some true))
                "overloaded" [OnMessage (Json (fragment "again"))]
                eq_refl eq_refl eq_refl) as H.
  exact (conj (proj1 H) (proj1 (proj2 (proj2 H)))).
Defined.

(** C3 as the specification words it fails for an [error] field that is
    present and empty: the message does not end the attempt, which goes on
    to complete. *)
Lemma C3_empty_error_does_not_reject :
  let carries_error := SSEEvent.mk None (Some "x") (Some "") None in
  let completed := SSEEvent.mk None None None (Some true) in
  let attempt :=
    sendMessageWithStreaming Plain local "/chat" hi content_type noop 1 in
  SSEEvent.error carries_error = Some "" /\
  promise (fst (attempt [OnMessage (Json carries_error)])) = Pending /\
  attempt [OnMessage (Json carries_error); OnMessage (Json completed)] =
  (mkStreamState true Cleared 1 "x" "" (Fulfilled (ChatResponse "" "x")),
   [NewEventSource "/chat" "hi" "" []; SetTimeout 30000 1; OnChunk "x";
    EventSourceClose; ClearTimeout 1; Resolve (ChatResponse "" "x")]).
Proof. repeat split. Qed.

(** C4. The identifier of a streamed response is the last non-empty
    [conversationId] among the messages received, the completing one
    included; the request's own identifier when no message carried one; the
    empty string when the request has none either. *)
Theorem C4_identifier_of_streamed_response
    this request onChunk env pre d post :
  forallb continues pre = true ->
  completes d = true ->
  stream_inputs env = messages (pre ++ [d]) ++ post ->
  exists answer,
    fst (sendMessage this request (Some onChunk) env) =
      Fulfilled (ChatResponse
                   match rev (identifiers (pre ++ [d])) with
                   | last :: _ => last
                   | [] =>
                       match ChatRequest.conversationId request with
                       | Some own => own
                       | None => ""
                       end
                   end
                   answer).
Proof.
  intros Hpre Hd Hin.
  pose proof (stream_completes Plain this request onChunk (endpoint this)
                content_type (stream_handle env) pre d post Hpre Hd) as E.
  cbv zeta in E. rewrite <- Hin in E.
  rewrite (sendMessage_streamed this request onChunk env _ _ _ E eq_refl).
  eexists. reflexivity.
Qed.

Lemma C4_identifier_witness :
  exists answer,
    fst (sendMessage local (ChatRequest.mk (Some "mine") "hi" []) (Some noop)
           (mkPlatform 1
              (messages [SSEEvent.mk (Some "a") None None None;
                         SSEEvent.mk (Some "") (Some "x") None None;
                         SSEEvent.mk (Some "b") None None (Some true)]) 2 [])) =
    Fulfilled (ChatResponse "b" answer).
Proof.
  exact (C4_identifier_of_streamed_response local
           (ChatRequest.mk (Some "mine") "hi" []) noop
           (mkPlatform 1 _ 2 [])
           [SSEEvent.mk (Some "a") None None None;
            SSEEvent.mk (Some "") (Some "x") None None]
           (SSEEvent.mk (Some "b") None None (Some true)) []
           eq_refl eq_refl eq_refl).
Defined.

(** C5. Without a callback [sendMessage] is the POST and nothing else: its
    result and its actions are those of [sendMessageNonStreaming], no event
    source is created, and what the streaming endpoint would have delivered
    makes no difference. *)
Theorem C5_no_callback_only_post this request env :
  sendMessage this request None env =
    (outcome (fst (sendMessageNonStreaming this (endpoint this) request
                     content_type (fetch_handle env) (fetch_inputs env))),
     snd (sendMessageNonStreaming this (endpoint this) request
            content_type (fetch_handle env) (fetch_inputs env))) /\
  existsb opens_stream (snd (sendMessage this request None env)) = false /\
  (forall handle would_stream,
     sendMessage this request None
       (mkPlatform handle would_stream (fetch_handle env) (fetch_inputs env)) =
     sendMessage this request None env).
Proof.
  pose proof (post_opens_no_stream this (endpoint this) request content_type
                (fetch_handle env) (fetch_inputs env)) as Hnone.
  unfold sendMessage.
  destruct (sendMessageNonStreaming this (endpoint this) request content_type
              (fetch_handle env) (fetch_inputs env)) as [fs t] eqn:E.
  split; [reflexivity|]. split; [exact Hnone|].
  intros. cbn [fetch_handle fetch_inputs]. now rewrite E.
Qed.

(** C6. A message whose payload does not parse changes nothing: the state
    after it (promise, accumulated answer, identifier, connection, timer) is
    the state before it, and all it does is write to the console.  Hence an
    attempt that receives such a message anywhere ends in the state it would
    have ended in without it, with the same calls of the callback and the
    same actions otherwise: the messages after it are processed as before. *)
Theorem C6_unparseable_message_is_ignored
    version this url request headers onChunk h before after st :
  let attempt :=
    sendMessageWithStreaming version this url request headers onChunk h in
  exec (deliver version request onChunk (OnMessage Unparseable)) st =
    (st, if closed st then [] else [ConsoleError "Error parsing SSE data:"]) /\
  fst (attempt (before ++ OnMessage Unparseable :: after)) =
    fst (attempt (before ++ after)) /\
  without_logs (snd (attempt (before ++ OnMessage Unparseable :: after))) =
    without_logs (snd (attempt (before ++ after))) /\
  chunks (snd (attempt (before ++ OnMessage Unparseable :: after))) =
    chunks (snd (attempt (before ++ after))).
Proof.
  intros attempt. split; [apply step_unparsed; now left|].
  subst attempt. rewrite !stream_app.
  destruct (sendMessageWithStreaming version this url request headers onChunk h
              before) as [st1 t1].
  rewrite run_cons, step_unparsed by now left.
  destruct (exec (deliver_all version request onChunk after) st1) as [st2 t2].
  cbn [fst snd]. rewrite !without_logs_app, !chunks_app.
  destruct (closed st1); auto.
Qed.

(** The same with a payload that parses to [null]. *)
Lemma null_message_is_ignored version request onChunk st :
  exec (deliver version request onChunk (OnMessage JsonNull)) st =
  (st, if closed st then [] else [ConsoleError "Error parsing SSE data:"]).
Proof. apply step_unparsed. now right. Qed.

(** C7 as the specification words it fails for the POST.  The timer is
    cleared once the response has arrived, so the reading of the body is
    under no timer: with the timeout at 30000 ms, a response after 10 ms
    whose body has been read after 100000 ms is returned at 100000 ms, and a
    POST whose body never finishes stays pending for ever, beyond the reach
    of any expiry. *)
Lemma C7_body_read_outlives_the_timer :
  let post := timed_post local "/chat" hi content_type 2 in
  let late :=
    post [(10, FetchResolves 200);
          (100000, JsonResolves (ChatResponse "c2" "late"))]%N in
  let never := post [(10%N, FetchResolves 200)] in
  timeout local = 30000%N /\
  late =
    mkTimed (mkFetchState Finished Cleared 2 false
               (Fulfilled (ChatResponse "c2" "late"))) (Some 100000%N) /\
  ~ within (timeout local) late /\
  never = mkTimed (mkFetchState AwaitJson Cleared 2 false Pending) None /\
  ~ within (timeout local) never /\
  ~ fetch_bounded local (state_now never).
Proof.
  repeat split.
  - intros (t & Ht & Hle). injection Ht as <-. now apply Hle.
  - intros (t & Ht & _). discriminate Ht.
  - intros H. specialize (H eq_refl). discriminate H.
Qed.

(** C7, as the code has it.  Each attempt arms a timer of its own with the
    client's timeout when it starts.  (1) The streaming attempt, in either
    revision, keeps its timer armed for as long as its promise is pending;
    the expiry of the timer rejects it with [Error("Request timeout")]; and
    against the clock it always settles within the timeout of its start.
    (2) The POST arms its timer with the full timeout whenever it is issued;
    the timer stays armed while [fetch] is awaited, and its expiry then
    aborts the call and makes the function throw [Error("Request timeout")]:
    against the clock, a POST whose response has not arrived within the
    timeout throws at the timeout.  Once the response has arrived no timer
    is armed any more.  (3) After a streaming attempt that timed out,
    [sendMessage] runs such a POST, timer included, and returns its
    outcome. *)
Theorem C7_each_attempt_arms_its_own_timer this request onChunk env :
  let url := endpoint this in
  let streaming version :=
    sendMessageWithStreaming version this url request content_type onChunk
      (stream_handle env) in
  let post :=
    sendMessageNonStreaming this url request content_type (fetch_handle env) in
  (forall version script,
     (exists t,
        snd (streaming version script) =
        NewEventSource url (ChatRequest.message request)
          (opt_or_else (ChatRequest.conversationId request) "")
          (ChatRequest.history request) ::
        SetTimeout (timeout this) (stream_handle env) :: t) /\
     stream_bounded this (fst (streaming version script)) /\
     (promise (fst (streaming version script)) = Pending ->
      promise (fst (streaming version (script ++ [TimerFires]))) =
      Rejected (ThrowError (Error "Request timeout")))) /\
  (forall version arrivals,
     within (timeout this)
       (timed_stream version this url request onChunk (stream_handle env)
          arrivals)) /\
  (forall script,
     (exists t,
        snd (post script) =
        SetTimeout (timeout this) (fetch_handle env) ::
        Fetch url content_type request :: t) /\
     (suspended (fst (post script)) = AwaitFetch ->
      abort_timer (fst (post script)) = Armed (timeout this) /\
      outcome (fst (post (script ++ [AbortTimerFires]))) =
        Rejected (ThrowError (Error "Request timeout")) /\
      snd (post (script ++ [AbortTimerFires])) =
        snd (post script) ++ [Abort; ClearTimeout (fetch_handle env)]) /\
     (suspended (fst (post script)) <> AwaitFetch ->
      armed (abort_timer (fst (post script))) = false)) /\
  (forall arrivals,
     Forall (fun arrival => (timeout this <= fst arrival)%N) arrivals ->
     timed_post this url request content_type (fetch_handle env) arrivals =
     mkTimed
       (mkFetchState Finished Fired (fetch_handle env) true
          (Rejected (ThrowError (Error "Request timeout"))))
       (Some (timeout this))) /\
  (forall script,
     promise (fst (streaming Plain script)) = Pending ->
     stream_inputs env = script ++ [TimerFires] ->
     sendMessage this request (Some onChunk) env =
     (outcome (fst (post (fetch_inputs env))),
      snd (streaming Plain (script ++ [TimerFires])) ++
      ConsoleWarn "Streaming failed, falling back to non-streaming:"
        (ThrowError (Error "Request timeout")) ::
      snd (post (fetch_inputs env)))).
Proof.
  intros url streaming post. subst streaming post. repeat apply conj.
  - intros version script. split; [|split].
    + unfold sendMessageWithStreaming, open_stream.
      destruct (exec _ _) as [st t]. now exists t.
    + intros Hp.
      destruct (sendMessageWithStreaming version this url request content_type
                  onChunk (stream_handle env) script) as [st t] eqn:E.
      now destruct (stream_pending _ _ _ _ _ _ _ _ _ _ E Hp) as (_ & (_ & H & _) & _).
    + apply stream_expiry.
  - intros version arrivals. apply timed_stream_within.
  - intros script.
    destruct (sendMessageNonStreaming this url request content_type
                (fetch_handle env) script) as [fs t] eqn:E.
    destruct (http_invariant_holds _ _ _ _ _ _ fs t E) as [[Hh Hinv] (t' & -> & _)].
    cbn [fst snd]. split; [now exists t'|]. split.
    + intros Hs. rewrite Hs in Hinv. destruct Hinv as [Ht Hp].
      split; [assumption|]. rewrite http_app, E, http_cons.
      destruct fs as [a tm h ab p]. cbn in Hs, Ht, Hp, Hh. subst.
      rewrite http_expiry, http_finished by now split. now split.
    + intros Hs. destruct (suspended fs); try congruence;
        destruct Hinv as [Ht _]; try rewrite Ht; auto.
  - intros arrivals. apply timed_post_expires.
  - intros script Hp Hin.
    pose proof (stream_expiry Plain this url request content_type onChunk
                  (stream_handle env) script Hp) as Hr.
    rewrite <- Hin in *.
    destruct (sendMessageWithStreaming Plain this url request content_type
                onChunk (stream_handle env) (stream_inputs env)) as [st t] eqn:E.
    destruct (sendMessageNonStreaming this url request content_type
                (fetch_handle env) (fetch_inputs env)) as [fs t'] eqn:E'.
    exact (sendMessage_fallback this request onChunk env st t _ fs t' E Hr E').
Qed.

(** Both attempts time out, one after the other. *)
Lemma C7_two_expiries_witness :
  sendMessage local hi (Some noop) (mkPlatform 1 [TimerFires] 2 [AbortTimerFires]) =
  (Rejected (ThrowError (Error "Request timeout")),
   [NewEventSource "/chat" "hi" "" []; SetTimeout 30000 1;
    EventSourceClose; ClearTimeout 1; Reject (Error "Request timeout");
    ConsoleWarn "Streaming failed, falling back to non-streaming:"
      (ThrowError (Error "Request timeout"));
    SetTimeout 30000 2; Fetch "/chat" content_type hi;
    Abort; ClearTimeout 2]).
Proof.
  exact (proj2 (proj2 (proj2 (proj2
           (C7_each_attempt_arms_its_own_timer local hi noop
              (mkPlatform 1 [TimerFires] 2 [AbortTimerFires])))))
           [] eq_refl eq_refl).
Defined.

(** C8. Whenever [sendMessage] gets as far as the POST and the POST is
    answered with a status outside 200..299, [sendMessage] rejects with
    [Error("HTTP <status>: <text>")], where the status is in decimal and the
    text is the body the server sent, or ["Unknown error"] when the body
    could not be read.  Scenario C of the specification is the instance with
    status 500 and body ["server error"]. *)
Theorem C8_error_status_is_reported this request onChunk env status rest :
  (status < 200 \/ 299 < status)%N ->
  reaches_post this request onChunk env ->
  (forall text,
     fetch_inputs env = FetchResolves status :: TextResolves text :: rest ->
     fst (sendMessage this request onChunk env) =
     Rejected (ThrowError (Error ("HTTP " ++ decimal status ++ ": " ++ text)))) /\
  (forall reason,
     fetch_inputs env = FetchResolves status :: TextRejects reason :: rest ->
     fst (sendMessage this request onChunk env) =
     Rejected (ThrowError (Error ("HTTP " ++ decimal status ++ ": Unknown error")))).
Proof.
  intros Hs Hpost. rewrite (sendMessage_post this request onChunk env Hpost).
  split; intros x ->; now apply http_error_status.
Qed.

Lemma C8_scenario_C :
  fst (sendMessage local hi None
         (mkPlatform 1 [] 2 [FetchResolves 500; TextResolves "server error"])) =
  Rejected (ThrowError (Error "HTTP 500: server error")).
Proof.
  assert (H : (500 < 200 \/ 299 < 500)%N) by lia.
  exact (proj1 (C8_error_status_is_reported local hi None
                  (mkPlatform 1 [] 2 [FetchResolves 500; TextResolves "server error"])
                  500 [] H I) "server error" eq_refl).
Defined.

(** C9, as the code has it.  Each of the four exits of a streaming attempt
    that is still pending (a message that completes the stream or carries a
    non-empty error, the error event of the connection, the expiry of the
    timer) runs [cleanup] and then settles the promise, at once: the trace
    goes on with the fragment the message may carry, the releases, and the
    settling call, and the attempt is left closed, with no timer armed and
    its promise settled.  The releases are [eventSource.close()] followed by
    [clearTimeout(timeoutId)], with one exception: on expiry, where the timer
    has fired and is no longer pending, the second revision calls
    [cleanup(undefined)] and closes the connection only.  Conversely, a
    promise is never settled in another way: whenever it is settled, the
    trace ends with these releases and the settling call, and nothing was
    released or settled before. *)
Theorem C9_releases_precede_settlement
    version this url request headers onChunk h :
  let attempt :=
    sendMessageWithStreaming version this url request headers onChunk h in
  let cleaned (expired : bool) :=
    match version, expired with
    | Traced, true => [EventSourceClose]
    | _, _ => [EventSourceClose; ClearTimeout h]
    end in
  (forall before i after,
     promise (fst (attempt before)) = Pending ->
     i = OnError \/ i = TimerFires \/
     (exists e, i = OnMessage (Json e) /\ continues e = false) ->
     exists reported last,
       snd (attempt (before ++ i :: after)) =
         snd (attempt before) ++ reported ++
         cleaned match i with TimerFires => true | _ => false end ++ [last] /\
       forallb quiet (snd (attempt before) ++ reported) = true /\
       settles last = true /\
       over (fst (attempt (before ++ i :: after)))) /\
  (forall script,
     settled (promise (fst (attempt script))) = true ->
     closed (fst (attempt script)) = true /\
     armed (timer (fst (attempt script))) = false /\
     exists before last,
       snd (attempt script) =
         before ++
         cleaned match timer (fst (attempt script)) with
                 | Fired => true
                 | _ => false
                 end ++ [last] /\
       forallb quiet before = true /\ settles last = true).
Proof.
  intros attempt cleaned. subst attempt. split.
  - intros before i after Hp Hi. rewrite stream_app.
    destruct (sendMessageWithStreaming version this url request headers onChunk h
                before) as [st1 t1] eqn:E1.
    cbn [fst snd] in Hp |- *.
    destruct (stream_pending _ _ _ _ _ _ _ _ _ _ E1 Hp)
      as (Hh & (Hc & Htm & _) & Hq).
    rewrite run_cons.
    destruct Hi as [-> | [-> | (e & -> & He)]].
    + (* the error event of the connection *)
      rewrite (step_onerror version request onChunk st1 Hc).
      unfold settle. cbn [promise]. rewrite Hp, Htm, Hh. cbn [cancel].
      rewrite run_over by now repeat split. cbn [fst snd].
      exists [], (Reject (Error "SSE connection error")).
      rewrite !app_nil_r. subst cleaned.
      split; [now destruct version|]. now repeat split.
    + (* the expiry of the timer *)
      rewrite (step_timeout version request onChunk st1) by now rewrite Htm.
      unfold settle. cbn [promise]. rewrite Hp, Hh.
      rewrite run_over by now repeat split. cbn [fst snd].
      exists [], (Reject (Error "Request timeout")).
      rewrite !app_nil_r. subst cleaned.
      split; [now destruct version|]. now repeat split.
    + (* a message that fails or completes the stream *)
      destruct (classify e) as [(text & Herr & Htext) | [Hd | Hcont]].
      * rewrite (step_fails version request onChunk e text st1 Hc Herr Htext).
        unfold settle. cbn [promise]. rewrite Hp, Htm, Hh. cbn [cancel].
        rewrite run_over by now repeat split. cbn [fst snd].
        exists [], (Reject (Error text)).
        rewrite !app_nil_r. subst cleaned.
        split; [now destruct version|]. now repeat split.
      * rewrite (step_completes version request onChunk e st1 Hc Hd).
        unfold settle. cbn [promise]. rewrite Hp, Htm, Hh. cbn [cancel].
        rewrite run_over by now repeat split. cbn [fst snd].
        eexists (map OnChunk (fragments [e])), (Resolve _).
        rewrite !app_nil_r. subst cleaned. split.
        -- now destruct version.
        -- rewrite forallb_app, Hq, quiet_chunks. now repeat split.
      * rewrite Hcont in He. discriminate.
  - intros script Hs.
    destruct (sendMessageWithStreaming version this url request headers onChunk h
                script) as [st t] eqn:E.
    cbn [fst snd] in *.
    destruct (stream_invariant_holds version this request onChunk url headers h
                script st t E)
      as [_ [[(_ & _ & Hp) _] | [(Hc & Ha & _) (before & last & Ht & Hx)]]].
    + rewrite Hp in Hs. discriminate.
    + split; [exact Hc|]. split; [exact Ha|]. exists before, last.
      split; [|exact Hx]. rewrite Ht. subst cleaned. unfold released, releases.
      now destruct version, (timer st).
Qed.

Lemma C9_expiry_witness :
  let attempt (version : Revision) :=
    sendMessageWithStreaming version local "/chat" hi content_type noop 1 in
  exists reported last,
    snd (attempt Traced [OnMessage (Json (fragment "He")); TimerFires; OnError]) =
      snd (attempt Traced [OnMessage (Json (fragment "He"))]) ++ reported ++
      [EventSourceClose] ++ [last] /\
    forallb quiet (snd (attempt Traced [OnMessage (Json (fragment "He"))]) ++ reported)
      = true /\
    settles last = true /\
    over (fst (attempt Traced
                 [OnMessage (Json (fragment "He")); TimerFires; OnError])).
Proof.
  exact (proj1 (C9_releases_precede_settlement Traced local "/chat" hi
                  content_type noop 1)
           [OnMessage (Json (fragment "He"))] TimerFires [OnError] eq_refl
           (or_intror (or_introl eq_refl))).
Defined.

(** C9 as the specification words it, with both releases on every exit,
    fails on the expiry of the timer in the second revision: the timer
    callback calls [cleanup(undefined)], which closes the connection and does
    not call [clearTimeout]; the first revision calls both there. *)
Lemma C9_expiry_does_not_clear_the_timer :
  let attempt (version : Revision) :=
    sendMessageWithStreaming version local "/chat" hi content_type noop 1
      [TimerFires] in
  promise (fst (attempt Traced)) = Rejected (ThrowError (Error "Request timeout")) /\
  snd (attempt Traced) =
    [NewEventSource "/chat" "hi" "" []; SetTimeout 30000 1;
     EventSourceClose; Reject (Error "Request timeout")] /\
  existsb (fun e => match e with ClearTimeout _ => true | _ => false end)
    (snd (attempt Traced)) = false /\
  snd (attempt Plain) =
    [NewEventSource "/chat" "hi" "" []; SetTimeout 30000 1;
     EventSourceClose; ClearTimeout 1; Reject (Error "Request timeout")].
Proof. repeat split. Qed.

(** The four exits of the streaming attempt, in both revisions. *)
Example exit_by_completion version :
  snd (sendMessageWithStreaming version local "/chat" hi content_type noop 1
         [OnMessage (Json (SSEEvent.mk None None None (Some true)))]) =
  [NewEventSource "/chat" "hi" "" []; SetTimeout 30000 1;
   EventSourceClose; ClearTimeout 1; Resolve (ChatResponse "" "")].
Proof. destruct version; reflexivity. Qed.

Example exit_by_error_message version :
  snd (sendMessageWithStreaming version local "/chat" hi content_type noop 1
         [OnMessage (Json (SSEEvent.mk None None (Some "boom") None))]) =
  [NewEventSource "/chat" "hi" "" []; SetTimeout 30000 1;
   EventSourceClose; ClearTimeout 1; Reject (Error "boom")].
Proof. destruct version; reflexivity. Qed.

Example exit_by_connection_error version :
  snd (sendMessageWithStreaming version local "/chat" hi content_type noop 1
         [OnError]) =
  [NewEventSource "/chat" "hi" "" []; SetTimeout 30000 1;
   EventSourceClose; ClearTimeout 1; Reject (Error "SSE connection error")].
Proof. destruct version; reflexivity. Qed.

Example exit_by_expiry version :
  sendMessageWithStreaming version local "/chat" hi content_type noop 1
    [TimerFires] =
  (mkStreamState true Fired 1 "" ""
     (Rejected (ThrowError (Error "Request timeout"))),
   [NewEventSource "/chat" "hi" "" []; SetTimeout 30000 1; EventSourceClose] ++
   match version with Plain => [ClearTimeout 1] | Traced => [] end ++
   [Reject (Error "Request timeout")]).
Proof. destruct version; reflexivity. Qed.

(** C10. When the POST is answered with a status in 200..299, the function
    returns whatever [response.json()] produced, as it is: any JSON value at
    all, an object without [conversationId] or [answer] or with fields of
    other types included.  Nothing inspects the value. *)
Theorem C10_success_body_is_not_validated
    this url request headers h status data rest :
  (200 <= status <= 299)%N ->
  sendMessageNonStreaming this url request headers h
    (FetchResolves status :: JsonResolves data :: rest) =
  (mkFetchState Finished Cleared h false (Fulfilled data),
   [SetTimeout (timeout this) h; Fetch url headers request;
    ClearTimeout h; ResponseJson]).
Proof.
  intros [Hlo Hhi].
  assert (Hok : ok status = true).
  { unfold ok. apply andb_true_iff. split; now apply N.leb_le. }
  unfold sendMessageNonStreaming, start_fetch.
  rewrite http_cons, http_response, Hok. cbv iota.
  rewrite http_cons, http_json.
  rewrite http_finished by now split. reflexivity.
Qed.

Lemma C10_misshapen_body_witness :
  outcome (fst (sendMessageNonStreaming local "/chat" hi content_type 2
                  [FetchResolves 200;
                   JsonResolves (JObj [("conversationId", JNum 7)])])) =
  Fulfilled (JObj [("conversationId", JNum 7)]).
Proof.
  assert (H : (200 <= 200 <= 299)%N) by lia.
  exact (f_equal (fun r => outcome (fst r))
           (C10_success_body_is_not_validated local "/chat" hi content_type 2 200
              (JObj [("conversationId", JNum 7)]) [] H)).
Defined.

(** * Further properties of the client *)

Section StreamingFurther.

Variable version : Revision.
Variable this : AgentClient.
Variable request : ChatRequest.t.
Variable onChunk : string -> unit.

Lemma stream_action_chunks (l : list string) :
  forallb stream_action (map OnChunk l) = true.
Proof. induction l; simpl; auto. Qed.

(** Whatever the state, a delivery performs actions of the attempt only. *)
Lemma step_actions i st :
  forallb stream_action (snd (exec (deliver version request onChunk i) st)) = true.
Proof.
  destruct i as [[| |e]| |].
  - rewrite (step_unparsed version request onChunk Unparseable) by auto.
    now destruct (closed st).
  - rewrite (step_unparsed version request onChunk JsonNull) by auto.
    now destruct (closed st).
  - destruct (closed st) eqn:Hc.
    { unfold deliver, exec. now rewrite Hc. }
    destruct (classify e) as [(text & He & Htext) | [He | He]].
    + now rewrite (step_fails version request onChunk e text st Hc He Htext).
    + rewrite (step_completes version request onChunk e st Hc He). cbn [snd].
      rewrite forallb_app, stream_action_chunks. reflexivity.
    + rewrite (step_continues version request onChunk e st Hc He).
      apply stream_action_chunks.
  - destruct (closed st) eqn:Hc.
    { unfold deliver, exec. now rewrite Hc. }
    now rewrite (step_onerror version request onChunk st Hc).
  - destruct (armed (timer st)) eqn:Ha.
    + rewrite (step_timeout version request onChunk st Ha). cbn [snd].
      now destruct version.
    + unfold deliver, exec. now rewrite Ha.
Qed.

Lemma run_actions script st :
  forallb stream_action (snd (exec (deliver_all version request onChunk script) st)) = true.
Proof.
  revert st. induction script as [|i script IH]; intros st; [reflexivity|].
  rewrite (run_cons version request onChunk).
  pose proof (step_actions i st) as H1.
  destruct (exec (deliver version request onChunk i) st) as [st1 t1]. specialize (IH st1).
  destruct (exec (deliver_all version request onChunk script) st1) as [st2 t2]. cbn [snd] in *.
  now rewrite forallb_app, H1, IH.
Qed.

(** A streaming attempt creates its event source, arms its timer, and then
    performs actions of its own only. *)
Lemma stream_trace_shape url headers h script :
  exists t,
    snd (sendMessageWithStreaming version this url request headers onChunk h script)
    = NewEventSource url (ChatRequest.message request)
        (opt_or_else (ChatRequest.conversationId request) "")
        (ChatRequest.history request) ::
      SetTimeout (timeout this) h :: t /\
    forallb stream_action t = true.
Proof.
  unfold sendMessageWithStreaming, open_stream.
  pose proof (run_actions script
                (mkStreamState false (Armed (timeout this)) h "" "" Pending)) as H.
  destruct (exec (deliver_all version request onChunk script) _) as [st t]. now exists t.
Qed.

(** One delivery to a running attempt keeps the accumulated answer in step
    with what the callback was given. *)
Lemma step_reported i st t0 :
  running this st -> reported st t0 ->
  forall st1 t1, exec (deliver version request onChunk i) st = (st1, t1) -> reported st1 (t0 ++ t1).
Proof.
  intros (Hc & Ht & Hp) [Hacc _] st1 t1 E. unfold reported.
  rewrite chunks_app, concatenation_app.
  destruct i as [[| |e]| |].
  - rewrite (step_unparsed version request onChunk Unparseable) in E by auto.
    rewrite Hc in E. injection E as <- <-. simpl. rewrite append_empty_r, Hp. auto.
  - rewrite (step_unparsed version request onChunk JsonNull) in E by auto.
    rewrite Hc in E. injection E as <- <-. simpl. rewrite append_empty_r, Hp. auto.
  - destruct (classify e) as [(text & He & Htext) | [He | He]].
    + rewrite (step_fails version request onChunk e text st Hc He Htext) in E.
      unfold settle in E. cbn [promise] in E. rewrite Hp in E.
      injection E as <- <-. simpl. rewrite append_empty_r. auto.
    + rewrite (step_completes version request onChunk e st Hc He) in E.
      unfold settle in E. cbn [promise] in E. rewrite Hp in E.
      injection E as <- <-. cbn [accumulatedAnswer promise].
      rewrite !chunks_app, chunks_OnChunk.
      cbn [app chunks flat_map releases]. rewrite !app_nil_r, Hacc.
      split; [reflexivity|]. eexists. reflexivity.
    + rewrite (step_continues version request onChunk e st Hc He) in E.
      injection E as <- <-. cbn [accumulatedAnswer promise].
      rewrite chunks_OnChunk, Hacc, Hp. auto.
  - rewrite (step_onerror version request onChunk st Hc) in E.
    unfold settle in E. cbn [promise] in E. rewrite Hp in E.
    injection E as <- <-. simpl. rewrite append_empty_r. auto.
  - rewrite (step_timeout version request onChunk st) in E by now rewrite Ht.
    unfold settle in E. cbn [promise] in E. rewrite Hp in E.
    injection E as <- <-. cbn [accumulatedAnswer promise].
    destruct version; simpl; rewrite append_empty_r; auto.
Qed.

Lemma run_reported script st t0 :
  running this st -> reported st t0 ->
  forall st' t, exec (deliver_all version request onChunk script) st = (st', t) -> reported st' (t0 ++ t).
Proof.
  revert st t0. induction script as [|i script IH]; intros st t0 Hr Hrep st' t E.
  - rewrite run_nil in E. injection E as <- <-. now rewrite app_nil_r.
  - rewrite (run_cons version request onChunk) in E.
    destruct (exec (deliver version request onChunk i) st) as [st1 t1] eqn:E1.
    destruct (exec (deliver_all version request onChunk script) st1) as [st2 t2] eqn:E2. injection E as <- <-.
    pose proof (step_reported i st t0 Hr Hrep st1 t1 E1) as Hrep1.
    destruct (step_running version this request onChunk i st Hr st1 t1 E1)
      as [_ [[Hr1 _] | [Ho1 _]]].
    + rewrite app_assoc. exact (IH st1 (t0 ++ t1) Hr1 Hrep1 st2 t2 E2).
    + rewrite (run_over version request onChunk script st1 Ho1) in E2.
      injection E2 as <- <-. now rewrite app_nil_r.
Qed.

End StreamingFurther.

(** The answer and the callback of every streaming attempt. *)
Lemma stream_reported version this url request headers onChunk h script :
  reported
    (fst (sendMessageWithStreaming version this url request headers onChunk h script))
    (snd (sendMessageWithStreaming version this url request headers onChunk h script)).
Proof.
  unfold sendMessageWithStreaming.
  pose proof (open_stream_running this request url h) as Hr.
  assert (H0 : reported (fst (open_stream this url request h))
                 (snd (open_stream this url request h))) by now split.
  destruct (open_stream this url request h) as [st0 t0]. cbn [fst snd] in *.
  pose proof (run_reported version this request onChunk script st0 t0 Hr H0) as H.
  destruct (exec (deliver_all version request onChunk script) st0) as [st t].
  exact (H st t eq_refl).
Qed.

(** X1. At every moment of a streaming attempt, whatever the platform has
    delivered (messages, payloads that do not parse, errors, the expiry),
    the accumulated answer is the concatenation of the fragments the
    callback has been called with; and when the attempt resolves, the answer
    of its response is that concatenation. *)
Theorem X1_answer_is_what_the_callback_was_given
    version this url request headers onChunk h script :
  let attempt :=
    sendMessageWithStreaming version this url request headers onChunk h script in
  accumulatedAnswer (fst attempt) = concatenation (chunks (snd attempt)) /\
  (forall response,
     promise (fst attempt) = Fulfilled response ->
     exists identifier,
       response = ChatResponse identifier (concatenation (chunks (snd attempt)))).
Proof.
  intros attempt. subst attempt.
  destruct (stream_reported version this url request headers onChunk h script)
    as [Hacc Hp].
  split; [exact Hacc|]. intros response E. rewrite E in Hp.
  destruct Hp as [c ->]. exists c. now rewrite Hacc.
Qed.

Lemma X1_interleaved_witness :
  exists identifier,
    ChatResponse "c1" "Hello" = ChatResponse identifier (concatenation ["He"; "llo"]).
Proof.
  exact (proj2 (X1_answer_is_what_the_callback_was_given Plain local "/chat" hi
                  content_type noop 1
                  [OnMessage (Json (fragment "He")); OnMessage Unparseable;
                   OnMessage (Json (fragment "llo")); OnMessage JsonNull;
                   OnMessage (Json (SSEEvent.mk (Some "c1") None None (Some true)));
                   OnError])
           (ChatResponse "c1" "Hello") eq_refl).
Defined.

(** X2. The error event of the connection, at any point of an attempt that
    is still pending, ends the attempt: the connection and the timer are
    released, the promise is rejected with [Error("SSE connection error")],
    and nothing the platform holds after it is processed.  The fragments
    received before stay reported. *)
Theorem X2_connection_error_rejects
    version this url request headers onChunk h before after :
  let attempt :=
    sendMessageWithStreaming version this url request headers onChunk h in
  promise (fst (attempt before)) = Pending ->
  promise (fst (attempt (before ++ OnError :: after))) =
    Rejected (ThrowError (Error "SSE connection error")) /\
  over (fst (attempt (before ++ OnError :: after))) /\
  snd (attempt (before ++ OnError :: after)) =
    snd (attempt before) ++ releases h ++ [Reject (Error "SSE connection error")].
Proof.
  intros attempt Hp. subst attempt. rewrite stream_app.
  destruct (sendMessageWithStreaming version this url request headers onChunk h
              before) as [st1 t1] eqn:E1.
  cbn [fst snd] in Hp.
  destruct (stream_pending _ _ _ _ _ _ _ _ _ _ E1 Hp) as (Hh & (Hc & Htm & _) & Hq).
  rewrite run_cons, (step_onerror version request onChunk st1 Hc).
  unfold settle. cbn [promise]. rewrite Hp, Htm, Hh. cbn [cancel].
  rewrite run_over by now repeat split.
  cbn [fst snd promise]. rewrite app_nil_r. now repeat split.
Qed.

Lemma X2_connection_error_witness :
  let attempt :=
    sendMessageWithStreaming Plain local "/chat" hi content_type noop 1 in
  snd (attempt [OnMessage (Json (fragment "He")); OnError;
                OnMessage (Json (fragment "llo"))]) =
  [NewEventSource "/chat" "hi" "" []; SetTimeout 30000 1; OnChunk "He";
   EventSourceClose; ClearTimeout 1; Reject (Error "SSE connection error")].
Proof.
  exact (proj2 (proj2 (X2_connection_error_rejects Plain local "/chat" hi
                         content_type noop 1 [OnMessage (Json (fragment "He"))]
                         [OnMessage (Json (fragment "llo"))] eq_refl))).
Defined.

(** X3. A streaming attempt whose promise has settled is final: whatever
    the platform delivers afterwards (messages, errors, an expiry) changes
    neither its state nor its trace, so the promise is never settled twice
    and the callback is never called again. *)
Theorem X3_settled_attempt_is_final
    version this url request headers onChunk h script more :
  let attempt :=
    sendMessageWithStreaming version this url request headers onChunk h in
  settled (promise (fst (attempt script))) = true ->
  attempt (script ++ more) = attempt script.
Proof.
  intros attempt Hs. subst attempt. rewrite stream_app.
  destruct (sendMessageWithStreaming version this url request headers onChunk h
              script) as [st t] eqn:E.
  cbn [fst] in Hs.
  destruct (stream_invariant_holds version this request onChunk url headers h
              script st t E) as [_ [[(_ & _ & Hp) _] | [Ho _]]].
  - rewrite Hp in Hs. discriminate.
  - rewrite run_over by assumption. now rewrite app_nil_r.
Qed.

Lemma X3_settled_witness :
  sendMessageWithStreaming Traced local "/chat" hi content_type noop 1
    ([TimerFires] ++
     [OnMessage (Json (fragment "late")); OnError; TimerFires]) =
  sendMessageWithStreaming Traced local "/chat" hi content_type noop 1 [TimerFires].
Proof.
  exact (X3_settled_attempt_is_final Traced local "/chat" hi content_type noop 1
           [TimerFires]
           [OnMessage (Json (fragment "late")); OnError; TimerFires] eq_refl).
Defined.

(** X4. A message whose payload parses to [null] is treated like one that
    does not parse: reading [data.error] throws inside the handler's [try],
    the catch clause writes to the console, and the attempt goes on as if the
    message had not arrived. *)
Theorem X4_null_message_is_ignored
    version this url request headers onChunk h before after :
  let attempt :=
    sendMessageWithStreaming version this url request headers onChunk h in
  fst (attempt (before ++ OnMessage JsonNull :: after)) =
    fst (attempt (before ++ after)) /\
  without_logs (snd (attempt (before ++ OnMessage JsonNull :: after))) =
    without_logs (snd (attempt (before ++ after))) /\
  chunks (snd (attempt (before ++ OnMessage JsonNull :: after))) =
    chunks (snd (attempt (before ++ after))).
Proof.
  intros attempt. subst attempt. rewrite !stream_app.
  destruct (sendMessageWithStreaming version this url request headers onChunk h
              before) as [st1 t1].
  rewrite run_cons, null_message_is_ignored.
  destruct (exec (deliver_all version request onChunk after) st1) as [st2 t2].
  cbn [fst snd]. rewrite !without_logs_app, !chunks_app.
  destruct (closed st1); auto.
Qed.

(** ** What the POST throws *)

(** One delivery to the POST never makes its promise reject with something
    that is no [Error]. *)
Lemma http_step_errors i st :
  rejects_with_Error (outcome st) ->
  rejects_with_Error (outcome (fst (exec (deliver_http i) st))).
Proof.
  destruct st as [a tm h ab p]. cbn [outcome]. intros H.
  unfold deliver_http, exec. cbn [suspended abort_timer].
  destruct i as [status|reason|text|reason|data|reason|];
    destruct a as [|status'| |]; cbn [ret fst outcome];
    try exact H; try exact I;
    try (unfold after_text;
         match goal with
         | |- context [catch_clause ?r ?s] =>
             let Hc := fresh "Hc" in
             destruct (catch_clause_throws r s) as [e Hc]; rewrite Hc
         end; exact I);
    try (unfold after_fetch; simpl; destruct (ok status); exact H);
    destruct tm; simpl; auto.
Qed.

Lemma http_run_errors script st :
  rejects_with_Error (outcome st) ->
  rejects_with_Error (outcome (fst (exec (deliver_http_all script) st))).
Proof.
  revert st. induction script as [|i script IH]; intros st H; [exact H|].
  rewrite http_cons. pose proof (http_step_errors i st H) as H1.
  destruct (exec (deliver_http i) st) as [st1 t1]. specialize (IH st1 H1).
  destruct (exec (deliver_http_all script) st1) as [st2 t2]. exact IH.
Qed.

Lemma post_rejects_with_Error this url request headers h script :
  rejects_with_Error
    (outcome (fst (sendMessageNonStreaming this url request headers h script))).
Proof.
  unfold sendMessageNonStreaming, start_fetch.
  pose proof (http_run_errors script
                (mkFetchState AwaitFetch (Armed (timeout this)) h false Pending) I)
    as H.
  destruct (exec (deliver_http_all script) _) as [st t]. exact H.
Qed.

Lemma through_span_errors (p : Promise JsValue) :
  rejects_with_Error p -> rejects_with_Error (through_span p).
Proof.
  destruct p as [|response|[e|v]]; simpl; auto.
  now destruct (answer_length_readable response).
Qed.

(** The three ways through the catch clause of the POST. *)
Lemma catch_clause_cases reason st :
  catch_clause reason st =
  (tt,
   finish
     (Rejected
        (ThrowError
           match reason with
           | ThrowError e =>
               if name e =? "AbortError" then Error "Request timeout" else e
           | ThrowOther _ => Error "Unknown error occurred"
           end))
     (set_abort_timer (cancel (abort_timer st)) st),
   [ClearTimeout (abort_timeoutId st)]).
Proof.
  destruct reason as [e|v];
    cbv [catch_clause bind clearTimeout_fetch gets emit modify throw];
    [destruct (name e =? "AbortError")%string|]; reflexivity.
Qed.

(** [fetch] rejects. *)
Lemma http_fetch_rejects this url request headers h reason rest :
  sendMessageNonStreaming this url request headers h (FetchRejects reason :: rest) =
  (mkFetchState Finished Cleared h false
     (Rejected
        (ThrowError
           match reason with
           | ThrowError e =>
               if name e =? "AbortError" then Error "Request timeout" else e
           | ThrowOther _ => Error "Unknown error occurred"
           end)),
   [SetTimeout (timeout this) h; Fetch url headers request; ClearTimeout h]).
Proof.
  unfold sendMessageNonStreaming, start_fetch. rewrite http_cons.
  change (exec (deliver_http (FetchRejects reason))
            (mkFetchState AwaitFetch (Armed (timeout this)) h false Pending))
    with (let '(_, st', t) :=
            catch_clause reason
              (mkFetchState AwaitFetch (Armed (timeout this)) h false Pending)
          in (st', t)).
  rewrite catch_clause_cases.
  rewrite http_finished by now split. reflexivity.
Qed.

(** [response.json()] rejects. *)
Lemma http_json_rejects this url request headers h status reason rest :
  ok status = true ->
  sendMessageNonStreaming this url request headers h
    (FetchResolves status :: JsonRejects reason :: rest) =
  (mkFetchState Finished Cleared h false
     (Rejected
        (ThrowError
           match reason with
           | ThrowError e =>
               if name e =? "AbortError" then Error "Request timeout" else e
           | ThrowOther _ => Error "Unknown error occurred"
           end)),
   [SetTimeout (timeout this) h; Fetch url headers request;
    ClearTimeout h; ResponseJson; ClearTimeout h]).
Proof.
  intros Hok. unfold sendMessageNonStreaming, start_fetch.
  rewrite http_cons, http_response, Hok; cbv iota. rewrite http_cons.
  change (exec (deliver_http (JsonRejects reason))
            (mkFetchState AwaitJson Cleared h false Pending))
    with (let '(_, st', t) :=
            catch_clause reason (mkFetchState AwaitJson Cleared h false Pending)
          in (st', t)).
  rewrite catch_clause_cases.
  rewrite http_finished by now split. reflexivity.
Qed.

(** Neither revision rejects with a value that is no [Error]. *)
Lemma sendMessage_rejects_with_Error this request onChunk env :
  rejects_with_Error (fst (sendMessage this request onChunk env)) /\
  rejects_with_Error (fst (sendMessage_traced this request onChunk env)).
Proof.
  assert (H : rejects_with_Error (fst (sendMessage this request onChunk env))).
  { pose proof (post_rejects_with_Error this (endpoint this) request content_type
                  (fetch_handle env) (fetch_inputs env)) as Hpost.
    unfold sendMessage. destruct onChunk as [f|].
    - destruct (sendMessageWithStreaming Plain _ _ _ _ _ _ _) as [st t].
      destruct (promise st) as [|response|error]; try exact I.
      now destruct (sendMessageNonStreaming _ _ _ _ _ _) as [fs t2].
    - now destruct (sendMessageNonStreaming _ _ _ _ _ _) as [fs t2]. }
  split; [exact H|].
  rewrite sendMessage_traced_result. now apply through_span_errors.
Qed.

(** X5. Whatever the platform does, [sendMessage] never rejects with a
    value that is no [Error], in either revision: every rejection of the
    streaming attempt is replaced by the outcome of the POST, and the catch
    clause of the POST wraps whatever is no [Error]. *)
Theorem X5_rejections_are_Errors this request onChunk env :
  rejects_with_Error (fst (sendMessage this request onChunk env)) /\
  rejects_with_Error (fst (sendMessage_traced this request onChunk env)).
Proof. apply sendMessage_rejects_with_Error. Qed.

(** X6. What the catch clause of the POST makes of a failure of [fetch] or
    of [response.json()]: an [Error] whose name is not ["AbortError"] is
    thrown on unchanged; an [Error] named ["AbortError"] is reported as
    [Error("Request timeout")] whether or not the timer has expired; anything
    that is no [Error] becomes [Error("Unknown error occurred")].  In each
    case the timer is cleared and nothing that arrives later is processed. *)
Theorem X6_failures_of_the_POST
    this url request headers h status (e : JsError) rest :
  name e <> "AbortError" ->
  (200 <= status <= 299)%N ->
  let post := sendMessageNonStreaming this url request headers h in
  let start := [SetTimeout (timeout this) h; Fetch url headers request] in
  post (FetchRejects (ThrowError e) :: rest) =
    (mkFetchState Finished Cleared h false (Rejected (ThrowError e)),
     start ++ [ClearTimeout h]) /\
  post (FetchResolves status :: JsonRejects (ThrowError e) :: rest) =
    (mkFetchState Finished Cleared h false (Rejected (ThrowError e)),
     start ++ [ClearTimeout h; ResponseJson; ClearTimeout h]) /\
  (forall text,
     outcome (fst (post (FetchRejects (ThrowError (mkJsError "AbortError" text))
                           :: rest))) =
     Rejected (ThrowError (Error "Request timeout"))) /\
  (forall v,
     outcome (fst (post (FetchRejects (ThrowOther v) :: rest))) =
     Rejected (ThrowError (Error "Unknown error occurred")) /\
     outcome (fst (post (FetchResolves status :: JsonRejects (ThrowOther v)
                           :: rest))) =
     Rejected (ThrowError (Error "Unknown error occurred"))).
Proof.
  intros Hname Hstatus post start. subst post start.
  apply String.eqb_neq in Hname.
  assert (Hok : ok status = true).
  { unfold ok. apply andb_true_iff. split; apply N.leb_le; lia. }
  repeat split; try intros x;
    rewrite ?http_fetch_rejects, ?(http_json_rejects _ _ _ _ _ _ _ _ Hok),
      ?Hname; reflexivity.
Qed.

Lemma X6_failed_to_fetch_witness :
  sendMessageNonStreaming local "/chat" hi content_type 2
    [FetchRejects (ThrowError (mkJsError "TypeError" "Failed to fetch"));
     FetchResolves 200] =
  (mkFetchState Finished Cleared 2 false
     (Rejected (ThrowError (mkJsError "TypeError" "Failed to fetch"))),
   [SetTimeout 30000 2; Fetch "/chat" content_type hi] ++ [ClearTimeout 2]).
Proof.
  assert (Hname : name (mkJsError "TypeError" "Failed to fetch") <> "AbortError")
    by discriminate.
  assert (Hstatus : (200 <= 200 <= 299)%N) by lia.
  exact (proj1 (X6_failures_of_the_POST local "/chat" hi content_type 2 200
                  (mkJsError "TypeError" "Failed to fetch") [FetchResolves 200]
                  Hname Hstatus)).
Defined.

(** ** The traces of [sendMessage] *)

Lemma filter_excluded {A} (p q : A -> bool) (l : list A) :
  (forall x, q x = true -> p x = false) ->
  forallb q l = true -> filter p l = [].
Proof.
  intros H. induction l as [|x l IH]; [reflexivity|]. simpl. intros Hq.
  apply andb_true_iff in Hq. destruct Hq as [Hx Hq].
  now rewrite (H x Hx), (IH Hq).
Qed.

Lemma stream_transports version this url request headers onChunk h script :
  filter transport
    (snd (sendMessageWithStreaming version this url request headers onChunk h script))
  = [NewEventSource url (ChatRequest.message request)
       (opt_or_else (ChatRequest.conversationId request) "")
       (ChatRequest.history request)].
Proof.
  destruct (stream_trace_shape version this request onChunk url headers h script)
    as (t & -> & Ht).
  cbn [filter transport]. f_equal.
  apply (filter_excluded transport stream_action); [|exact Ht].
  now intros [].
Qed.

Lemma post_transports this url request headers h script :
  filter transport (snd (sendMessageNonStreaming this url request headers h script))
  = [Fetch url headers request].
Proof.
  destruct (sendMessageNonStreaming this url request headers h script)
    as [fs t] eqn:E.
  destruct (http_invariant_holds _ _ _ _ _ _ fs t E) as [_ (t' & -> & Hq)].
  cbn [snd filter transport]. f_equal.
  apply (filter_excluded transport http_action); [|exact Hq].
  now intros [].
Qed.

Lemma transport_essential (t : list Effect) :
  filter transport (essential t) = filter transport t.
Proof.
  induction t as [|e t IH]; [reflexivity|].
  destruct e; simpl; now rewrite ?IH.
Qed.

Lemma post_chunks this url request headers h script :
  chunks (snd (sendMessageNonStreaming this url request headers h script)) = [].
Proof.
  destruct (sendMessageNonStreaming this url request headers h script)
    as [fs t] eqn:E.
  destruct (http_invariant_holds _ _ _ _ _ _ fs t E) as [_ (t' & -> & Hq)].
  cbn [snd]. change (chunks t' = []). clear E.
  induction t' as [|e t' IH]; [reflexivity|].
  simpl in Hq. apply andb_true_iff in Hq. destruct Hq as [He Hq].
  destruct e; try discriminate; exact (IH Hq).
Qed.

(** Messages that neither fail nor complete, and then the error event of
    the connection. *)
Lemma stream_breaks version this url request headers onChunk h pre rest :
  forallb continues pre = true ->
  sendMessageWithStreaming version this url request headers onChunk h
    (messages pre ++ OnError :: rest) =
  (mkStreamState true Cleared h (concatenation (fragments pre)) (latest "" pre)
     (Rejected (ThrowError (Error "SSE connection error"))),
   snd (open_stream this url request h) ++
   map OnChunk (fragments pre) ++ releases h ++
   [Reject (Error "SSE connection error")]).
Proof.
  intros Hpre. unfold sendMessageWithStreaming, open_stream.
  rewrite run_app, run_continues by (reflexivity || assumption).
  cbn [closed timer timeoutId accumulatedAnswer conversationId promise].
  rewrite run_cons, step_onerror by reflexivity.
  cbn [closed timer timeoutId accumulatedAnswer conversationId promise settle cancel].
  rewrite run_over by (repeat split).
  cbn [snd String.append]. now rewrite !app_nil_r.
Qed.

(** X7. One call of [sendMessage], in either revision, reaches the server
    at most twice and in a fixed order: without a callback by one POST; with
    a callback by one event source, followed by one POST exactly when the
    streaming attempt has rejected.  Both carry the same URL and the same
    request; nothing is retried. *)
Theorem X7_one_stream_then_one_POST this request onChunk env :
  let stream :=
    NewEventSource (endpoint this) (ChatRequest.message request)
      (opt_or_else (ChatRequest.conversationId request) "")
      (ChatRequest.history request) in
  let post := Fetch (endpoint this) content_type request in
  filter transport (snd (sendMessage this request onChunk env)) =
    match onChunk with
    | None => [post]
    | Some f =>
        match promise (fst (sendMessageWithStreaming Plain this (endpoint this)
                              request content_type f (stream_handle env)
                              (stream_inputs env))) with
        | Rejected _ => [stream; post]
        | _ => [stream]
        end
    end /\
  filter transport (snd (sendMessage_traced this request onChunk env)) =
  filter transport (snd (sendMessage this request onChunk env)).
Proof.
  intros stream post. split.
  - pose proof (post_transports this (endpoint this) request content_type
                  (fetch_handle env) (fetch_inputs env)) as Hpost.
    unfold sendMessage. destruct onChunk as [f|].
    + pose proof (stream_transports Plain this (endpoint this) request content_type
                    f (stream_handle env) (stream_inputs env)) as Hs.
      destruct (sendMessageWithStreaming Plain _ _ _ _ _ _ _) as [st t].
      cbn [fst snd] in *.
      destruct (promise st) as [|response|error]; try exact Hs.
      destruct (sendMessageNonStreaming _ _ _ _ _ _) as [fs t2].
      cbn [snd] in *. rewrite filter_app. cbn [filter transport].
      now rewrite Hs, Hpost.
    + now destruct (sendMessageNonStreaming _ _ _ _ _ _) as [fs t2].
  - now rewrite <- transport_essential, sendMessage_traced_trace,
      transport_essential.
Qed.

(** X8. The callback is called by the streaming attempt only: in either
    revision the fragments [sendMessage] hands to it are those of the
    streaming attempt, and a POST that follows adds none.  So when the
    connection breaks after some fragments, these have been handed over, and
    the result is nevertheless the outcome of the POST alone. *)
Theorem X8_fallback_keeps_the_fragments_reported this request onChunk env pre rest :
  forallb continues pre = true ->
  stream_inputs env = messages pre ++ OnError :: rest ->
  chunks (snd (sendMessage this request (Some onChunk) env)) = fragments pre /\
  chunks (snd (sendMessage_traced this request (Some onChunk) env)) = fragments pre /\
  fst (sendMessage this request (Some onChunk) env) =
    outcome (fst (sendMessageNonStreaming this (endpoint this) request content_type
                    (fetch_handle env) (fetch_inputs env))).
Proof.
  intros Hpre Hin.
  pose proof (stream_breaks Plain this (endpoint this) request content_type onChunk
                (stream_handle env) pre rest Hpre) as E.
  rewrite <- Hin in E.
  pose proof (post_chunks this (endpoint this) request content_type
                (fetch_handle env) (fetch_inputs env)) as Hpost.
  assert (H : chunks (snd (sendMessage this request (Some onChunk) env)) =
              fragments pre).
  { unfold sendMessage. rewrite E. cbn [promise].
    destruct (sendMessageNonStreaming _ _ _ _ _ _) as [fs t2].
    cbn [snd open_stream] in *.
    match goal with
    | |- context [?w :: t2] => change (w :: t2) with ([w] ++ t2)
    end.
    rewrite !chunks_app, chunks_OnChunk, Hpost. simpl.
    now rewrite !app_nil_r. }
  split; [exact H|]. split.
  - now rewrite <- chunks_essential, sendMessage_traced_trace, chunks_essential.
  - unfold sendMessage. rewrite E. cbn [promise].
    now destruct (sendMessageNonStreaming _ _ _ _ _ _) as [fs t2].
Qed.

Lemma X8_broken_stream_witness :
  let env :=
    mkPlatform 1 (messages [fragment "He"] ++ OnError :: [])
      2 [FetchResolves 200; JsonResolves (ChatResponse "c2" "Hi there")] in
  chunks (snd (sendMessage local hi (Some noop) env)) = ["He"] /\
  chunks (snd (sendMessage_traced local hi (Some noop) env)) = ["He"] /\
  fst (sendMessage local hi (Some noop) env) =
    Fulfilled (ChatResponse "c2" "Hi there").
Proof.
  exact (X8_fallback_keeps_the_fragments_reported local hi noop
           (mkPlatform 1 (messages [fragment "He"] ++ OnError :: [])
              2 [FetchResolves 200; JsonResolves (ChatResponse "c2" "Hi there")])
           [fragment "He"] [] eq_refl eq_refl).
Defined.

(** X9. The second revision against the first, on every platform
    behaviour: it opens the same connections, issues the same requests and
    calls the callback with the same fragments in the same order (the traces
    agree up to calls on the span and of [clearTimeout]); its result is the
    result of the first revision, except that a fulfilled value whose
    [answer] has no readable [length] is turned into a rejection with a
    [TypeError]; and this never happens to a streamed response. *)
Theorem X9_second_revision_against_first this request onChunk env :
  fst (sendMessage_traced this request onChunk env) =
    through_span (fst (sendMessage this request onChunk env)) /\
  essential (snd (sendMessage_traced this request onChunk env)) =
    essential (snd (sendMessage this request onChunk env)) /\
  match onChunk with
  | Some f =>
      match promise (fst (sendMessageWithStreaming Plain this (endpoint this)
                            request content_type f (stream_handle env)
                            (stream_inputs env))) with
      | Fulfilled response =>
          fst (sendMessage_traced this request onChunk env) = Fulfilled response
      | _ => True
      end
  | None => True
  end.
Proof.
  split; [apply sendMessage_traced_result|].
  split; [apply sendMessage_traced_trace|].
  destruct onChunk as [f|]; [|exact I].
  rewrite sendMessage_traced_result. unfold sendMessage.
  pose proof (stream_fulfils_ChatResponse Plain this (endpoint this) request
                content_type f (stream_handle env) (stream_inputs env)) as Ho.
  destruct (sendMessageWithStreaming Plain _ _ _ _ _ _ _) as [st t].
  cbn [fst] in *.
  destruct (promise st) as [|response|error]; try exact I.
  now destruct Ho as (c & a & ->).
Qed.

Lemma span_end_stream version this url request headers onChunk h script :
  filter span_end
    (snd (sendMessageWithStreaming version this url request headers onChunk h script))
  = [].
Proof.
  destruct (stream_trace_shape version this request onChunk url headers h script)
    as (t & -> & Ht).
  cbn [filter span_end].
  apply (filter_excluded span_end stream_action); [|exact Ht].
  now intros [].
Qed.

Lemma span_end_post this url request headers h script :
  filter span_end (snd (sendMessageNonStreaming this url request headers h script))
  = [].
Proof.
  destruct (sendMessageNonStreaming this url request headers h script)
    as [fs t] eqn:E.
  destruct (http_invariant_holds _ _ _ _ _ _ fs t E) as [_ (t' & -> & Hq)].
  cbn [snd filter span_end].
  apply (filter_excluded span_end http_action); [|exact Hq].
  now intros [].
Qed.

(** The span of the non-streaming part: ended last, and once, when the POST
    has settled, and not before. *)
Lemma non_streaming_traced_span this request env before :
  filter span_end before = [] ->
  match fst (non_streaming_traced this request env before) with
  | Pending => filter span_end (snd (non_streaming_traced this request env before)) = []
  | _ =>
      exists t,
        snd (non_streaming_traced this request env before) = t ++ [Span "end"] /\
        filter span_end t = []
  end.
Proof.
  intros Hb. unfold non_streaming_traced.
  pose proof (span_end_post this (endpoint this) request content_type
                (fetch_handle env) (fetch_inputs env)) as Hpost.
  destruct (sendMessageNonStreaming _ _ _ _ _ _) as [fs t]. cbn [snd] in Hpost.
  destruct (outcome fs) as [|response|error];
    [|destruct (answer_length_readable response)|]; cbn [fst snd].
  - now rewrite !filter_app, Hb, Hpost.
  - exists (before ++ t ++
            [Span "setStatus OK"; Span "setAttribute chat.responseLength"]).
    split; [now rewrite <- !app_assoc|].
    now rewrite !filter_app, Hb, Hpost.
  - exists (before ++ t ++
            [Span "setStatus OK"; Span "setStatus ERROR"; Span "recordException"]).
    split; [now rewrite <- !app_assoc|].
    now rewrite !filter_app, Hb, Hpost.
  - exists (before ++ t ++ [Span "setStatus ERROR"; Span "recordException"]).
    split; [now rewrite <- !app_assoc|].
    now rewrite !filter_app, Hb, Hpost.
Qed.

(** X10. In the second revision the span of a call is ended exactly once,
    as the last action of the call, whenever the call has settled, fulfilled
    or rejected, with or without a fallback; and it is not ended while the
    call is pending. *)
Theorem X10_span_is_ended_exactly_once this request onChunk env :
  match fst (sendMessage_traced this request onChunk env) with
  | Pending =>
      filter span_end (snd (sendMessage_traced this request onChunk env)) = []
  | _ =>
      exists t,
        snd (sendMessage_traced this request onChunk env) = t ++ [Span "end"] /\
        filter span_end t = []
  end.
Proof.
  unfold sendMessage_traced. destruct onChunk as [f|].
  - pose proof (span_end_stream Traced this (endpoint this) request content_type f
                  (stream_handle env) (stream_inputs env)) as Hs.
    destruct (sendMessageWithStreaming Traced _ _ _ _ _ _ _) as [st t1].
    cbn [snd] in Hs.
    destruct (promise st) as [|response|error];
      [|destruct (answer_length_readable response)|].
    + cbn [fst snd]. now rewrite !filter_app, Hs.
    + cbn [fst snd].
      exists (span_start ++ t1 ++
              [Span "setStatus OK"; Span "setAttribute chat.responseLength"]).
      split; [unfold span_return; now rewrite <- !app_assoc|].
      now rewrite !filter_app, Hs.
    + apply non_streaming_traced_span. now rewrite !filter_app, Hs.
    + apply non_streaming_traced_span. now rewrite !filter_app, Hs.
  - now apply non_streaming_traced_span.
Qed.

(** * Properties of telemetry.ts *)

Section Extraction.

Import Telemetry.

Variable literal : string.

Lemma strip_prefix_append (rest : string) :
  strip_prefix literal (literal ++ rest) = Some rest.
Proof.
  induction literal as [|a l IH]; [reflexivity|].
  simpl. now rewrite Ascii.eqb_refl.
Qed.

Lemma strip_prefix_sound (s rest : string) :
  strip_prefix literal s = Some rest -> s = (literal ++ rest)%string.
Proof.
  revert s. induction literal as [|a l IH]; intros s; simpl.
  - now intros [= ->].
  - destruct s as [|b s]; [discriminate|].
    destruct (Ascii.eqb a b) eqn:E; [|discriminate].
    apply Ascii.eqb_eq in E. subst b. intros H. now rewrite (IH s H).
Qed.

Lemma value_run_unbroken (s : string) : unbroken (value_run s).
Proof.
  unfold unbroken. induction s as [|c s IH]; [reflexivity|].
  simpl. destruct (Ascii.eqb c ";") eqn:E; [reflexivity|].
  simpl. now rewrite E, IH.
Qed.

Lemma value_run_split (s : string) :
  exists post, s = (value_run s ++ post)%string /\ at_break post.
Proof.
  unfold at_break. induction s as [|c s IH].
  - now exists ""%string.
  - simpl. destruct (Ascii.eqb c ";") eqn:E.
    + exists (String c s). simpl. now rewrite E.
    + destruct IH as (post & Hs & Hb). exists post. simpl. now rewrite <- Hs.
Qed.

Lemma match_here_sound (s v : string) :
  match_here literal s = Some v ->
  exists post,
    s = (literal ++ v ++ post)%string /\ truthy v = true /\ unbroken v /\
    at_break post.
Proof.
  unfold match_here. destruct (strip_prefix literal s) as [rest|] eqn:E;
    [|discriminate].
  destruct (truthy (value_run rest)) eqn:Ht; [|discriminate].
  intros [= <-]. apply strip_prefix_sound in E.
  destruct (value_run_split rest) as (post & Hrest & Hb).
  exists post. rewrite <- Hrest. auto using value_run_unbroken.
Qed.

Lemma match_here_none (s rest : string) :
  match_here literal s = None -> s = (literal ++ rest)%string -> at_break rest.
Proof.
  unfold match_here. intros H ->. rewrite strip_prefix_append in H.
  unfold at_break. destruct (truthy (value_run rest)) eqn:Ht; [discriminate|].
  now apply truthy_false.
Qed.

(** What the match returns, for every string: group 1 of the leftmost
    occurrence of the literal that is followed by something other than a
    semicolon; [null] when there is no such occurrence. *)
Lemma regex_group_spec (s : string) :
  match regex_group literal s with
  | Some v =>
      exists pre post,
        s = (pre ++ literal ++ v ++ post)%string /\
        truthy v = true /\ unbroken v /\ at_break post /\
        forall pre' rest,
          s = (pre' ++ literal ++ rest)%string ->
          String.length pre' < String.length pre -> at_break rest
  | None =>
      forall pre rest, s = (pre ++ literal ++ rest)%string -> at_break rest
  end.
Proof.
  induction s as [|c s IH]; simpl.
  - destruct (match_here literal "") as [v|] eqn:E.
    + destruct (match_here_sound _ _ E) as (post & Hs & Ht & Hu & Hb).
      exists ""%string, post. repeat split; auto. simpl. intros; lia.
    + intros pre rest H. destruct pre; [|discriminate].
      exact (match_here_none _ _ E H).
  - destruct (match_here literal (String c s)) as [v|] eqn:E.
    + destruct (match_here_sound _ _ E) as (post & Hs & Ht & Hu & Hb).
      exists ""%string, post. repeat split; auto. simpl. intros; lia.
    + destruct (regex_group literal s) as [v|].
      * destruct IH as (pre & post & Hs & Ht & Hu & Hb & Hleft).
        exists (String c pre), post. simpl. rewrite <- Hs.
        repeat split; auto.
        intros [|c' pre'] rest H Hlen.
        -- exact (match_here_none _ _ E H).
        -- simpl in H. injection H as _ H. apply (Hleft pre' rest H).
           simpl in Hlen. lia.
      * intros [|c' pre'] rest H.
        -- exact (match_here_none _ _ E H).
        -- simpl in H. injection H as _ H. exact (IH pre' rest H).
Qed.

End Extraction.

(** X11. What the two extraction functions return, for every connection
    string whatsoever: the text after the leftmost occurrence of
    ["IngestionEndpoint="] (or ["InstrumentationKey="]) that is followed by
    at least one character other than a semicolon, up to the next semicolon
    or the end; it is never empty and contains no semicolon.  They return
    [null] only when every occurrence of the literal is followed by a
    semicolon or by the end of the string. *)
Theorem X11_extraction_returns_the_leftmost_value (connectionString : string) :
  let found (literal : string) (result : option string) :=
    match result with
    | Some v =>
        exists pre post,
          connectionString = (pre ++ literal ++ v ++ post)%string /\
          truthy v = true /\ Telemetry.unbroken v /\ Telemetry.at_break post /\
          forall pre' rest,
            connectionString = (pre' ++ literal ++ rest)%string ->
            String.length pre' < String.length pre -> Telemetry.at_break rest
    | None =>
        forall pre rest,
          connectionString = (pre ++ literal ++ rest)%string ->
          Telemetry.at_break rest
    end in
  found "IngestionEndpoint="%string
    (Telemetry.extractIngestionEndpoint connectionString) /\
  found "InstrumentationKey="%string
    (Telemetry.extractInstrumentationKey connectionString).
Proof.
  split.
  - exact (regex_group_spec "IngestionEndpoint=" connectionString).
  - exact (regex_group_spec "InstrumentationKey=" connectionString).
Qed.

Section Fields.

Import Telemetry.

Lemma plain_cons (c : ascii) (s : string) :
  plain (String c s) = true ->
  Ascii.eqb c ";" = false /\ Ascii.eqb c "=" = false /\ plain s = true.
Proof.
  simpl. intros H. apply andb_true_iff in H. destruct H as [H Hs].
  apply andb_true_iff in H. destruct H as [H1 H2].
  apply negb_true_iff in H1, H2. auto.
Qed.

(** The literal [key=] at the start of a field: it matches when the name of
    the field is the key. *)
Lemma strip_prefix_field (key k rest : string) :
  plain key = true -> plain k = true ->
  strip_prefix (key ++ "=") (k ++ "=" ++ rest) =
  if (key =? k)%string then Some rest else None.
Proof.
  revert k. induction key as [|a key IH]; intros k Hkey Hk.
  - destruct k as [|b k]; [reflexivity|].
    destruct (plain_cons _ _ Hk) as (_ & Hb & _).
    cbn [strip_prefix String.append String.eqb].
    rewrite Ascii.eqb_sym, Hb. reflexivity.
  - destruct (plain_cons _ _ Hkey) as (_ & Ha & Hkey').
    destruct k as [|b k].
    + cbn [strip_prefix String.append String.eqb]. now rewrite Ha.
    + destruct (plain_cons _ _ Hk) as (_ & _ & Hk').
      cbn [strip_prefix String.append String.eqb].
      destruct (Ascii.eqb a b); [now apply IH|reflexivity].
Qed.

(** Inside a value the literal does not match. *)
Lemma strip_prefix_value (key w t : string) :
  plain key = true -> plain w = true -> at_break t ->
  strip_prefix (key ++ "=") (w ++ t) = None.
Proof.
  unfold at_break. revert w. induction key as [|a key IH]; intros w Hkey Hw Ht.
  - destruct w as [|c w].
    + destruct t as [|c t]; [reflexivity|].
      cbn [value_run] in Ht. cbn [strip_prefix String.append].
      destruct (Ascii.eqb c ";") eqn:E; [|discriminate].
      apply Ascii.eqb_eq in E. now subst c.
    + destruct (plain_cons _ _ Hw) as (_ & Hc & _).
      cbn [strip_prefix String.append].
      now rewrite Ascii.eqb_sym, Hc.
  - destruct (plain_cons _ _ Hkey) as (Ha & _ & Hkey').
    destruct w as [|c w].
    + destruct t as [|c t]; [reflexivity|].
      cbn [value_run] in Ht. cbn [strip_prefix String.append].
      destruct (Ascii.eqb c ";") eqn:E; [|discriminate].
      apply Ascii.eqb_eq in E. subst c. now rewrite Ha.
    + destruct (plain_cons _ _ Hw) as (_ & _ & Hw').
      cbn [strip_prefix String.append].
      destruct (Ascii.eqb a c); [now apply IH|reflexivity].
Qed.

Lemma value_run_value (v t : string) :
  plain v = true -> at_break t -> value_run (v ++ t) = v.
Proof.
  unfold at_break. intros Hv Ht. induction v as [|c v IH]; [exact Ht|].
  destruct (plain_cons _ _ Hv) as (Hc & _ & Hv'). simpl.
  now rewrite Hc, (IH Hv').
Qed.

(** The matcher passes over a value. *)
Lemma regex_group_value (key w t : string) :
  plain key = true -> plain w = true -> at_break t ->
  regex_group (key ++ "=") (w ++ t) = regex_group (key ++ "=") t.
Proof.
  intros Hkey Hw Ht. induction w as [|c w IH]; [reflexivity|].
  destruct (plain_cons _ _ Hw) as (_ & _ & Hw').
  change (String c w ++ t)%string with (String c (w ++ t)).
  cbn [regex_group]. unfold match_here at 1.
  change (String c (w ++ t)) with (String c w ++ t)%string.
  rewrite (strip_prefix_value key (String c w) t Hkey Hw Ht). now apply IH.
Qed.

(** The matcher on one field and what follows it. *)
Lemma regex_group_field (key k v t : string) :
  plain key = true -> plain k = true -> plain v = true -> at_break t ->
  regex_group (key ++ "=") (k ++ "=" ++ v ++ t) =
  if ends_with key k && truthy v then Some v
  else regex_group (key ++ "=") t.
Proof.
  intros Hkey Hk Hv Ht.
  assert (Hhere : forall k', plain k' = true ->
            match_here (key ++ "=") (k' ++ "=" ++ v ++ t) =
            if (key =? k')%string && truthy v then Some v else None).
  { intros k' Hk'. unfold match_here.
    rewrite (strip_prefix_field key k' _ Hkey Hk').
    destruct (key =? k')%string; [|reflexivity]. cbv iota.
    rewrite (value_run_value v t Hv Ht). now destruct (truthy v). }
  induction k as [|c k IH].
  - change ("" ++ "=" ++ v ++ t)%string with (String "=" (v ++ t)).
    cbn [regex_group].
    change (String "=" (v ++ t)) with ("" ++ "=" ++ v ++ t)%string.
    rewrite (Hhere ""%string eq_refl). cbn [ends_with]. rewrite orb_false_r.
    destruct ((key =? "")%string && truthy v); [reflexivity|].
    now apply regex_group_value.
  - destruct (plain_cons _ _ Hk) as (_ & _ & Hk').
    change (String c k ++ "=" ++ v ++ t)%string
      with (String c (k ++ "=" ++ v ++ t)).
    cbn [regex_group].
    change (String c (k ++ "=" ++ v ++ t))
      with (String c k ++ "=" ++ v ++ t)%string.
    rewrite (Hhere (String c k) Hk), (IH Hk'). cbn [ends_with].
    destruct (key =? String c k)%string; simpl; [|reflexivity].
    destruct (truthy v); rewrite ?andb_false_r; reflexivity.
Qed.

Lemma regex_group_empty (key : string) : regex_group (key ++ "=") "" = None.
Proof. now destruct key. Qed.

Lemma regex_group_separator (key s : string) :
  plain key = true ->
  regex_group (key ++ "=") (";" ++ s) = regex_group (key ++ "=") s.
Proof.
  intros Hkey. change (";" ++ s)%string with (String ";" s).
  cbn [regex_group]. unfold match_here at 1.
  change (String ";" s) with ("" ++ String ";" s)%string.
  now rewrite (strip_prefix_value key "" (String ";" s) Hkey eq_refl eq_refl).
Qed.

(** On a list of fields the matcher returns the value of the first field
    whose name ends with the key and whose value is not empty. *)
Lemma regex_group_fields (key : string) (fields : list (string * string)) :
  plain key = true -> well_formed fields = true ->
  regex_group (key ++ "=") (connection_string fields) = field_value key fields.
Proof.
  intros Hkey. induction fields as [|[k v] fields IH]; intros Hwf.
  - apply regex_group_empty.
  - simpl in Hwf. apply andb_true_iff in Hwf. destruct Hwf as [Hkv Hwf].
    apply andb_true_iff in Hkv. destruct Hkv as [Hk Hv].
    destruct fields as [|f fields].
    + cbn [connection_string field_value].
      rewrite <- (append_empty_r v) at 1.
      rewrite (regex_group_field key k v "" Hkey Hk Hv eq_refl).
      now rewrite regex_group_empty.
    + change (connection_string ((k, v) :: f :: fields))
        with (k ++ "=" ++ v ++ ";" ++ connection_string (f :: fields))%string.
      assert (Hb : at_break (";" ++ connection_string (f :: fields)))
        by reflexivity.
      rewrite (regex_group_field key k v _ Hkey Hk Hv Hb).
      cbn [field_value].
      destruct (ends_with key k && truthy v); [reflexivity|].
      rewrite (regex_group_separator key _ Hkey). now apply IH.
Qed.

End Fields.

(** X12. On a connection string made of [name=value] fields separated by
    semicolons, where no name and no value contains a semicolon or an equals
    sign, each extraction function returns the value of the first field whose
    name ends with its key and whose value is not empty, wherever the field
    stands in the string; it returns [null] when there is no such field.  A
    field with an empty value is passed over. *)
Theorem X12_extraction_reads_the_field (fields : list (string * string)) :
  Telemetry.well_formed fields = true ->
  Telemetry.extractIngestionEndpoint (Telemetry.connection_string fields) =
    Telemetry.field_value "IngestionEndpoint" fields /\
  Telemetry.extractInstrumentationKey (Telemetry.connection_string fields) =
    Telemetry.field_value "InstrumentationKey" fields.
Proof.
  intros Hwf. split.
  - exact (regex_group_fields "IngestionEndpoint" fields eq_refl Hwf).
  - exact (regex_group_fields "InstrumentationKey" fields eq_refl Hwf).
Qed.

Lemma X12_connection_string_witness :
  let fields :=
    [("InstrumentationKey", "00000000-0000-0000-0000-000000000000");
     ("IngestionEndpoint", "https://westeurope-5.in.applicationinsights.azure.com/");
     ("LiveEndpoint", "https://westeurope.livediagnostics.monitor.azure.com/")]%string in
  Telemetry.extractIngestionEndpoint (Telemetry.connection_string fields) =
    Some "https://westeurope-5.in.applicationinsights.azure.com/"%string /\
  Telemetry.extractInstrumentationKey (Telemetry.connection_string fields) =
    Some "00000000-0000-0000-0000-000000000000"%string.
Proof.
  exact (X12_extraction_reads_the_field
           [("InstrumentationKey", "00000000-0000-0000-0000-000000000000");
            ("IngestionEndpoint",
             "https://westeurope-5.in.applicationinsights.azure.com/");
            ("LiveEndpoint",
             "https://westeurope.livediagnostics.monitor.azure.com/")]%string
           eq_refl).
Defined.

Section Initialisation.

Import Telemetry.

Variable throws : SdkCall -> option Thrown.

Lemma try_block_calls (calls : list SdkCall) :
  forallb (fun a => negb (console a)) (fst (try_block throws calls)) = true.
Proof.
  induction calls as [|call calls IH]; [reflexivity|]. simpl.
  destruct (throws call); [reflexivity|].
  destruct (try_block throws calls) as [t thrown]. exact IH.
Qed.

Lemma try_block_first (call : SdkCall) (calls : list SdkCall) :
  exists rest, fst (try_block throws (call :: calls)) = Sdk call :: rest.
Proof.
  simpl. destruct (throws call); [now exists []|].
  destruct (try_block throws calls) as [t thrown]. now exists t.
Qed.

Lemma field_value_truthy (key : string) (fields : list (string * string)) :
  truthy_value (field_value key fields) = field_value key fields.
Proof.
  induction fields as [|[k v] fields IH]; [reflexivity|]. cbn [field_value].
  destruct (ends_with key k); [|exact IH]. simpl.
  destruct (truthy v) eqn:E; [|exact IH]. simpl. now rewrite E.
Qed.

Lemma connection_string_truthy (fields : list (string * string)) :
  fields <> [] -> truthy (connection_string fields) = true.
Proof.
  destruct fields as [|[k v] fields]; [congruence|]. intros _.
  destruct fields; destruct k; reflexivity.
Qed.

End Initialisation.

(** X13. Whatever the environment holds and whichever call into the
    OpenTelemetry packages throws, [initializeTelemetry] writes exactly one
    message to the console and it is its last action; everything before it is
    a call into the packages.  Without a connection string, or with an empty
    one, the message is a warning and no call is made. *)
Theorem X13_initialisation_reports_once
    (connectionString : option string)
    (throws : Telemetry.SdkCall -> option Thrown) :
  (exists calls report,
     Telemetry.initializeTelemetry connectionString throws = calls ++ [report] /\
     Telemetry.console report = true /\
     forallb (fun a => negb (Telemetry.console a)) calls = true) /\
  (if truthy_opt connectionString then True
   else exists text,
     Telemetry.initializeTelemetry connectionString throws = [Telemetry.Warn text]).
Proof.
  unfold Telemetry.initializeTelemetry. split.
  - destruct (truthy_value connectionString) as [s|].
    + destruct (truthy_value (Telemetry.extractIngestionEndpoint s)) as [e|].
      * pose proof (try_block_calls throws) as H.
        match goal with
        | |- context [Telemetry.try_block throws ?cs] =>
            specialize (H cs); destruct (Telemetry.try_block throws cs) as [t thrown]
        end.
        destruct thrown as [error|]; eexists t, _; repeat split; exact H.
      * now exists [], (Telemetry.LogError
                          "Failed to parse Application Insights connection string"
                          None).
    + now eexists [], _.
  - destruct connectionString as [s|]; simpl; [|eauto].
    destruct (truthy s); simpl; eauto.
Qed.

(** X14. With a connection string made of well-formed fields,
    [initializeTelemetry] starts by creating the exporter with the value of
    the ingestion-endpoint field followed by ["/v1/traces"] as its URL,
    joined as they are, and with the value of the instrumentation-key field,
    or the empty string when there is none, as the key header; when no field
    gives an ingestion endpoint it logs that the connection string could not
    be parsed and calls nothing. *)
Theorem X14_exporter_of_the_connection_string
    (fields : list (string * string))
    (throws : Telemetry.SdkCall -> option Thrown) :
  Telemetry.well_formed fields = true ->
  fields <> [] ->
  let run :=
    Telemetry.initializeTelemetry (Some (Telemetry.connection_string fields))
      throws in
  match Telemetry.field_value "IngestionEndpoint" fields with
  | Some ingestionEndpoint =>
      exists rest,
        run =
        Telemetry.Sdk
          (Telemetry.NewOTLPTraceExporter (ingestionEndpoint ++ "/v1/traces")
             match Telemetry.field_value "InstrumentationKey" fields with
             | Some key => key
             | None => ""%string
             end) :: rest
  | None =>
      run = [Telemetry.LogError
               "Failed to parse Application Insights connection string" None]
  end.
Proof.
  intros Hwf Hne run. subst run. unfold Telemetry.initializeTelemetry.
  cbn [truthy_value]. rewrite (connection_string_truthy fields Hne).
  unfold Telemetry.extractIngestionEndpoint, Telemetry.extractInstrumentationKey.
  pose proof (regex_group_fields "IngestionEndpoint" fields eq_refl Hwf) as H1.
  pose proof (regex_group_fields "InstrumentationKey" fields eq_refl Hwf) as H2.
  cbn [String.append] in H1, H2.
  rewrite H1, H2, field_value_truthy, opt_or_else_empty.
  destruct (Telemetry.field_value "IngestionEndpoint" fields) as [e|];
    [|reflexivity].
  match goal with
  | |- context [Telemetry.try_block throws (?c :: ?cs)] =>
      destruct (try_block_first throws c cs) as [rest Hrest];
      destruct (Telemetry.try_block throws (c :: cs)) as [t thrown]
  end.
  cbn [fst] in Hrest. subst t.
  destruct thrown; eexists; reflexivity.
Qed.

Lemma X14_exporter_witness :
  exists rest,
    Telemetry.initializeTelemetry
      (Some "InstrumentationKey=abc;IngestionEndpoint=https://in.example.com/"%string)
      (fun _ => None) =
    Telemetry.Sdk
      (Telemetry.NewOTLPTraceExporter "https://in.example.com//v1/traces" "abc")
    :: rest.
Proof.
  assert (Hne : [("InstrumentationKey", "abc");
                 ("IngestionEndpoint", "https://in.example.com/")]%string <> [])
    by discriminate.
  exact (X14_exporter_of_the_connection_string
           [("InstrumentationKey", "abc");
            ("IngestionEndpoint", "https://in.example.com/")]%string
           (fun _ => None) eq_refl Hne).
Defined.

(** * Properties of ChatInput.tsx *)

Section InputBox.

Import ChatInput.

Variable trim : string -> string.

(** One event sends at most once, and then the trimmed content of the box,
    which is not empty; the box is emptied. *)
Lemma deliver_sends disabled e message :
  sent (snd (deliver trim disabled e message)) = [] \/
  (disabled = false /\ truthy (trim message) = true /\
   sent (snd (deliver trim disabled e message)) = [trim message] /\
   fst (deliver trim disabled e message) = ""%string).
Proof.
  destruct e as [value|key shiftKey|]; cbn [deliver]; [now left| |];
    unfold handleKeyPress, handleSend;
    try destruct ((key =? "Enter")%string && negb shiftKey);
    try (now left);
    destruct (truthy (trim message)) eqn:Ht; try (now left);
    destruct disabled; try (now left); right; now repeat split.
Qed.

Lemma run_cons_input disabled e script message :
  run trim ((disabled, e) :: script) message =
  (fst (run trim script (fst (deliver trim disabled e message))),
   snd (deliver trim disabled e message) ++
   snd (run trim script (fst (deliver trim disabled e message)))).
Proof.
  cbn [run]. destruct (deliver trim disabled e message) as [m1 t1].
  cbn [fst snd]. now destruct (run trim script m1) as [m2 t2].
Qed.

Lemma sent_app (t1 t2 : list Action) : sent (t1 ++ t2) = sent t1 ++ sent t2.
Proof. apply flat_map_app. Qed.

Lemma run_sends_text script message :
  Forall (fun m => truthy m = true) (sent (snd (run trim script message))).
Proof.
  revert message. induction script as [|[disabled e] script IH]; intros message.
  - constructor.
  - rewrite run_cons_input. cbn [snd]. rewrite sent_app. apply Forall_app. split.
    + destruct (deliver_sends disabled e message) as [-> | (_ & Ht & -> & _)];
        repeat constructor. exact Ht.
    + apply IH.
Qed.

Lemma run_disabled events message :
  sent (snd (run trim (map (pair true) events) message)) = [].
Proof.
  revert message. induction events as [|e events IH]; intros message;
    [reflexivity|].
  cbn [map]. rewrite run_cons_input. cbn [snd]. rewrite sent_app, IH.
  destruct (deliver_sends true e message) as [-> | (H & _)];
    [reflexivity | discriminate].
Qed.

Lemma changes_cons disabled e script :
  changes ((disabled, e) :: script) =
  match e with Change _ => 1 | _ => 0 end + changes script.
Proof. unfold changes. simpl. now destruct e. Qed.

(** After a send the box is empty, and an empty box sends nothing: every
    further send needs a change of the box. *)
Lemma run_sends_once script message :
  truthy (trim "") = false ->
  length (sent (snd (run trim script message))) <=
  (if truthy (trim message) then 1 else 0) + changes script.
Proof.
  intros Hblank. revert message.
  induction script as [|[disabled e] script IH]; intros message.
  - simpl. lia.
  - rewrite run_cons_input. cbn [snd]. rewrite sent_app, length_app, changes_cons.
    specialize (IH (fst (deliver trim disabled e message))).
    destruct (deliver_sends disabled e message) as [Hs | (_ & Ht & Hs & Hm)].
    + rewrite Hs. cbn [length Nat.add].
      destruct e as [value|key shiftKey|].
      * cbn [deliver fst] in IH |- *.
        destruct (truthy (trim value)), (truthy (trim message)); lia.
      * assert (Hm : fst (deliver trim disabled (KeyPress key shiftKey) message)
                     = message).
        { revert Hs. cbn [deliver]. unfold handleKeyPress, handleSend.
          destruct ((key =? "Enter")%string && negb shiftKey); [|reflexivity].
          destruct (truthy (trim message) && negb disabled); [|reflexivity].
          discriminate. }
        rewrite Hm in IH |- *. exact IH.
      * assert (Hm : fst (deliver trim disabled Click message) = message).
        { revert Hs. cbn [deliver]. unfold handleSend.
          destruct (truthy (trim message) && negb disabled); [|reflexivity].
          discriminate. }
        rewrite Hm in IH |- *. exact IH.
    + rewrite Hm, Hblank in IH. rewrite Hs, Hm, Ht. cbn [length].
      destruct e; lia.
Qed.

End InputBox.

(** X15. Whatever is typed, pressed and clicked, and whatever [disabled]
    the parent passes along, every text [ChatInput] hands to [onSend] is
    non-empty after trimming; and as long as [disabled] is set nothing is
    handed over at all. *)
Theorem X15_only_text_is_sent_and_never_while_disabled
    (trim : string -> string) (script : list (bool * ChatInput.Event))
    (events : list ChatInput.Event) (message : string) :
  Forall (fun m => truthy m = true)
    (ChatInput.sent (snd (ChatInput.run trim script message))) /\
  ChatInput.sent (snd (ChatInput.run trim (map (pair true) events) message)) = [].
Proof.
  split; [apply run_sends_text | apply run_disabled].
Qed.

(** X16. A message is not sent twice: a send empties the box and an empty
    box sends nothing, so in every sequence of events the number of sends is
    at most the number of changes of the box, plus one if the box held text
    at the start.  Repeated Enter presses or clicks send once. *)
Theorem X16_no_message_is_sent_twice
    (trim : string -> string) (script : list (bool * ChatInput.Event))
    (message : string) :
  truthy (trim "") = false ->
  length (ChatInput.sent (snd (ChatInput.run trim script message))) <=
  (if truthy (trim message) then 1 else 0) + ChatInput.changes script.
Proof. apply run_sends_once. Qed.

Lemma X16_repeated_enter_witness :
  length
    (ChatInput.sent
       (snd (ChatInput.run trim_ascii
               [(false, ChatInput.Change " hi ");
                (false, ChatInput.KeyPress "Enter" false);
                (false, ChatInput.KeyPress "Enter" false);
                (false, ChatInput.Click)] ""))) <=
  (if truthy (trim_ascii "") then 1 else 0) + 1.
Proof.
  exact (X16_no_message_is_sent_twice trim_ascii
           [(false, ChatInput.Change " hi ");
            (false, ChatInput.KeyPress "Enter" false);
            (false, ChatInput.KeyPress "Enter" false);
            (false, ChatInput.Click)] "" eq_refl).
Defined.

(** * Properties of Chat.tsx *)

Section Component.

Import Chat.

Variable trim : string -> string.

Lemma run_cons_chat e events st :
  run trim (e :: events) st =
  (fst (run trim events (fst (step trim e st))),
   snd (step trim e st) ++ snd (run trim events (fst (step trim e st)))).
Proof.
  cbn [run]. destruct (step trim e st) as [st1 t1]. cbn [fst snd].
  now destruct (run trim events st1) as [st2 t2].
Qed.

Lemma run_app_chat events1 events2 st :
  run trim (events1 ++ events2) st =
  (fst (run trim events2 (fst (run trim events1 st))),
   snd (run trim events1 st) ++ snd (run trim events2 (fst (run trim events1 st)))).
Proof.
  revert st. induction events1 as [|e events1 IH]; intros st.
  - cbn [List.app run fst snd]. now destruct (run trim events2 st).
  - cbn [List.app]. rewrite !run_cons_chat, IH. cbn [fst snd].
    now rewrite app_assoc.
Qed.

Lemma ends_with_question_append text now c :
  ends_with_question text (append (Message.mk user text (Some now)) c).
Proof.
  unfold ends_with_question, append. cbn [ConversationState.messages].
  rewrite rev_unit. now split.
Qed.

(** A message of the user found from the end is the last one when the
    conversation ends with a message of the user. *)
Lemma lastUserMessage_last text c :
  ConversationState.messages c <> [] ->
  ends_with_question text c ->
  exists init m,
    ConversationState.messages c = init ++ [m] /\
    Message.role m = user /\ Message.content m = text /\
    lastUserMessage c = Some m.
Proof.
  unfold ends_with_question, lastUserMessage. intros Hne H.
  destruct (rev (ConversationState.messages c)) as [|m l] eqn:E.
  - apply (f_equal (@rev _)) in E. rewrite rev_involutive in E. now destruct Hne.
  - destruct H as [Hr Ht]. exists (rev l), m.
    apply (f_equal (@rev _)) in E. rewrite rev_involutive in E.
    cbn [rev] in E. repeat split; auto. cbn [find]. now rewrite Hr.
Qed.

(** The invariant is kept by every event. *)
Lemma step_invariant e st : invariant st -> invariant (fst (step trim e st)).
Proof.
  destruct st as [conv typing err shown bx cs]. unfold invariant.
  cbn [calls isTyping error conversation].
  destruct e as [e' now|confirmed|now|n chunk|n c a now|n reason].
  - (* an event in the input box *)
    cbn [step isTyping box conversation].
    destruct (deliver_sends trim typing e' bx) as [Hs | (Hd & Ht & Hs & Hm)].
    + assert (Hst : fst (input_actions conv now
                           (snd (ChatInput.deliver trim typing e' bx))
                           (set_box (fst (ChatInput.deliver trim typing e' bx))
                              (mkState conv typing err shown bx cs))) =
                    set_box (fst (ChatInput.deliver trim typing e' bx))
                      (mkState conv typing err shown bx cs)).
      { revert Hs. generalize (snd (ChatInput.deliver trim typing e' bx)).
        generalize (set_box (fst (ChatInput.deliver trim typing e' bx))
                      (mkState conv typing err shown bx cs)).
        intros s l. revert s. induction l as [|[m|] l IH]; intros s Hs.
        - reflexivity.
        - discriminate.
        - cbn [input_actions]. specialize (IH s Hs).
          destruct (input_actions conv now l s). exact IH. }
      destruct (ChatInput.deliver trim typing e' bx) as [bx' acts].
      cbn [fst snd] in Hst. rewrite Hst. exact (fun H => H).
    + subst typing. intros H.
      destruct cs as [|r [|r' cs]]; [|destruct H; discriminate|destruct H].
      assert (Hst : snd (ChatInput.deliver trim false e' bx) =
                    [ChatInput.OnSend (trim bx)] \/
                    snd (ChatInput.deliver trim false e' bx) =
                    [ChatInput.PreventDefault; ChatInput.OnSend (trim bx)]).
      { destruct e' as [value|key shiftKey|]; cbn [ChatInput.deliver] in *.
        - discriminate.
        - unfold ChatInput.handleKeyPress, ChatInput.handleSend in *.
          destruct ((key =? "Enter")%string && negb shiftKey); [|discriminate].
          rewrite Ht in *. now right.
        - unfold ChatInput.handleSend in *. rewrite Ht in *. now left. }
      destruct (ChatInput.deliver trim false e' bx) as [bx' acts].
      cbn [fst snd] in *.
      destruct Hst as [-> | ->]; cbn; (split; [reflexivity|]);
        (split; [reflexivity|]); apply ends_with_question_append.
  - (* Clear Chat *)
    cbn [step conversation]. destruct (ConversationState.messages conv) eqn:Em;
      [exact (fun H => H)|].
    unfold handleClearChat. destruct confirmed; [|exact (fun H => H)].
    cbn [fst calls isTyping error conversation].
    destruct cs as [|r [|r' cs]]; [| |now intros []].
    + intros [H _]. split; [exact H|]. intros _. now exists ""%string.
    + intros (H1 & H2 & _). now repeat split.
  - (* Try Again *)
    cbn [step error]. destruct (truthy_opt err) eqn:Et; [|exact (fun H => H)].
    destruct cs as [|r [|r' cs]]; [| |now intros []].
    + intros [Htyping _]. unfold handleRetry. cbn [conversation].
      destruct (lastUserMessage conv) as [msg|].
      * cbn [handleSendMessage fst calls isTyping error conversation List.app].
        split; [reflexivity|]. split; [reflexivity|].
        apply ends_with_question_append.
      * cbn [fst calls isTyping error]. split; [exact Htyping|]. now intros [].
    + intros (_ & He & _). subst err. discriminate.
  - (* a fragment *)
    cbn [step calls]. destruct (nth_error cs n); exact (fun H => H).
  - (* the response *)
    cbn [step calls]. destruct (nth_error cs n) eqn:En; [|exact (fun H => H)].
    destruct cs as [|r [|r' cs]]; [destruct n; discriminate| |now intros []].
    destruct n as [|[|n]]; try discriminate.
    intros (_ & He & _). cbn. split; [reflexivity|]. now rewrite He.
  - (* the rejection *)
    cbn [step calls]. destruct (nth_error cs n) eqn:En; [|exact (fun H => H)].
    destruct cs as [|r [|r' cs]]; [destruct n; discriminate| |now intros []].
    destruct n as [|[|n]]; try discriminate.
    intros (_ & _ & Hq). cbn. split; [reflexivity|]. intros _.
    now exists (ChatRequest.message r).
Qed.

Lemma run_invariant_chat events st :
  invariant st -> invariant (fst (run trim events st)).
Proof.
  revert st. induction events as [|e events IH]; intros st H; [exact H|].
  rewrite run_cons_chat. cbn [fst]. apply IH. now apply step_invariant.
Qed.

Lemma mounted_invariant loaded : invariant (mounted loaded).
Proof. split; [reflexivity|]. now intros []. Qed.

End Component.

(** X17. Whatever conversation the component starts with and whatever
    happens to it, it awaits at most one call of [sendMessage] at a time, it
    shows the typing state exactly while it awaits one, and it holds no error
    while it does: the input is disabled during a call, and [Try Again] is
    offered only once the call has failed. *)
Theorem X17_one_call_at_a_time
    (trim : string -> string) (loaded : ConversationState.t)
    (events : list Chat.Event) :
  let st := fst (Chat.run trim events (Chat.mounted loaded)) in
  Chat.invariant st /\
  length (Chat.calls st) <= 1 /\
  (Chat.isTyping st = true <-> Chat.calls st <> []) /\
  (Chat.error st <> None -> Chat.calls st = []).
Proof.
  intros st.
  assert (H : Chat.invariant st)
    by apply run_invariant_chat, mounted_invariant.
  split; [exact H|]. unfold Chat.invariant in H.
  destruct (Chat.calls st) as [|r [|r' cs]]; [| |destruct H].
  - destruct H as [Ht _]. rewrite Ht. cbn [length].
    split; [lia|]. split; [|reflexivity].
    split; [discriminate | now intros []].
  - destruct H as (Ht & He & _). rewrite Ht, He. cbn [length].
    split; [lia|]. split; [|now intros []].
    split; [discriminate | reflexivity].
Qed.

(** X18. [Try Again], wherever it is offered on a conversation that is not
    empty: the last message is the user's; it is sent again, under the same
    conversation identifier, with a history that still contains it as its
    last entry, since the request is built from the conversation of the
    render and not from the one the message has just been removed from; the
    conversation ends up with the same messages, the last one with a new
    timestamp. *)
Theorem X18_retry_resends_the_last_message
    (trim : string -> string) (loaded : ConversationState.t)
    (events : list Chat.Event) (now : Z) :
  let st := fst (Chat.run trim events (Chat.mounted loaded)) in
  truthy_opt (Chat.error st) = true ->
  ConversationState.messages (Chat.conversation st) <> [] ->
  exists init m request st',
    ConversationState.messages (Chat.conversation st) = init ++ [m] /\
    Message.role m = user /\
    Chat.step trim (Chat.ClickRetry now) st = (st', [Chat.SendMessage request]) /\
    request =
      ChatRequest.mk (ConversationState.conversationId (Chat.conversation st))
        (Message.content m) (map Chat.strip init ++ [Chat.strip m]) /\
    Chat.conversation st' =
      ConversationState.mk (ConversationState.conversationId (Chat.conversation st))
        (init ++ [Message.mk user (Message.content m) (Some now)]) /\
    Chat.calls st' = [request] /\ Chat.isTyping st' = true /\
    Chat.error st' = None.
Proof.
  intros st Herr Hne.
  assert (H : Chat.invariant st)
    by apply run_invariant_chat, mounted_invariant.
  unfold Chat.invariant in H.
  destruct (Chat.calls st) as [|r [|r' cs]] eqn:Ec; [| |destruct H].
  - destruct H as [_ H].
    destruct H as [text Hq]; [now destruct (Chat.error st)|].
    destruct (lastUserMessage_last text _ Hne Hq) as (init & m & Hm & Hr & _ & Hl).
    exists init, m. eexists. eexists.
    split; [exact Hm|]. split; [exact Hr|].
    cbn [Chat.step]. rewrite Herr. unfold Chat.handleRetry. rewrite Hl.
    unfold Chat.handleSendMessage.
    cbn [Chat.calls Chat.conversation Chat.box Chat.isTyping Chat.error
         Chat.streamingMessage].
    rewrite Ec, Hm, removelast_last, map_app. cbn [map List.app].
    split; [reflexivity|]. now repeat split.
  - destruct H as (_ & He & _). rewrite He in Herr. discriminate.
Qed.

Lemma X18_retry_witness :
  let st :=
    fst (Chat.run trim_ascii
           [Chat.Input (ChatInput.Change "hello") 0;
            Chat.Input (ChatInput.KeyPress "Enter" false) 1;
            Chat.Rejects 0 (ThrowError (Error "Request timeout"))]
           (Chat.mounted (ConversationState.mk None []))) in
  exists init m request st',
    ConversationState.messages (Chat.conversation st) = init ++ [m] /\
    Message.role m = user /\
    Chat.step trim_ascii (Chat.ClickRetry 2) st = (st', [Chat.SendMessage request]) /\
    request =
      ChatRequest.mk (ConversationState.conversationId (Chat.conversation st))
        (Message.content m) (map Chat.strip init ++ [Chat.strip m]) /\
    Chat.conversation st' =
      ConversationState.mk (ConversationState.conversationId (Chat.conversation st))
        (init ++ [Message.mk user (Message.content m) (Some 2%Z)]) /\
    Chat.calls st' = [request] /\ Chat.isTyping st' = true /\
    Chat.error st' = None.
Proof.
  assert (Hne : ConversationState.messages
                  (Chat.conversation
                     (fst (Chat.run trim_ascii
                             [Chat.Input (ChatInput.Change "hello") 0;
                              Chat.Input (ChatInput.KeyPress "Enter" false) 1;
                              Chat.Rejects 0 (ThrowError (Error "Request timeout"))]
                             (Chat.mounted (ConversationState.mk None []))))) <> [])
    by discriminate.
  exact (X18_retry_resends_the_last_message trim_ascii
           (ConversationState.mk None [])
           [Chat.Input (ChatInput.Change "hello") 0;
            Chat.Input (ChatInput.KeyPress "Enter" false) 1;
            Chat.Rejects 0 (ThrowError (Error "Request timeout"))]
           2%Z eq_refl Hne).
Defined.

Section Exchange.

Import Chat.

Variable trim : string -> string.

(** The fragments of the awaited call, one after the other. *)
Lemma run_chunks (l : list string) (st : State) :
  calls st <> [] ->
  run trim (map (Chunk 0) l) st =
  (mkState (conversation st) (isTyping st) (error st)
     (streamingMessage st ++ concatenation l) (box st) (calls st), []).
Proof.
  intros Hc. revert st Hc. induction l as [|x l IH]; intros st Hc.
  - cbn [map run concatenation fold_right]. rewrite append_empty_r.
    now destruct st.
  - cbn [map]. rewrite run_cons_chat. cbn [step].
    destruct (calls st) as [|r cs] eqn:Ec; [now destruct Hc|].
    cbn [nth_error fst snd]. rewrite IH by (cbn [onChunk calls]; now rewrite Ec).
    cbn [onChunk fst snd conversation isTyping error streamingMessage box calls
         concatenation fold_right List.app].
    now rewrite append_assoc_string, Ec.
Qed.

Lemma as_ChatResponse_ChatResponse (c a : string) :
  as_ChatResponse (ChatResponse c a) = Some (c, a).
Proof. reflexivity. Qed.

End Exchange.

(** X19. The component and the client together, for a message sent with no
    other call awaited: while the call is under way the text on display is
    the concatenation of the fragments the client has handed over; and when
    the streaming attempt resolves, the message stored as the answer is
    exactly the text that was on display, the typing state ends and the
    display is reset. *)
Theorem X19_streamed_text_is_the_stored_answer
    (trim : string -> string) (this : AgentClient) (st : Chat.State)
    (text : string) (now now' : Z) (f : string -> unit) (env : Platform) :
  Chat.calls st = [] ->
  let request :=
    ChatRequest.mk (ConversationState.conversationId (Chat.conversation st)) text
      (map Chat.strip (ConversationState.messages (Chat.conversation st))) in
  let sent := fst (Chat.handleSendMessage (Chat.conversation st) text now st) in
  let outcome := sendMessage this request (Some f) env in
  let streaming := fst (Chat.run trim (map (Chat.Chunk 0) (chunks (snd outcome))) sent) in
  let final := fst (Chat.run trim (Chat.call_events outcome now') sent) in
  Chat.calls sent = [request] /\
  Chat.streamingMessage streaming = concatenation (chunks (snd outcome)) /\
  match promise (fst (sendMessageWithStreaming Plain this (endpoint this) request
                        content_type f (stream_handle env) (stream_inputs env))) with
  | Fulfilled _ =>
      exists identifier,
        Chat.conversation final =
          ConversationState.mk (Some identifier)
            (ConversationState.messages (Chat.conversation st) ++
             [Message.mk user text (Some now);
              Message.mk assistant (Chat.streamingMessage streaming) (Some now')]) /\
        Chat.isTyping final = false /\ Chat.streamingMessage final = ""%string /\
        Chat.calls final = []
  | _ => True
  end.
Proof.
  intros Hc request sent outcome streaming final.
  assert (Hsent : Chat.calls sent = [request]).
  { subst sent. cbn [Chat.handleSendMessage fst Chat.calls]. now rewrite Hc. }
  assert (Hne : Chat.calls sent <> []) by now rewrite Hsent.
  assert (Hshown : Chat.streamingMessage streaming =
                   concatenation (chunks (snd outcome))).
  { subst streaming. rewrite (run_chunks trim _ sent Hne). reflexivity. }
  split; [exact Hsent|]. split; [exact Hshown|].
  pose proof (stream_reported Plain this (endpoint this) request content_type f
                (stream_handle env) (stream_inputs env)) as [_ Hrep].
  destruct (sendMessageWithStreaming Plain this (endpoint this) request
              content_type f (stream_handle env) (stream_inputs env))
    as [ss t] eqn:E.
  cbn [fst snd] in *.
  destruct (promise ss) as [|response|reason] eqn:Ep; try exact I.
  destruct Hrep as [c Hresponse].
  assert (Hout : outcome = (Fulfilled response, t)).
  { subst outcome. exact (sendMessage_streamed this request f env ss t response E Ep). }
  exists c. rewrite Hshown. subst final. unfold Chat.call_events.
  rewrite Hout. cbn [fst snd]. rewrite Hresponse, as_ChatResponse_ChatResponse.
  rewrite run_app_chat, (run_chunks trim _ sent Hne). cbn [fst snd].
  cbn [Chat.run Chat.step Chat.calls]. rewrite Hsent. cbn [nth_error].
  cbn [fst Chat.settle_call Chat.resolved Chat.conversation Chat.isTyping
       Chat.streamingMessage Chat.calls Chat.remove_nth Chat.error Chat.box].
  rewrite ?Hsent. cbn [Chat.remove_nth].
  repeat split. subst sent.
  cbn [Chat.handleSendMessage fst Chat.conversation Chat.append
       ConversationState.messages].
  destruct (stream_reported Plain this (endpoint this) request content_type f
              (stream_handle env) (stream_inputs env)) as [Hacc _].
  rewrite E in Hacc. cbn [fst snd] in Hacc. rewrite <- Hacc, <- app_assoc.
  reflexivity.
Qed.

Lemma X19_scenario_A_witness :
  let st := Chat.mounted (ConversationState.mk None []) in
  let request := ChatRequest.mk None "hi" [] in
  let sent := fst (Chat.handleSendMessage (Chat.conversation st) "hi" 0 st) in
  let outcome := sendMessage local request (Some noop) (mkPlatform 1 scenario_A 2 []) in
  let streaming := fst (Chat.run trim_ascii (map (Chat.Chunk 0) (chunks (snd outcome))) sent) in
  let final := fst (Chat.run trim_ascii (Chat.call_events outcome 5) sent) in
  Chat.calls sent = [request] /\
  Chat.streamingMessage streaming = concatenation (chunks (snd outcome)) /\
  exists identifier,
    Chat.conversation final =
      ConversationState.mk (Some identifier)
        ([] ++
         [Message.mk user "hi" (Some 0%Z);
          Message.mk assistant (Chat.streamingMessage streaming) (Some 5%Z)]) /\
    Chat.isTyping final = false /\ Chat.streamingMessage final = ""%string /\
    Chat.calls final = [].
Proof.
  exact (X19_streamed_text_is_the_stored_answer trim_ascii local
           (Chat.mounted (ConversationState.mk None [])) "hi" 0%Z 5%Z noop
           (mkPlatform 1 scenario_A 2 []) eq_refl).
Defined.

(** X20. The component and the client together, when the call fails: the
    component shows the message of the [Error] the client has rejected with.
    As the client, in either revision, rejects with instances of [Error]
    only, the generic text of the component's catch clause is not what
    decides the error shown.  The typing state ends, and the message of the
    user stays in the conversation, as its last one. *)
Theorem X20_error_shown_is_the_message_of_the_rejection
    (trim : string -> string) (this : AgentClient) (st : Chat.State)
    (text : string) (now now' : Z) (f : string -> unit) (env : Platform) :
  Chat.calls st = [] ->
  let request :=
    ChatRequest.mk (ConversationState.conversationId (Chat.conversation st)) text
      (map Chat.strip (ConversationState.messages (Chat.conversation st))) in
  let sent := fst (Chat.handleSendMessage (Chat.conversation st) text now st) in
  let shown (outcome : Promise JsValue * list Effect) :=
    let final := fst (Chat.run trim (Chat.call_events outcome now') sent) in
    match fst outcome with
    | Rejected reason =>
        exists e,
          reason = ThrowError e /\
          Chat.error final = Some (message e) /\
          Chat.isTyping final = false /\ Chat.calls final = [] /\
          Chat.conversation final =
            Chat.append (Message.mk user text (Some now)) (Chat.conversation st)
    | _ => True
    end in
  shown (sendMessage this request (Some f) env) /\
  shown (sendMessage_traced this request (Some f) env).
Proof.
  intros Hc request sent shown.
  assert (Hsent : Chat.calls sent = [request]).
  { subst sent. cbn [Chat.handleSendMessage fst Chat.calls]. now rewrite Hc. }
  assert (Hne : Chat.calls sent <> []) by now rewrite Hsent.
  assert (H : forall outcome, rejects_with_Error (fst outcome) -> shown outcome).
  { intros [result t] Herr. subst shown. cbn [fst snd] in *.
    destruct result as [|response|reason]; try exact I.
    destruct reason as [e|v]; [|destruct Herr]. exists e.
    unfold Chat.call_events. cbn [fst snd].
    rewrite run_app_chat, (run_chunks trim _ sent Hne). cbn [fst snd].
    cbn [Chat.run Chat.step Chat.calls]. rewrite Hsent. cbn [nth_error].
    cbn [fst Chat.settle_call Chat.rejected Chat.conversation Chat.isTyping
         Chat.streamingMessage Chat.calls Chat.remove_nth Chat.error Chat.box].
    rewrite ?Hsent. cbn [Chat.remove_nth]. now repeat split. }
  destruct (sendMessage_rejects_with_Error this request (Some f) env) as [H1 H2].
  split; apply H; assumption.
Qed.

Lemma X20_failed_fallback_witness :
  let st := Chat.mounted (ConversationState.mk None []) in
  let sent := fst (Chat.handleSendMessage (Chat.conversation st) "hi" 0 st) in
  let env :=
    mkPlatform 1 [OnError] 2 [FetchResolves 500; TextResolves "server error"] in
  let final :=
    fst (Chat.run trim_ascii
           (Chat.call_events
              (sendMessage local (ChatRequest.mk None "hi" []) (Some noop) env) 5)
           sent) in
  exists e,
    ThrowError (Error "HTTP 500: server error") = ThrowError e /\
    Chat.error final = Some (message e) /\
    Chat.isTyping final = false /\ Chat.calls final = [] /\
    Chat.conversation final =
      Chat.append (Message.mk user "hi" (Some 0%Z)) (Chat.conversation st).
Proof.
  exact (proj1 (X20_error_shown_is_the_message_of_the_rejection trim_ascii local
                  (Chat.mounted (ConversationState.mk None [])) "hi" 0%Z 5%Z noop
                  (mkPlatform 1 [OnError] 2
                     [FetchResolves 500; TextResolves "server error"])
                  eq_refl)).
Defined.

(** X21. [Clear Chat] does not cancel the call that is awaited: the call
    stays awaited and the typing state stays on; and when its response
    arrives, the answer is appended to the emptied conversation, which then
    consists of that answer alone, under the identifier the response
    carries. *)
Theorem X21_clear_does_not_cancel_the_call
    (trim : string -> string) (st : Chat.State) (request : ChatRequest.t)
    (identifier answer : string) (now : Z) :
  Chat.calls st = [request] ->
  ConversationState.messages (Chat.conversation st) <> [] ->
  let cleared := fst (Chat.step trim (Chat.ClickClear true) st) in
  let final := fst (Chat.step trim (Chat.Resolves 0 identifier answer now) cleared) in
  Chat.calls cleared = [request] /\
  Chat.isTyping cleared = Chat.isTyping st /\
  Chat.conversation cleared = ConversationState.mk None [] /\
  Chat.conversation final =
    ConversationState.mk (Some identifier) [Message.mk assistant answer (Some now)] /\
  Chat.calls final = [] /\ Chat.isTyping final = false.
Proof.
  intros Hc Hne cleared final. subst final cleared. cbn [Chat.step].
  destruct (ConversationState.messages (Chat.conversation st)) as [|m l];
    [now destruct Hne|].
  cbn [Chat.handleClearChat fst Chat.calls Chat.isTyping Chat.conversation].
  rewrite Hc. cbn. now repeat split.
Qed.

Lemma X21_clear_witness :
  let st :=
    fst (Chat.run trim_ascii
           [Chat.Input (ChatInput.Change "hello") 0;
            Chat.Input (ChatInput.Click) 1]
           (Chat.mounted (ConversationState.mk None []))) in
  let cleared := fst (Chat.step trim_ascii (Chat.ClickClear true) st) in
  let final := fst (Chat.step trim_ascii (Chat.Resolves 0 "c1" "Hello" 9) cleared) in
  Chat.calls cleared = [ChatRequest.mk None "hello" []] /\
  Chat.isTyping cleared = true /\
  Chat.conversation cleared = ConversationState.mk None [] /\
  Chat.conversation final =
    ConversationState.mk (Some "c1"%string)
      [Message.mk assistant "Hello" (Some 9%Z)] /\
  Chat.calls final = [] /\ Chat.isTyping final = false.
Proof.
  assert (Hne : ConversationState.messages
                  (Chat.conversation
                     (fst (Chat.run trim_ascii
                             [Chat.Input (ChatInput.Change "hello") 0;
                              Chat.Input (ChatInput.Click) 1]
                             (Chat.mounted (ConversationState.mk None []))))) <> [])
    by discriminate.
  exact (X21_clear_does_not_cancel_the_call trim_ascii
           (fst (Chat.run trim_ascii
                   [Chat.Input (ChatInput.Change "hello") 0;
                    Chat.Input (ChatInput.Click) 1]
                   (Chat.mounted (ConversationState.mk None []))))
           (ChatRequest.mk None "hello" []) "c1" "Hello" 9%Z eq_refl Hne).
Defined.

(** X22. The conversation is continued: once the awaited call has resolved,
    the next message sent from the input box, by Enter or by the button, is
    requested under the identifier that response carried, with the trimmed
    content of the box as its message and, as its history, the conversation
    including the answer just stored, without timestamps and without the
    message itself. *)
Theorem X22_next_request_continues_the_conversation
    (trim : string -> string) (st : Chat.State) (request : ChatRequest.t)
    (identifier answer : string) (now now' : Z) (e : ChatInput.Event) :
  Chat.calls st = [request] ->
  truthy (trim (Chat.box st)) = true ->
  e = ChatInput.Click \/ e = ChatInput.KeyPress "Enter" false ->
  let answered :=
    fst (Chat.step trim (Chat.Resolves 0 identifier answer now) st) in
  Chat.requests (snd (Chat.step trim (Chat.Input e now') answered)) =
  [ChatRequest.mk (Some identifier) (trim (Chat.box st))
     (map Chat.strip (ConversationState.messages (Chat.conversation st)) ++
      [Message.mk assistant answer None])].
Proof.
  intros Hc Ht He answered. subst answered. cbn [Chat.step]. rewrite Hc.
  cbn [nth_error fst Chat.settle_call Chat.resolved Chat.isTyping Chat.box
       Chat.conversation].
  destruct He as [-> | ->]; cbn [ChatInput.deliver];
    unfold ChatInput.handleKeyPress, ChatInput.handleSend; rewrite Ht;
    cbn; now rewrite map_app.
Qed.

Lemma X22_second_message_witness :
  let st :=
    fst (Chat.run trim_ascii
           [Chat.Input (ChatInput.Change "hello") 0;
            Chat.Input (ChatInput.Click) 1;
            Chat.Input (ChatInput.Change " and then? ") 2]
           (Chat.mounted (ConversationState.mk None []))) in
  let answered := fst (Chat.step trim_ascii (Chat.Resolves 0 "c1" "Hello" 3) st) in
  Chat.requests
    (snd (Chat.step trim_ascii (Chat.Input (ChatInput.KeyPress "Enter" false) 4)
            answered)) =
  [ChatRequest.mk (Some "c1"%string) "and then?"
     ([Message.mk user "hello" None] ++ [Message.mk assistant "Hello" None])].
Proof.
  exact (X22_next_request_continues_the_conversation trim_ascii
           (fst (Chat.run trim_ascii
                   [Chat.Input (ChatInput.Change "hello") 0;
                    Chat.Input (ChatInput.Click) 1;
                    Chat.Input (ChatInput.Change " and then? ") 2]
                   (Chat.mounted (ConversationState.mk None []))))
           (ChatRequest.mk None "hello" []) "c1" "Hello" 3%Z 4%Z
           (ChatInput.KeyPress "Enter" false) eq_refl eq_refl
           (or_intror eq_refl)).
Defined.
